(** * The maintainer core of a changefeed: replication DB, barrier events,
      heartbeat routing.

    A shallow embedding of
    - the span index [ReplicationDB] of package [replica]
      (src/unnamed/part_000),
    - the barrier state machine [BarrierEvent] of package [maintainer]
      (the second half of src/maintainer/replica/mock/tso_client.go),
    - the heartbeat routing [Controller.HandleStatus]
      (src/maintainer/maintainer_controller.go),
    followed by the properties the specification states about them.

    Go pointers to [SpanReplication] objects are addresses into an explicit
    heap, so that the aliasing between [allTasks], [schemaTasks],
    [tableTasks] and the lifecycle partitions is the one of the program.
    Go maps are [gmap]s; [for ... := range m] visits [map_to_list m], an
    order the statements below never depend on.  Locks are not modelled: a
    method is one atomic step. *)

From stdpp Require Import gmap strings list fin_maps.
From Stdlib Require Import ZArith.
From Stdlib.Strings Require Import Byte.

Local Open Scope Z_scope.
#[local] Set Warnings "-clear-no-such-hyp".

(** ** Basic types *)

(** [common.DispatcherID] is an opaque 128-bit id; only equality is used. *)
Abbreviation DispatcherID := N (only parsing).
(** [common.ChangeFeedID]. *)
Abbreviation ChangeFeedID := string (only parsing).
(** [node.ID] is a Go string; the empty string means "not scheduled". *)
Abbreviation NodeID := string (only parsing).
(** A handle on the shared TSO client. *)
Abbreviation TSOClient := N (only parsing).
(** Keys are Go byte slices. *)
Abbreviation Key := (list byte) (only parsing).
(** Address of a [SpanReplication] object. *)
Abbreviation ptr := positive (only parsing).

(** A Go function that may panic. *)
Inductive Result (A : Type) : Type :=
  | Ok (a : A)
  | Panic (msg : string).
Arguments Ok {A} a.
Arguments Panic {A} msg.

(** ** Wire messages (package heartbeatpb) *)

(** Modelled from the spec: the generated package [heartbeatpb] is not in the
    sources at hand.  The messages carry the fields that the source reads and
    writes, with the enumerations of sections 3 and 6 of the specification. *)
Module heartbeatpb.

Inductive ComponentState : Type :=
  | ComponentState_Absent
  | ComponentState_Preparing
  | ComponentState_Working
  | ComponentState_Stopped.

Inductive InfluenceType : Type :=
  | InfluenceType_Normal
  | InfluenceType_DB
  | InfluenceType_All.

Inductive Action : Type :=
  | Action_Write
  | Action_Pass.

Record TableSpan : Type := {
  TableID : Z;
  StartKey : Key;
  EndKey : Key
}.

(** Timestamps are [uint64]; they are only compared, never computed with. *)
Record TableSpanStatus : Type := {
  ID : DispatcherID;
  ComponentStatus : ComponentState;
  CheckpointTs : Z
}.

Record InfluencedTables : Type := {
  InfluenceType_of : InfluenceType;
  TableIDs : list Z;
  SchemaID : Z
}.

Record Table : Type := {
  Table_SchemaID : Z;
  Table_TableID : Z
}.

Record SchemaIDChange : Type := {
  Change_TableID : Z;
  OldSchemaID : Z;
  NewSchemaID : Z
}.

(** The block state a dispatcher reports ([heartbeatpb.State]). *)
Record State : Type := {
  BlockTs : Z;
  BlockTables : option InfluencedTables;
  NeedDroppedTables : option InfluencedTables;
  NeedAddedTables : list Table;
  UpdatedSchemas : list SchemaIDChange;
  IsSyncPoint : bool
}.

Record DispatcherAction : Type := {
  Action_of : Action;
  CommitTs : Z;
  Action_IsSyncPoint : bool
}.

Record InfluencedDispatchers : Type := {
  Dispatchers_InfluenceType : InfluenceType;
  DispatcherIDs : list DispatcherID;
  Dispatchers_SchemaID : Z;
  ExcludeDispatcherId : option DispatcherID
}.

Record DispatcherStatus : Type := {
  InfluencedDispatchers_of : InfluencedDispatchers;
  Action_field : DispatcherAction
}.

Record HeartBeatResponse : Type := {
  ChangefeedID : ChangeFeedID;
  DispatcherStatuses : list DispatcherStatus
}.

(** The sentinel table id of the DDL span: "dispatcher will report a block
    event with table ID 0" ([putDDLDispatcher]). *)
Definition DDLSpan_TableID : Z := 0.

#[global] Instance ComponentState_eq_dec : EqDecision ComponentState.
Proof. solve_decision. Defined.
#[global] Instance InfluenceType_eq_dec : EqDecision InfluenceType.
Proof. solve_decision. Defined.
#[global] Instance Action_eq_dec : EqDecision Action.
Proof. solve_decision. Defined.

End heartbeatpb.

Import heartbeatpb.

(** ** Span replications and the heap they live in *)

Record SpanReplication : Type := {
  span_ID : DispatcherID;
  span_ChangefeedID : ChangeFeedID;
  tsoClient : TSOClient;
  schemaID : Z;
  Span : TableSpan;
  status : TableSpanStatus;
  nodeID : NodeID
}.

#[global] Instance byte_eq_dec : EqDecision byte := Byte.byte_eq_dec.
#[global] Instance TableSpan_eq_dec : EqDecision TableSpan.
Proof. solve_decision. Defined.
#[global] Instance TableSpanStatus_eq_dec : EqDecision TableSpanStatus.
Proof. solve_decision. Defined.
#[global] Instance SpanReplication_eq_dec : EqDecision SpanReplication.
Proof. solve_decision. Defined.

#[global] Instance SpanReplication_inhabited : Inhabited SpanReplication :=
  populate {| span_ID := 0%N; span_ChangefeedID := ""; tsoClient := 0%N;
              schemaID := 0;
              Span := {| TableID := 0; StartKey := []; EndKey := [] |};
              status := {| ID := 0%N; ComponentStatus := ComponentState_Absent;
                           CheckpointTs := 0 |};
              nodeID := "" |}.

Abbreviation Heap := (gmap ptr SpanReplication) (only parsing).

(** Dereference; every pointer the program holds is allocated. *)
Definition deref (h : gmap ptr SpanReplication) (p : ptr) : SpanReplication :=
  h !!! p.

Definition GetSchemaID (s : SpanReplication) : Z := schemaID s.
Definition GetNodeID (s : SpanReplication) : NodeID := nodeID s.
Definition GetStatus (s : SpanReplication) : TableSpanStatus := status s.
Definition GetTsoClient (s : SpanReplication) : TSOClient := tsoClient s.
Definition GetCheckpointTs (st : TableSpanStatus) : Z := CheckpointTs st.

Definition SetSchemaID (newSchemaID : Z) (s : SpanReplication) : SpanReplication :=
  {| span_ID := span_ID s; span_ChangefeedID := span_ChangefeedID s;
     tsoClient := tsoClient s; schemaID := newSchemaID; Span := Span s;
     status := status s; nodeID := nodeID s |}.

(** Modelled from the spec: [SpanReplication.UpdateStatus] is not in the
    sources at hand.  A span's status is "a reported status"; the update
    stores the report and touches nothing else. *)
Definition span_UpdateStatus (st : TableSpanStatus) (s : SpanReplication)
  : SpanReplication :=
  {| span_ID := span_ID s; span_ChangefeedID := span_ChangefeedID s;
     tsoClient := tsoClient s; schemaID := schemaID s; Span := Span s;
     status := st; nodeID := nodeID s |}.

(** Modelled from the spec: the constructor [NewReplicaSet] is not in the
    sources at hand.  It builds an unscheduled span (empty node id) from the
    changefeed id, a dispatcher id, the TSO client, a schema id, a table span
    and a checkpoint ts. *)
Definition NewReplicaSet (cfID : ChangeFeedID) (id : DispatcherID)
    (tso : TSOClient) (sid : Z) (span : TableSpan) (checkpointTs : Z)
  : SpanReplication :=
  {| span_ID := id; span_ChangefeedID := cfID; tsoClient := tso;
     schemaID := sid; Span := span;
     status := {| ID := id; ComponentStatus := ComponentState_Absent;
                  CheckpointTs := checkpointTs |};
     nodeID := "" |}.

(** Go's [new]: an address no live object has. *)
Definition alloc (h : gmap ptr SpanReplication) (s : SpanReplication)
  : ptr * gmap ptr SpanReplication :=
  let p := fresh (dom h) in (p, <[p := s]> h).

(** ** The lifecycle tracker embedded in the DB *)

(** Modelled from the spec: the generic tracker of package
    [pkg/scheduler/replica] is not in the sources at hand.  It holds the three
    lifecycle partitions; adding puts a span into one partition, removing takes
    its id out of all of them, and the getters are snapshots.  It also holds
    the group checkers, policy objects behind the two operations
    updateStatus(span) and check(batch); the checker of a span is picked by
    the group id derived from the span.  Of the checkers the model keeps what
    they were told: the spans handed to their updateStatus, in the order of
    the calls (the checker of one group was told the spans of its group in
    that list). *)
Record Tracker : Type := {
  absent : gmap DispatcherID ptr;
  scheduling : gmap DispatcherID ptr;
  replicating : gmap DispatcherID ptr;
  checkerUpdates : list ptr
}.

Definition NewReplicationDB : Tracker :=
  {| absent := ∅; scheduling := ∅; replicating := ∅; checkerUpdates := [] |}.

Definition AddAbsentWithoutLock (id : DispatcherID) (p : ptr) (t : Tracker) : Tracker :=
  {| absent := <[id := p]> (absent t); scheduling := scheduling t;
     replicating := replicating t; checkerUpdates := checkerUpdates t |}.

Definition AddReplicatingWithoutLock (id : DispatcherID) (p : ptr) (t : Tracker) : Tracker :=
  {| absent := absent t; scheduling := scheduling t;
     replicating := <[id := p]> (replicating t);
     checkerUpdates := checkerUpdates t |}.

Definition RemoveReplicaWithoutLock (id : DispatcherID) (t : Tracker) : Tracker :=
  {| absent := delete id (absent t); scheduling := delete id (scheduling t);
     replicating := delete id (replicating t);
     checkerUpdates := checkerUpdates t |}.

(** Modelled from the spec: [checker.UpdateStatus(span)] on the checker of
    the span's group; the group checkers are not in the sources at hand, and
    of the call the model keeps that it was made, and for which span. *)
Definition GroupChecker_UpdateStatus (span : ptr) (t : Tracker) : Tracker :=
  {| absent := absent t; scheduling := scheduling t;
     replicating := replicating t;
     checkerUpdates := checkerUpdates t ++ [span] |}.

(** The values of a Go map in iteration order. *)
Definition range_values {K} `{Countable K} {A} (m : gmap K A) : list A :=
  (map_to_list m).*2.

Definition GetReplicatingWithoutLock (t : Tracker) : list ptr :=
  range_values (replicating t).
Definition GetSchedulingWithoutLock (t : Tracker) : list ptr :=
  range_values (scheduling t).
Definition GetAbsentWithoutLock (t : Tracker) : list ptr :=
  range_values (absent t).

(** ** ReplicationDB *)

Record ReplicationDB : Type := {
  changefeedID : ChangeFeedID;
  allTasks : gmap DispatcherID ptr;
  schemaTasks : gmap Z (gmap DispatcherID ptr);
  tableTasks : gmap Z (gmap DispatcherID ptr);
  tracker : Tracker;
  ddlSpan : ptr
}.

(** [m[k]] on a map of maps: a missing key reads as the nil (empty) map. *)
Definition inner (idx : gmap Z (gmap DispatcherID ptr)) (k : Z)
  : gmap DispatcherID ptr :=
  default ∅ (idx !! k).

(** [delete(idx[k], id)]: the inner map is shared, deleting from nil is a
    no-op. *)
Definition delete_inner (k : Z) (id : DispatcherID)
    (idx : gmap Z (gmap DispatcherID ptr)) : gmap Z (gmap DispatcherID ptr) :=
  alter (delete id) k idx.

(** [if len(idx[k]) == 0 { delete(idx, k) }]. *)
Definition prune (k : Z) (idx : gmap Z (gmap DispatcherID ptr))
  : gmap Z (gmap DispatcherID ptr) :=
  if decide (size (inner idx k) = 0%nat) then delete k idx else idx.

(** [m, ok := idx[k]; if !ok { m = make(..); idx[k] = m }; m[id] = p]. *)
Definition put_inner (k : Z) (id : DispatcherID) (p : ptr)
    (idx : gmap Z (gmap DispatcherID ptr)) : gmap Z (gmap DispatcherID ptr) :=
  <[k := <[id := p]> (inner idx k)]> idx.

Definition reset (db : ReplicationDB) : ReplicationDB :=
  {| changefeedID := changefeedID db; allTasks := ∅; schemaTasks := ∅;
     tableTasks := ∅; tracker := NewReplicationDB; ddlSpan := ddlSpan db |}.

Definition putDDLDispatcher (h : gmap ptr SpanReplication) (ddl : ptr)
    (db : ReplicationDB) : ReplicationDB :=
  let s := deref h ddl in
  {| changefeedID := changefeedID db;
     allTasks := <[span_ID s := ddl]> (allTasks db);
     schemaTasks := <[schemaID s := {[span_ID s := ddl]}]> (schemaTasks db);
     tableTasks := <[TableID (Span s) := {[span_ID s := ddl]}]> (tableTasks db);
     tracker := tracker db;
     ddlSpan := ddlSpan db |}.

Definition NewReplicaSetDB (h : gmap ptr SpanReplication) (cf : ChangeFeedID)
    (ddl : ptr) : ReplicationDB :=
  let db := {| changefeedID := cf; allTasks := ∅; schemaTasks := ∅;
               tableTasks := ∅; tracker := NewReplicationDB; ddlSpan := ddl |} in
  putDDLDispatcher h ddl (reset db).

Definition GetTaskByID (db : ReplicationDB) (id : DispatcherID) : option ptr :=
  allTasks db !! id.

Definition TaskSize (db : ReplicationDB) : Z := Z.of_nat (size (allTasks db)).

Definition addToSchemaAndTableMap (h : gmap ptr SpanReplication) (p : ptr)
    (db : ReplicationDB) : ReplicationDB :=
  let s := deref h p in
  {| changefeedID := changefeedID db;
     allTasks := allTasks db;
     schemaTasks := put_inner (GetSchemaID s) (span_ID s) p (schemaTasks db);
     tableTasks := put_inner (TableID (Span s)) (span_ID s) p (tableTasks db);
     tracker := tracker db;
     ddlSpan := ddlSpan db |}.

(** One iteration of [removeSpanUnLock]. *)
Definition removeSpanUnLock (h : gmap ptr SpanReplication) (db : ReplicationDB)
    (p : ptr) : ReplicationDB :=
  let s := deref h p in
  let tr := RemoveReplicaWithoutLock (span_ID s) (tracker db) in
  let tableID := TableID (Span s) in
  let sid := GetSchemaID s in
  let st := delete_inner sid (span_ID s) (schemaTasks db) in
  let tt := delete_inner tableID (span_ID s) (tableTasks db) in
  let st := prune sid st in
  let tt := prune tableID tt in
  {| changefeedID := changefeedID db;
     allTasks := delete (span_ID s) (allTasks db);
     schemaTasks := st;
     tableTasks := tt;
     tracker := tr;
     ddlSpan := ddlSpan db |}.

(** One iteration of [addAbsentReplicaSetUnLock]. *)
Definition addAbsentOne (h : gmap ptr SpanReplication) (db : ReplicationDB)
    (p : ptr) : ReplicationDB :=
  let s := deref h p in
  let db1 :=
    {| changefeedID := changefeedID db;
       allTasks := <[span_ID s := p]> (allTasks db);
       schemaTasks := schemaTasks db;
       tableTasks := tableTasks db;
       tracker := AddAbsentWithoutLock (span_ID s) p (tracker db);
       ddlSpan := ddlSpan db |} in
  addToSchemaAndTableMap h p db1.

Definition addAbsentReplicaSetUnLock (h : gmap ptr SpanReplication)
    (db : ReplicationDB) (spans : list ptr) : ReplicationDB :=
  foldl (addAbsentOne h) db spans.

Definition AddAbsentReplicaSet (h : gmap ptr SpanReplication)
    (db : ReplicationDB) (spans : list ptr) : ReplicationDB :=
  addAbsentReplicaSetUnLock h db spans.

Definition AddReplicatingSpan (h : gmap ptr SpanReplication)
    (db : ReplicationDB) (p : ptr) : ReplicationDB :=
  let s := deref h p in
  let db1 :=
    {| changefeedID := changefeedID db;
       allTasks := <[span_ID s := p]> (allTasks db);
       schemaTasks := schemaTasks db;
       tableTasks := tableTasks db;
       tracker := tracker db;
       ddlSpan := ddlSpan db |} in
  let db2 := addToSchemaAndTableMap h p db1 in
  {| changefeedID := changefeedID db2;
     allTasks := allTasks db2;
     schemaTasks := schemaTasks db2;
     tableTasks := tableTasks db2;
     tracker := AddReplicatingWithoutLock (span_ID s) p (tracker db2);
     ddlSpan := ddlSpan db2 |}.

(** [ForceRemove]: an unknown id is only logged. *)
Definition ForceRemove (h : gmap ptr SpanReplication) (db : ReplicationDB)
    (id : DispatcherID) : ReplicationDB :=
  match allTasks db !! id with
  | None => db
  | Some span => removeSpanUnLock h db span
  end.

(** [TryRemoveAll]: replicating, then scheduling tasks are returned. *)
Definition TryRemoveAll (h : gmap ptr SpanReplication) (db : ReplicationDB)
  : list ptr * ReplicationDB :=
  let tasks := [] ++ GetReplicatingWithoutLock (tracker db) in
  let tasks := tasks ++ GetSchedulingWithoutLock (tracker db) in
  (tasks, putDDLDispatcher h (ddlSpan db) (reset db)).

(** The body of the loops of [TryRemoveByTableIDs] and [TryRemoveBySchemaID]:
    remove the task, keep it when it is scheduled.

    The loops range over an inner map while [removeSpanUnLock] deletes from
    it.  Go's [range] yields every entry that has not been deleted before it
    is reached; an iteration deletes the entry it is at (a task is stored under
    its own id), so the loop visits the entries the map has when it starts. *)
Definition tryRemoveStep (h : gmap ptr SpanReplication)
    (acc : list ptr * ReplicationDB) (task : ptr) : list ptr * ReplicationDB :=
  let db := removeSpanUnLock h acc.2 task in
  if decide (GetNodeID (deref h task) ≠ "")
  then (acc.1 ++ [task], db)
  else (acc.1, db).

Definition TryRemoveByTableIDs (h : gmap ptr SpanReplication)
    (db : ReplicationDB) (tableIDs : list Z) : list ptr * ReplicationDB :=
  foldl (λ acc tblID,
           foldl (tryRemoveStep h) acc (range_values (inner (tableTasks acc.2) tblID)))
        ([], db) tableIDs.

Definition TryRemoveBySchemaID (h : gmap ptr SpanReplication)
    (db : ReplicationDB) (sid : Z) : list ptr * ReplicationDB :=
  foldl (tryRemoveStep h) ([], db) (range_values (inner (schemaTasks db) sid)).

Definition GetTasksByTableIDs (db : ReplicationDB) (tableIDs : list Z) : list ptr :=
  foldl (λ tasks tableID, tasks ++ range_values (inner (tableTasks db) tableID))
        [] tableIDs.

Definition GetAllTasks (db : ReplicationDB) : list ptr :=
  range_values (allTasks db).

Definition IsTableExists (db : ReplicationDB) (tableID : Z) : bool :=
  match tableTasks db !! tableID with
  | Some tm => bool_decide (0 < size tm)%nat
  | None => false
  end.

Definition GetTaskSizeBySchemaID (db : ReplicationDB) (sid : Z) : Z :=
  match schemaTasks db !! sid with
  | Some sm => Z.of_nat (size sm)
  | None => 0
  end.

Definition GetTasksBySchemaID (db : ReplicationDB) (sid : Z) : list ptr :=
  match schemaTasks db !! sid with
  | Some sm => range_values sm
  | None => []
  end.

Definition GetDDLDispatcher (db : ReplicationDB) : ptr := ddlSpan db.

(** One iteration of the loop of [UpdateSchemaID]: the span object is
    updated in place, taken out of the map of its old schema (which is dropped
    when it becomes empty) and put into the map of the new one. *)
Definition updateSchemaIDStep (newSchemaID : Z)
    (acc : gmap ptr SpanReplication * ReplicationDB) (replicaSet : ptr)
  : gmap ptr SpanReplication * ReplicationDB :=
  let db := acc.2 in
  let oldSchemaID := GetSchemaID (deref acc.1 replicaSet) in
  let h := <[replicaSet := SetSchemaID newSchemaID (deref acc.1 replicaSet)]> acc.1 in
  let id := span_ID (deref h replicaSet) in
  let st :=
    match schemaTasks db !! oldSchemaID with
    | Some schemaMap =>
        let schemaMap := delete id schemaMap in
        let st := <[oldSchemaID := schemaMap]> (schemaTasks db) in
        if decide (size schemaMap = 0%nat) then delete oldSchemaID st else st
    | None => schemaTasks db
    end in
  let st := put_inner newSchemaID id replicaSet st in
  (h, {| changefeedID := changefeedID db;
         allTasks := allTasks db;
         schemaTasks := st;
         tableTasks := tableTasks db;
         tracker := tracker db;
         ddlSpan := ddlSpan db |}).

Definition UpdateSchemaID (h : gmap ptr SpanReplication) (db : ReplicationDB)
    (tableID newSchemaID : Z) : gmap ptr SpanReplication * ReplicationDB :=
  foldl (updateSchemaIDStep newSchemaID) (h, db)
        (range_values (inner (tableTasks db) tableID)).

(** [ReplicationDB.UpdateStatus]: the span object takes the reported status,
    then the checker of its group is told of the span, under the write lock
    of the DB. *)
Definition UpdateStatus (h : gmap ptr SpanReplication) (db : ReplicationDB)
    (span : ptr) (st : TableSpanStatus)
  : gmap ptr SpanReplication * ReplicationDB :=
  let h := <[span := span_UpdateStatus st (deref h span)]> h in
  (h, {| changefeedID := changefeedID db;
         allTasks := allTasks db;
         schemaTasks := schemaTasks db;
         tableTasks := tableTasks db;
         tracker := GroupChecker_UpdateStatus span (tracker db);
         ddlSpan := ddlSpan db |}).

(** The first loop of [ReplaceReplicaSet]: each old replication must be
    known at the moment it is reached; it lowers the checkpoint ts and is
    removed. *)
Fixpoint replaceOlds (h : gmap ptr SpanReplication) (db : ReplicationDB)
    (oldReplications : list ptr) (checkpointTs : Z) : Result (ReplicationDB * Z) :=
  match oldReplications with
  | [] => Ok (db, checkpointTs)
  | old :: rest =>
      match allTasks db !! span_ID (deref h old) with
      | None => Panic "old replica set not found"
      | Some _ =>
          let oldCheckpointTs := GetCheckpointTs (GetStatus (deref h old)) in
          let checkpointTs :=
            if decide (checkpointTs > oldCheckpointTs) then oldCheckpointTs
            else checkpointTs in
          replaceOlds h (removeSpanUnLock h db old) rest checkpointTs
      end
  end.

(** The second loop: one new span object per new table span.  The dispatcher
    ids that [common.NewDispatcherID] draws are given by [ids]: the [n]-th call
    returns [ids n]. *)
Fixpoint newReplicas (h : gmap ptr SpanReplication) (old : ptr)
    (newSpans : list TableSpan) (checkpointTs : Z) (ids : nat → DispatcherID)
    (n : nat) : list ptr * gmap ptr SpanReplication :=
  match newSpans with
  | [] => ([], h)
  | span :: rest =>
      let new := NewReplicaSet (span_ChangefeedID (deref h old)) (ids n)
                   (GetTsoClient (deref h old)) (GetSchemaID (deref h old))
                   span checkpointTs in
      let ph := alloc h new in
      let r := newReplicas ph.2 old rest checkpointTs ids (S n) in
      (ph.1 :: r.1, r.2)
  end.

(** [ReplaceReplicaSet].  [oldReplications[0]] panics on an empty slice. *)
Definition ReplaceReplicaSet (h : gmap ptr SpanReplication) (db : ReplicationDB)
    (oldReplications : list ptr) (newSpans : list TableSpan) (checkpointTs : Z)
    (ids : nat → DispatcherID)
  : Result (gmap ptr SpanReplication * ReplicationDB) :=
  match replaceOlds h db oldReplications checkpointTs with
  | Panic msg => Panic msg
  | Ok (db, checkpointTs) =>
      match oldReplications with
      | [] => Panic "index out of range [0] with length 0"
      | old :: _ =>
          let news := newReplicas h old newSpans checkpointTs ids 0 in
          Ok (news.2, addAbsentReplicaSetUnLock news.2 db news.1)
      end
  end.

(** ** The representation invariant of the DB *)

(** [idx[k][id]], [None] when either level misses. *)
Definition index_lookup (idx : gmap Z (gmap DispatcherID ptr)) (k : Z)
    (id : DispatcherID) : option ptr :=
  idx !! k ≫= (.!! id).

(** The invariants of section 3 of the specification: every task is an
    allocated span stored under its own id and indexed under its own schema
    and table id; the indices hold nothing else and no empty inner map; the
    partitions are disjoint sets of tasks, none of them the DDL span. *)
Definition db_wf (h : gmap ptr SpanReplication) (db : ReplicationDB) : Prop :=
  map_Forall (λ id p, span_ID <$> h !! p = Some id) (allTasks db) ∧
  map_Forall (λ id p,
      index_lookup (schemaTasks db) (schemaID (deref h p)) id = Some p ∧
      index_lookup (tableTasks db) (TableID (Span (deref h p))) id = Some p)
    (allTasks db) ∧
  map_Forall (λ k m, m ≠ ∅ ∧
      map_Forall (λ id p, allTasks db !! id = Some p ∧ schemaID (deref h p) = k) m)
    (schemaTasks db) ∧
  map_Forall (λ k m, m ≠ ∅ ∧
      map_Forall (λ id p, allTasks db !! id = Some p ∧ TableID (Span (deref h p)) = k) m)
    (tableTasks db) ∧
  map_Forall (λ id p, allTasks db !! id = Some p ∧ p ≠ ddlSpan db ∧
      scheduling (tracker db) !! id = None ∧ replicating (tracker db) !! id = None)
    (absent (tracker db)) ∧
  map_Forall (λ id p, allTasks db !! id = Some p ∧ p ≠ ddlSpan db ∧
      replicating (tracker db) !! id = None)
    (scheduling (tracker db)) ∧
  map_Forall (λ id p, allTasks db !! id = Some p ∧ p ≠ ddlSpan db)
    (replicating (tracker db)) ∧
  is_Some (h !! ddlSpan db).

#[global] Instance db_wf_dec h db : Decision (db_wf h db).
Proof. unfold db_wf. apply _. Defined.

Definition no_empty (idx : gmap Z (gmap DispatcherID ptr)) : Prop :=
  map_Forall (λ _ m, m ≠ ∅) idx.

(** The same invariant, in the form the proofs use. *)
Record db_inv (h : gmap ptr SpanReplication) (db : ReplicationDB) : Prop := {
  inv_alloc : ∀ id p, allTasks db !! id = Some p →
    ∃ s, h !! p = Some s ∧ span_ID s = id;
  inv_schema : ∀ k id p, index_lookup (schemaTasks db) k id = Some p ↔
    allTasks db !! id = Some p ∧ schemaID (deref h p) = k;
  inv_table : ∀ k id p, index_lookup (tableTasks db) k id = Some p ↔
    allTasks db !! id = Some p ∧ TableID (Span (deref h p)) = k;
  inv_schema_ne : no_empty (schemaTasks db);
  inv_table_ne : no_empty (tableTasks db);
  inv_absent : ∀ id p, absent (tracker db) !! id = Some p →
    allTasks db !! id = Some p ∧ p ≠ ddlSpan db ∧
    scheduling (tracker db) !! id = None ∧ replicating (tracker db) !! id = None;
  inv_scheduling : ∀ id p, scheduling (tracker db) !! id = Some p →
    allTasks db !! id = Some p ∧ p ≠ ddlSpan db ∧
    replicating (tracker db) !! id = None;
  inv_replicating : ∀ id p, replicating (tracker db) !! id = Some p →
    allTasks db !! id = Some p ∧ p ≠ ddlSpan db;
  inv_ddl : is_Some (h !! ddlSpan db)
}.

(** An id the DB does not know: it is in none of its maps. *)
Definition unknown_id (db : ReplicationDB) (id : DispatcherID) : Prop :=
  allTasks db !! id = None ∧
  (∀ k, index_lookup (schemaTasks db) k id = None) ∧
  (∀ k, index_lookup (tableTasks db) k id = None) ∧
  absent (tracker db) !! id = None ∧
  scheduling (tracker db) !! id = None ∧
  replicating (tracker db) !! id = None.

(** ** Range checkers *)

(** Keys are compared as byte strings. *)
Fixpoint key_compare (a b : Key) : comparison :=
  match a, b with
  | [], [] => Eq
  | [], _ :: _ => Lt
  | _ :: _, [] => Gt
  | x :: a', y :: b' =>
      match N.compare (Byte.to_N x) (Byte.to_N y) with
      | Eq => key_compare a' b'
      | c => c
      end
  end.

Definition key_ltb (a b : Key) : bool :=
  match key_compare a b with Lt => true | _ => false end.
Definition key_min (a b : Key) : Key := if key_ltb b a then b else a.
Definition key_max (a b : Key) : Key := if key_ltb a b then b else a.

(** Modelled from the spec: package [range_checker] is not in the sources at
    hand.  An interval set is a sorted list of intervals that neither overlap
    nor touch; adding a sub-range merges it with the intervals it meets. *)
Fixpoint add_interval (s e : Key) (l : list (Key * Key)) : list (Key * Key) :=
  match l with
  | [] => [(s, e)]
  | (s', e') :: rest =>
      if key_ltb e s' then (s, e) :: l
      else if key_ltb e' s then (s', e') :: add_interval s e rest
      else add_interval (key_min s s') (key_max e e') rest
  end.

(** Modelled from the spec: the count checker expects [needCount] distinct
    table ids and is covered once that many were reported. *)
Record TableCountChecker : Type := {
  needCount : Z;
  reportedMap : gset Z
}.

(** Modelled from the spec: the span checker keeps, for each expected table
    id, the interval set of the sub-ranges reported for it. *)
Record TableSpanRangeChecker : Type := {
  tableSpans : gmap Z (list (Key * Key))
}.

(** The two implementations of the [RangeChecker] interface. *)
Inductive RangeChecker : Type :=
  | CountChecker (c : TableCountChecker)
  | SpanChecker (c : TableSpanRangeChecker).

Definition NewTableCountChecker (tables : Z) : RangeChecker :=
  CountChecker {| needCount := tables; reportedMap := ∅ |}.

Definition NewTableSpanRangeChecker (tables : list Z) : RangeChecker :=
  SpanChecker {| tableSpans := gset_to_gmap [] (list_to_set tables) |}.

Definition AddSubRange (tableID : Z) (startKey endKey : Key)
    (rc : RangeChecker) : RangeChecker :=
  match rc with
  | CountChecker c =>
      CountChecker {| needCount := needCount c;
                      reportedMap := {[tableID]} ∪ reportedMap c |}
  | SpanChecker c =>
      SpanChecker {| tableSpans :=
                       alter (add_interval startKey endKey) tableID (tableSpans c) |}
  end.

(** [tableRange t] is the whole key range [min, max) of table [t], computed
    outside this repository. *)
Definition IsFullyCovered (tableRange : Z → Key * Key) (rc : RangeChecker) : bool :=
  match rc with
  | CountChecker c => bool_decide (needCount c ≤ Z.of_nat (size (reportedMap c)))
  | SpanChecker c =>
      bool_decide (map_Forall (λ t l, l = [tableRange t]) (tableSpans c))
  end.

Definition Reset (rc : RangeChecker) : RangeChecker :=
  match rc with
  | CountChecker c => CountChecker {| needCount := needCount c; reportedMap := ∅ |}
  | SpanChecker c => SpanChecker {| tableSpans := (λ _, []) <$> tableSpans c |}
  end.

(** ** Messages of the message center *)

Record TargetMessage : Type := {
  To : NodeID;
  Topic : string;
  Message : list HeartBeatResponse
}.

Definition HeartbeatCollectorTopic : string := "HeartBeatCollector".

Definition NewSingleTargetMessage (To : NodeID) (Topic : string)
    (m : HeartBeatResponse) : TargetMessage :=
  {| To := To; Topic := Topic; Message := [m] |}.

(** Modelled from the spec: [replica.NewRemoveDispatcherMessage] is not in
    the sources at hand; the command tells a node to drop a dispatcher of a
    changefeed. *)
Record RemoveDispatcherMessage : Type := {
  remove_To : NodeID;
  remove_ChangefeedID : ChangeFeedID;
  remove_DispatcherID : DispatcherID
}.

Definition NewRemoveDispatcherMessage (to : NodeID) (cf : ChangeFeedID)
    (id : DispatcherID) : RemoveDispatcherMessage :=
  {| remove_To := to; remove_ChangefeedID := cf; remove_DispatcherID := id |}.

(** ** The operator controller, as far as heartbeats see it *)

(** Modelled from the spec: package [maintainer/operator] is not in the
    sources at hand.  There is at most one operator per span id;
    [UpdateOperatorStatus] forwards a heartbeat observation to the operator of
    that span, if there is one.  An operator is represented by the
    observations forwarded to it. *)
Record Operator : Type := {
  observed : list (NodeID * TableSpanStatus)
}.

Record OperatorController : Type := {
  operators : gmap DispatcherID Operator
}.

Definition UpdateOperatorStatus (id : DispatcherID) (from : NodeID)
    (st : TableSpanStatus) (oc : OperatorController) : OperatorController :=
  {| operators :=
       alter (λ op, {| observed := observed op ++ [(from, st)] |}) id (operators oc) |}.

Definition GetOperator (oc : OperatorController) (id : DispatcherID)
  : option Operator :=
  operators oc !! id.

(** ** The maintainer controller *)

(** The fields of [Controller] that the modelled methods read.  The span
    objects live in the heap, which is passed alongside. *)
Record Controller : Type := {
  replicationDB : ReplicationDB;
  operatorController : OperatorController;
  aliveNodes : list NodeID;
  ddlDispatcherID : DispatcherID;
  controller_changefeedID : ChangeFeedID
}.

Definition GetTask (c : Controller) (id : DispatcherID) : option ptr :=
  GetTaskByID (replicationDB c) id.

(** The keys of [nodeManager.GetAliveNodes()]. *)
Definition GetAllNodes (c : Controller) : list NodeID := aliveNodes c.

(** One iteration of the loop of [HandleStatus]; [out] collects the commands
    handed to the message center. *)
Definition handleStatusStep (from : NodeID)
    (acc : gmap ptr SpanReplication * Controller * list RemoveDispatcherMessage)
    (st : TableSpanStatus)
  : gmap ptr SpanReplication * Controller * list RemoveDispatcherMessage :=
  let '(h, c, out) := acc in
  let dispatcherID := ID st in
  let c :=
    {| replicationDB := replicationDB c;
       operatorController :=
         UpdateOperatorStatus dispatcherID from st (operatorController c);
       aliveNodes := aliveNodes c;
       ddlDispatcherID := ddlDispatcherID c;
       controller_changefeedID := controller_changefeedID c |} in
  match GetTask c dispatcherID with
  | None =>
      if decide (ComponentStatus st ≠ ComponentState_Working) then (h, c, out)
      else
        match GetOperator (operatorController c) dispatcherID with
        | None =>
            (h, c, out ++ [NewRemoveDispatcherMessage from
                             (controller_changefeedID c) (ID st)])
        | Some _ => (h, c, out)
        end
  | Some stm =>
      let nodeID := GetNodeID (deref h stm) in
      if decide (nodeID ≠ from) then (h, c, out)
      else
        let r := UpdateStatus h (replicationDB c) stm st in
        (r.1,
         {| replicationDB := r.2;
            operatorController := operatorController c;
            aliveNodes := aliveNodes c;
            ddlDispatcherID := ddlDispatcherID c;
            controller_changefeedID := controller_changefeedID c |},
         out)
  end.

Definition HandleStatus (from : NodeID) (statusList : list TableSpanStatus)
    (h : gmap ptr SpanReplication) (c : Controller)
  : gmap ptr SpanReplication * Controller * list RemoveDispatcherMessage :=
  foldl (handleStatusStep from) (h, c, []) statusList.

(** ** Time *)

(** A [time.Time] is a number of nanoseconds on one time line whose origin is
    the zero [time.Time{}]; a [time.Duration] is a signed 64-bit number of
    nanoseconds, and [Sub] saturates instead of wrapping. *)
Abbreviation Time := Z (only parsing).
Definition zeroTime : Time := 0.
Definition Second : Z := 1000000000.
Definition minDuration : Z := - 2 ^ 63.
Definition maxDuration : Z := 2 ^ 63 - 1.
Definition time_Sub (t u : Time) : Z :=
  Z.max minDuration (Z.min maxDuration (t - u)).

(** ** Barrier events *)

(** The [controller] field is a pointer to the shared controller; the
    methods below take the controller (and the heap) as an argument. *)
Record BarrierEvent : Type := {
  cfID : ChangeFeedID;
  commitTs : Z;
  selected : bool;
  hasNewTable : bool;
  tableTriggerDispatcherRelated : bool;
  writerDispatcher : DispatcherID;
  writerDispatcherAdvanced : bool;
  blockedDispatchers : option InfluencedTables;
  dropDispatchers : option InfluencedTables;
  newTables : list Table;
  schemaIDChange : list SchemaIDChange;
  isSyncPoint : bool;
  dynamicSplitEnabled : bool;
  rangeChecker : option RangeChecker;
  lastResendTime : Time;
  lastWarningLogTime : Time
}.

Definition set_lastResendTime (t : Time) (be : BarrierEvent) : BarrierEvent :=
  {| cfID := cfID be; commitTs := commitTs be; selected := selected be;
     hasNewTable := hasNewTable be;
     tableTriggerDispatcherRelated := tableTriggerDispatcherRelated be;
     writerDispatcher := writerDispatcher be;
     writerDispatcherAdvanced := writerDispatcherAdvanced be;
     blockedDispatchers := blockedDispatchers be;
     dropDispatchers := dropDispatchers be; newTables := newTables be;
     schemaIDChange := schemaIDChange be; isSyncPoint := isSyncPoint be;
     dynamicSplitEnabled := dynamicSplitEnabled be;
     rangeChecker := rangeChecker be; lastResendTime := t;
     lastWarningLogTime := lastWarningLogTime be |}.

Definition set_lastWarningLogTime (t : Time) (be : BarrierEvent) : BarrierEvent :=
  {| cfID := cfID be; commitTs := commitTs be; selected := selected be;
     hasNewTable := hasNewTable be;
     tableTriggerDispatcherRelated := tableTriggerDispatcherRelated be;
     writerDispatcher := writerDispatcher be;
     writerDispatcherAdvanced := writerDispatcherAdvanced be;
     blockedDispatchers := blockedDispatchers be;
     dropDispatchers := dropDispatchers be; newTables := newTables be;
     schemaIDChange := schemaIDChange be; isSyncPoint := isSyncPoint be;
     dynamicSplitEnabled := dynamicSplitEnabled be;
     rangeChecker := rangeChecker be; lastResendTime := lastResendTime be;
     lastWarningLogTime := t |}.

Definition set_rangeChecker (rc : option RangeChecker) (be : BarrierEvent)
  : BarrierEvent :=
  {| cfID := cfID be; commitTs := commitTs be; selected := selected be;
     hasNewTable := hasNewTable be;
     tableTriggerDispatcherRelated := tableTriggerDispatcherRelated be;
     writerDispatcher := writerDispatcher be;
     writerDispatcherAdvanced := writerDispatcherAdvanced be;
     blockedDispatchers := blockedDispatchers be;
     dropDispatchers := dropDispatchers be; newTables := newTables be;
     schemaIDChange := schemaIDChange be; isSyncPoint := isSyncPoint be;
     dynamicSplitEnabled := dynamicSplitEnabled be;
     rangeChecker := rc; lastResendTime := lastResendTime be;
     lastWarningLogTime := lastWarningLogTime be |}.

(** [be.selected = true; be.writerDispatcher = dispatcher]. *)
Definition set_writer (dispatcher : DispatcherID) (be : BarrierEvent)
  : BarrierEvent :=
  {| cfID := cfID be; commitTs := commitTs be; selected := true;
     hasNewTable := hasNewTable be;
     tableTriggerDispatcherRelated := tableTriggerDispatcherRelated be;
     writerDispatcher := dispatcher;
     writerDispatcherAdvanced := writerDispatcherAdvanced be;
     blockedDispatchers := blockedDispatchers be;
     dropDispatchers := dropDispatchers be; newTables := newTables be;
     schemaIDChange := schemaIDChange be; isSyncPoint := isSyncPoint be;
     dynamicSplitEnabled := dynamicSplitEnabled be;
     rangeChecker := rangeChecker be; lastResendTime := lastResendTime be;
     lastWarningLogTime := lastWarningLogTime be |}.

(** [NewBlockEvent]; [now] is the reading of [time.Now()]. *)
Definition NewBlockEvent (h : gmap ptr SpanReplication) (cfID : ChangeFeedID)
    (controller : Controller) (status : State) (dynamicSplitEnabled : bool)
    (now : Time) : BarrierEvent :=
  let db := replicationDB controller in
  let checker :=
    match BlockTables status with
    | None => None
    | Some bt =>
        Some
          match InfluenceType_of bt with
          | InfluenceType_Normal =>
              if dynamicSplitEnabled
              then NewTableSpanRangeChecker (TableIDs bt)
              else NewTableCountChecker (Z.of_nat (length (TableIDs bt)))
          | InfluenceType_DB =>
              if dynamicSplitEnabled
              then
                let reps := GetTasksBySchemaID db (SchemaID bt) in
                let tbls := (λ rep, TableID (Span (deref h rep))) <$> reps in
                let tbls := tbls ++ [DDLSpan_TableID] in
                NewTableSpanRangeChecker tbls
              else NewTableCountChecker (GetTaskSizeBySchemaID db (SchemaID bt) + 1)
          | InfluenceType_All =>
              if dynamicSplitEnabled
              then
                let reps := GetAllTasks db in
                let tbls := (λ rep, TableID (Span (deref h rep))) <$> reps in
                let tbls := tbls ++ [DDLSpan_TableID] in
                NewTableSpanRangeChecker tbls
              else NewTableCountChecker (TaskSize db)
          end
    end in
  {| cfID := cfID;
     commitTs := BlockTs status;
     selected := false;
     hasNewTable := bool_decide (0 < length (NeedAddedTables status))%nat;
     tableTriggerDispatcherRelated := false;
     writerDispatcher := 0%N;
     writerDispatcherAdvanced := false;
     blockedDispatchers := BlockTables status;
     dropDispatchers := NeedDroppedTables status;
     newTables := NeedAddedTables status;
     schemaIDChange := UpdatedSchemas status;
     isSyncPoint := IsSyncPoint status;
     dynamicSplitEnabled := dynamicSplitEnabled;
     rangeChecker := checker;
     lastResendTime := zeroTime;
     lastWarningLogTime := now |}.

Definition action (be : BarrierEvent) (a : Action) : DispatcherAction :=
  {| Action_of := a; CommitTs := commitTs be; Action_IsSyncPoint := isSyncPoint be |}.

(** [onAllDispatcherReportedBlockEvent]: the nil dereferences and the index
    into an empty batch are the panics of the Go runtime. *)
Definition onAllDispatcherReportedBlockEvent (c : Controller) (be : BarrierEvent)
    (dispatchers : list DispatcherID) : Result (BarrierEvent * DispatcherStatus) :=
  match blockedDispatchers be with
  | None => Panic "nil pointer dereference"
  | Some bd =>
      let dispatcher :=
        match InfluenceType_of bd with
        | InfluenceType_DB | InfluenceType_All => Ok (ddlDispatcherID c)
        | InfluenceType_Normal =>
            match last dispatchers with
            | None => Panic "index out of range [-1]"
            | Some selected =>
                Ok (if tableTriggerDispatcherRelated be
                    then ddlDispatcherID c else selected)
            end
        end in
      match dispatcher with
      | Panic msg => Panic msg
      | Ok dispatcher =>
          match rangeChecker be with
          | None => Panic "nil pointer dereference"
          | Some rc =>
              let be := set_rangeChecker (Some (Reset rc)) be in
              let be := set_writer dispatcher be in
              Ok (be,
                  {| InfluencedDispatchers_of :=
                       {| Dispatchers_InfluenceType := InfluenceType_Normal;
                          DispatcherIDs := [writerDispatcher be];
                          Dispatchers_SchemaID := 0;
                          ExcludeDispatcherId := None |};
                     Action_field := action be Action_Write |})
          end
      end
  end.

Definition markDispatcherEventDone (h : gmap ptr SpanReplication) (c : Controller)
    (be : BarrierEvent) (dispatcherID : DispatcherID) : Result BarrierEvent :=
  match GetTask c dispatcherID with
  | None => Ok be
  | Some replicaSpan =>
      match rangeChecker be with
      | None => Panic "nil pointer dereference"
      | Some rc =>
          let span := Span (deref h replicaSpan) in
          Ok (set_rangeChecker
                (Some (AddSubRange (TableID span) (StartKey span) (EndKey span) rc)) be)
      end
  end.

Definition allDispatcherReported (tableRange : Z → Key * Key) (be : BarrierEvent)
  : Result bool :=
  match rangeChecker be with
  | None => Panic "nil pointer dereference"
  | Some rc => Ok (IsFullyCovered tableRange rc)
  end.

Definition newWriterActionMessage (be : BarrierEvent) (capture : NodeID)
  : TargetMessage :=
  NewSingleTargetMessage capture HeartbeatCollectorTopic
    {| ChangefeedID := cfID be;
       DispatcherStatuses :=
         [ {| Action_field := action be Action_Write;
              InfluencedDispatchers_of :=
                {| Dispatchers_InfluenceType := InfluenceType_Normal;
                   DispatcherIDs := [writerDispatcher be];
                   Dispatchers_SchemaID := 0;
                   ExcludeDispatcherId := None |} |} ] |}.

Definition newPassActionMessage (be : BarrierEvent) (bd : InfluencedTables)
    (capture : NodeID) : TargetMessage :=
  NewSingleTargetMessage capture HeartbeatCollectorTopic
    {| ChangefeedID := cfID be;
       DispatcherStatuses :=
         [ {| Action_field := action be Action_Pass;
              InfluencedDispatchers_of :=
                {| Dispatchers_InfluenceType := InfluenceType_of bd;
                   DispatcherIDs := [];
                   Dispatchers_SchemaID := SchemaID bd;
                   ExcludeDispatcherId := Some (writerDispatcher be) |} |} ] |}.

(** [msg.Message[0].DispatcherStatuses[0].InfluencedDispatchers.DispatcherIDs =
    append(..., id)]: the message is updated in place. *)
Definition appendDispatcherID (id : DispatcherID) (msg : TargetMessage)
  : TargetMessage :=
  match Message msg with
  | {| ChangefeedID := cf; DispatcherStatuses := ds :: dss |} :: rest =>
      let infl := InfluencedDispatchers_of ds in
      let infl :=
        {| Dispatchers_InfluenceType := Dispatchers_InfluenceType infl;
           DispatcherIDs := DispatcherIDs infl ++ [id];
           Dispatchers_SchemaID := Dispatchers_SchemaID infl;
           ExcludeDispatcherId := ExcludeDispatcherId infl |} in
      {| To := To msg; Topic := Topic msg;
         Message :=
           {| ChangefeedID := cf;
              DispatcherStatuses :=
                {| InfluencedDispatchers_of := infl;
                   Action_field := Action_field ds |} :: dss |} :: rest |}
  | _ => msg
  end.

Definition sendPassAction (h : gmap ptr SpanReplication) (c : Controller)
    (be : BarrierEvent) : list TargetMessage :=
  match blockedDispatchers be with
  | None => []
  | Some bd =>
      let db := replicationDB c in
      let msgMap : gmap NodeID TargetMessage :=
        match InfluenceType_of bd with
        | InfluenceType_DB =>
            foldl (λ (msgMap : gmap NodeID TargetMessage) stm,
                     let nodeID := GetNodeID (deref h stm) in
                     if decide (nodeID = "") then msgMap
                     else match msgMap !! nodeID with
                          | Some _ => msgMap
                          | None => <[nodeID := newPassActionMessage be bd nodeID]> msgMap
                          end)
                  ∅ (GetTasksBySchemaID db (SchemaID bd))
        | InfluenceType_All =>
            foldl (λ (msgMap : gmap NodeID TargetMessage) n,
                     <[n := newPassActionMessage be bd n]> msgMap)
                  ∅ (GetAllNodes c)
        | InfluenceType_Normal =>
            foldl (λ (msgMap : gmap NodeID TargetMessage) stm,
                     let nodeID := GetNodeID (deref h stm) in
                     let dispatcherID := span_ID (deref h stm) in
                     if decide (dispatcherID = writerDispatcher be) then msgMap
                     else
                       let msg := match msgMap !! nodeID with
                                  | Some msg => msg
                                  | None => newPassActionMessage be bd nodeID
                                  end in
                       <[nodeID := appendDispatcherID dispatcherID msg]> msgMap)
                  ∅ (GetTasksByTableIDs db (TableIDs bd))
        end in
      range_values msgMap
  end.

(** The deferred function of [resend]: at most one warning per ten
    seconds.  The clock is an oracle: its [n]-th reading is [clk n].  The
    warning prints [be.rangeChecker.Detail()]: on an event without a range
    checker that call dereferences nil and panics, after [time.Since] has read
    the clock and before the time stamp is written.  The state, the event as
    it is left and the number of clock readings, is given in either case. *)
Definition resendWarning (clk : nat → Time) (s : BarrierEvent * nat)
  : Result unit * (BarrierEvent * nat) :=
  let '(be, n) := s in
  if decide (time_Sub (clk n) (lastWarningLogTime be) > Second * 10)
  then
    match rangeChecker be with
    | None => (Panic "nil pointer dereference", (be, S n))
    | Some _ => (Ok (), (set_lastWarningLogTime (clk (S n)) be, S (S n)))
    end
  else (Ok (), (be, S n)).

(** What [resend] returns when its deferred function has run: the messages,
    unless the deferred function panicked. *)
Definition deferred (msgs : list TargetMessage)
    (w : Result unit * (BarrierEvent * nat))
  : Result (list TargetMessage) * (BarrierEvent * nat) :=
  (match w.1 with Ok _ => Ok msgs | Panic msg => Panic msg end, w.2).

(** [resend].  The state pairs the event with the number of clock readings
    taken so far; the deferred function is registered after the rate check,
    so a rate-limited call does not run it. *)
Definition resend (clk : nat → Time) (h : gmap ptr SpanReplication)
    (c : Controller) (s : BarrierEvent * nat)
  : Result (list TargetMessage) * (BarrierEvent * nat) :=
  let '(be, n) := s in
  if decide (time_Sub (clk n) (lastResendTime be) < Second) then (Ok [], (be, S n))
  else
    let n := S n in
    if negb (selected be) then deferred [] (resendWarning clk (be, n))
    else
      let be := set_lastResendTime (clk n) be in
      let n := S n in
      let msgs :=
        if negb (writerDispatcherAdvanced be) then
          match GetTask c (writerDispatcher be) with
          | None => []
          | Some stm =>
              if decide (GetNodeID (deref h stm) = "") then []
              else [newWriterActionMessage be (GetNodeID (deref h stm))]
          end
        else sendPassAction h c be in
      deferred msgs (resendWarning clk (be, n)).

(** The messages a call hands to its caller: none when it panics. *)
Definition sent (r : Result (list TargetMessage)) : list TargetMessage :=
  match r with
  | Ok msgs => msgs
  | Panic _ => []
  end.

(** When the warning of a tick panics: it is due at the clock reading it
    takes and the event has no range checker. *)
Definition warning_panics (clk : nat → Time) (be : BarrierEvent) (k : nat) : Prop :=
  time_Sub (clk k) (lastWarningLogTime be) > Second * 10 ∧ rangeChecker be = None.

(** *** Runs of the resend tick *)

(** Between two ticks the rest of the barrier engine may rewrite the event
    (it selects the writer, marks it advanced, feeds the range checker) and
    read the clock; only [resend] writes [lastResendTime]. *)
Inductive Step : Type :=
  | StepResend (h : gmap ptr SpanReplication) (c : Controller)
  | StepEngine (be' : BarrierEvent) (reads : nat).

(** What a tick shows: the flags and the clock when [resend] is entered, and
    the messages it returns; a tick that panics returns none.  Whether the
    caller recovers from such a panic is outside these sources: the run goes
    on with the event as the tick left it, and the run of a program that dies
    there is the prefix up to that tick. *)
Record Observation : Type := {
  obs_selected : bool;
  obs_advanced : bool;
  obs_time : Time;
  obs_msgs : list TargetMessage
}.

Fixpoint run (clk : nat → Time) (s : BarrierEvent * nat) (steps : list Step)
  : list Observation :=
  match steps with
  | [] => []
  | StepEngine be' reads :: rest =>
      run clk (set_lastResendTime (lastResendTime s.1) be', (s.2 + reads)%nat) rest
  | StepResend h c :: rest =>
      let r := resend clk h c s in
      {| obs_selected := selected s.1;
         obs_advanced := writerDispatcherAdvanced s.1;
         obs_time := clk s.2;
         obs_msgs := sent r.1 |} :: run clk r.2 rest
  end.

(** The actions a message carries. *)
Definition msg_actions (m : TargetMessage) : list Action :=
  r ← Message m; ds ← DispatcherStatuses r; [Action_of (Action_field ds)].


(** Two DBs that hold the same tasks in the same maps and partitions; they
    may differ in what their group checkers were told. *)
Definition same_tasks (db db' : ReplicationDB) : Prop :=
  changefeedID db' = changefeedID db ∧
  allTasks db' = allTasks db ∧
  schemaTasks db' = schemaTasks db ∧
  tableTasks db' = tableTasks db ∧
  absent (tracker db') = absent (tracker db) ∧
  scheduling (tracker db') = scheduling (tracker db) ∧
  replicating (tracker db') = replicating (tracker db) ∧
  ddlSpan db' = ddlSpan db.

(** What the loop of [HandleStatus] never changes: the tasks of the DB, the
    changefeed id, the alive nodes, which spans have an operator, and the
    node of each span. *)
Definition same_routing (h : gmap ptr SpanReplication) (c : Controller)
    (s : gmap ptr SpanReplication * Controller * list RemoveDispatcherMessage)
  : Prop :=
  same_tasks (replicationDB c) (replicationDB s.1.2) ∧
  controller_changefeedID s.1.2 = controller_changefeedID c ∧
  aliveNodes s.1.2 = aliveNodes c ∧
  ddlDispatcherID s.1.2 = ddlDispatcherID c ∧
  (∀ id, operators (operatorController s.1.2) !! id = None ↔
         operators (operatorController c) !! id = None) ∧
  (∀ p, nodeID (deref s.1.1 p) = nodeID (deref h p)).


(** ** A small changefeed, for the concrete instances below *)

Definition example_span (id : DispatcherID) (sid tid cp : Z) (n : NodeID)
  : SpanReplication :=
  {| span_ID := id; span_ChangefeedID := "cf"; tsoClient := 1%N; schemaID := sid;
     Span := {| TableID := tid; StartKey := []; EndKey := [] |};
     status := {| ID := id; ComponentStatus := ComponentState_Working;
                  CheckpointTs := cp |};
     nodeID := n |}.

(** The DDL span on node n1; table 42 (schema 7), not scheduled, checkpoint
    200; table 43 (schema 7) replicating on node n2; and an object for table
    44 that no DB holds yet. *)
Definition example_heap : gmap ptr SpanReplication :=
  <[1%positive := example_span 1 0 DDLSpan_TableID 100 "n1"]>
  (<[2%positive := example_span 2 7 42 200 ""]>
  (<[3%positive := example_span 3 7 43 300 "n2"]>
  (<[4%positive := example_span 4 8 44 100 ""]> ∅))).

Definition example_db : ReplicationDB :=
  AddReplicatingSpan example_heap
    (AddAbsentReplicaSet example_heap
       (NewReplicaSetDB example_heap "cf" 1%positive) [2%positive])
    3%positive.

Definition example_controller : Controller :=
  {| replicationDB := example_db;
     operatorController := {| operators := {[ 77%N := {| observed := [] |} ]} |};
     aliveNodes := ["n1"; "n2"];
     ddlDispatcherID := 1%N;
     controller_changefeedID := "cf" |}.

(** Dispatcher ids drawn for new spans: 10, 11, ... *)
Definition example_ids (i : nat) : DispatcherID := (10 + N.of_nat i)%N.

(** A clock that advances by one second per reading. *)
Definition example_clock (i : nat) : Time := Z.of_nat i * Second.

Definition example_tableRange (t : Z) : Key * Key := ([], []).

(** A block event on tables 42 and 43 (influence Normal), as a dispatcher
    reports it. *)
Definition example_state (it : InfluenceType) : State :=
  {| BlockTs := 555;
     BlockTables := Some {| InfluenceType_of := it; TableIDs := [42; 43];
                            SchemaID := 7 |};
     NeedDroppedTables := None; NeedAddedTables := []; UpdatedSchemas := [];
     IsSyncPoint := false |}.

(** The event after the dispatchers of tables 42 and 43 have reported. *)
Definition example_event : BarrierEvent :=
  let be := NewBlockEvent example_heap "cf" example_controller
              (example_state InfluenceType_Normal) false 0 in
  let be := match markDispatcherEventDone example_heap example_controller be 2%N with
            | Ok be => be | Panic _ => be end in
  match markDispatcherEventDone example_heap example_controller be 3%N with
  | Ok be => be | Panic _ => be end.

(** The example event once the writer is elected, and once the writer has
    advanced. *)
Definition example_selected : BarrierEvent :=
  match onAllDispatcherReportedBlockEvent example_controller example_event
          [2%N; 3%N] with
  | Ok (be, _) => be
  | Panic _ => example_event
  end.

Definition example_advanced : BarrierEvent :=
  {| cfID := cfID example_selected; commitTs := commitTs example_selected;
     selected := selected example_selected;
     hasNewTable := hasNewTable example_selected;
     tableTriggerDispatcherRelated := tableTriggerDispatcherRelated example_selected;
     writerDispatcher := writerDispatcher example_selected;
     writerDispatcherAdvanced := true;
     blockedDispatchers := blockedDispatchers example_selected;
     dropDispatchers := dropDispatchers example_selected;
     newTables := newTables example_selected;
     schemaIDChange := schemaIDChange example_selected;
     isSyncPoint := isSyncPoint example_selected;
     dynamicSplitEnabled := dynamicSplitEnabled example_selected;
     rangeChecker := rangeChecker example_selected;
     lastResendTime := lastResendTime example_selected;
     lastWarningLogTime := lastWarningLogTime example_selected |}.


(** A tick before the election, the election, two ticks, the writer's advance,
    two more ticks. *)
Definition example_steps : list Step :=
  [ StepResend example_heap example_controller;
    StepEngine example_selected 0;
    StepResend example_heap example_controller;
    StepResend example_heap example_controller;
    StepEngine example_advanced 0;
    StepResend example_heap example_controller;
    StepResend example_heap example_controller ].

(** ** Shapes of results, used to state what the code returns *)

(** The pass message for a node once the dispatcher ids [ids] have been
    appended to it: [newPassActionMessage] is the case of no id. *)
Definition passMessage (be : BarrierEvent) (bd : InfluencedTables)
    (capture : NodeID) (ids : list DispatcherID) : TargetMessage :=
  foldl (λ msg id, appendDispatcherID id msg)
        (newPassActionMessage be bd capture) ids.

(** The dispatcher ids a message lists, and the dispatcher it excludes. *)
Definition msg_dispatchers (m : TargetMessage) : list DispatcherID :=
  r ← Message m; ds ← DispatcherStatuses r;
  DispatcherIDs (InfluencedDispatchers_of ds).

Definition msg_excluded (m : TargetMessage) : list DispatcherID :=
  r ← Message m; ds ← DispatcherStatuses r;
  option_list (ExcludeDispatcherId (InfluencedDispatchers_of ds)).

(** The non-writer dispatchers among [tasks] that run on node [n], in the
    order of [tasks]. *)
Definition passed_on (h : gmap ptr SpanReplication) (be : BarrierEvent)
    (n : NodeID) (tasks : list ptr) : list DispatcherID :=
  (λ p, span_ID (deref h p)) <$>
    filter (λ p, span_ID (deref h p) ≠ writerDispatcher be ∧
                 GetNodeID (deref h p) = n) tasks.

(** ** Adding tables to the controller *)

(** What [AddNewTable] reads besides the fields of [Controller] above: the
    TSO client and the split switch of the controller, and two functions from
    outside this repository, the splitter's [SplitSpans] (given the span and
    the number of alive nodes) and [spanz.TableIDToComparableSpan]. *)
Record TableAdder : Type := {
  adder_tsoClient : TSOClient;
  enableTableAcrossNodes : bool;
  SplitSpans : TableSpan → nat → list TableSpan;
  TableIDToComparableSpan : Z → Key * Key
}.

(** One iteration of [addNewSpans]: a dispatcher id is drawn (the [n]-th of
    the stream [ids]), a span object is made and added as absent. *)
Definition addNewSpansStep (a : TableAdder) (cf : ChangeFeedID) (sid : Z)
    (startTs : Z) (ids : nat → DispatcherID)
    (acc : gmap ptr SpanReplication * ReplicationDB * nat) (span : TableSpan)
  : gmap ptr SpanReplication * ReplicationDB * nat :=
  let '(h, db, n) := acc in
  let dispatcherID := ids n in
  let replicaSet := NewReplicaSet cf dispatcherID (adder_tsoClient a) sid span startTs in
  let ph := alloc h replicaSet in
  (ph.2, AddAbsentReplicaSet ph.2 db [ph.1], S n).

Definition with_replicationDB (db : ReplicationDB) (c : Controller) : Controller :=
  {| replicationDB := db; operatorController := operatorController c;
     aliveNodes := aliveNodes c; ddlDispatcherID := ddlDispatcherID c;
     controller_changefeedID := controller_changefeedID c |}.

Definition addNewSpans (a : TableAdder) (ids : nat → DispatcherID)
    (s : gmap ptr SpanReplication * Controller * nat)
    (sid : Z) (tableSpans : list TableSpan) (startTs : Z)
  : gmap ptr SpanReplication * Controller * nat :=
  let '(h, c, n) := s in
  let r := foldl (addNewSpansStep a (controller_changefeedID c) sid startTs ids)
             (h, replicationDB c, n) tableSpans in
  (r.1.1, with_replicationDB r.1.2 c, r.2).

(** [AddNewTable]: a table the DB knows is ignored; otherwise its whole span,
    or the spans the splitter makes of it, are added.  The state is the heap,
    the controller and the number of dispatcher ids drawn so far.  Of the
    [commonEvent.Table] only the schema id and the table id are read; they
    are given as a [Table]. *)
Definition AddNewTable (a : TableAdder) (ids : nat → DispatcherID)
    (s : gmap ptr SpanReplication * Controller * nat)
    (table : Table) (startTs : Z)
  : gmap ptr SpanReplication * Controller * nat :=
  let '(h, c, n) := s in
  if IsTableExists (replicationDB c) (Table_TableID table) then s
  else
    let span := TableIDToComparableSpan a (Table_TableID table) in
    let tableSpan := {| TableID := Table_TableID table;
                        StartKey := span.1; EndKey := span.2 |} in
    let tableSpans :=
      if enableTableAcrossNodes a
      then SplitSpans a tableSpan (length (aliveNodes c))
      else [tableSpan] in
    addNewSpans a ids s (Table_SchemaID table) tableSpans startTs.

(** ** The prewrite matcher of the log puller *)

(** The fields of [cdcpb.Event_Row] that the matcher reads and writes.  Byte
    strings are given as [string]s, which is what [newMatchKey] makes of the
    key.  Rows are passed by pointer and written in place, so they live in a
    store of their own; the pointers handed to the matcher are not nil. *)
Record Event_Row : Type := {
  Row_StartTs : N;
  Row_Key : string;
  Row_Value : string;
  Row_OldValue : string
}.

#[global] Instance Event_Row_inhabited : Inhabited Event_Row :=
  populate {| Row_StartTs := 0; Row_Key := ""; Row_Value := ""; Row_OldValue := "" |}.

Abbreviation matchKey := (N * string)%type (only parsing).

Definition newMatchKey (rows : gmap ptr Event_Row) (row : ptr) : matchKey :=
  (Row_StartTs (rows !!! row), Row_Key (rows !!! row)).

(** [unmatchedValue] is [None] when the Go map is nil. *)
Record matcher : Type := {
  unmatchedValue : option (gmap matchKey ptr);
  cachedCommit : list ptr;
  cachedRollback : list ptr;
  lastPrewriteTime : Time
}.

(** The two gauges of package [metrics] that the matcher moves. *)
Record Gauges : Type := {
  prewriteCacheRowNum : Z;
  matcherCount : Z
}.

(** Reading a nil map reads an empty one. *)
Definition unmatched (m : matcher) : gmap matchKey ptr :=
  default ∅ (unmatchedValue m).

Definition newMatcher (g : Gauges) : Gauges * matcher :=
  ({| prewriteCacheRowNum := prewriteCacheRowNum g;
      matcherCount := matcherCount g + 1 |},
   {| unmatchedValue := Some ∅; cachedCommit := []; cachedRollback := [];
      lastPrewriteTime := zeroTime |}).

(** [putPrewriteRow]; [now] is the reading of [time.Now()]. *)
Definition putPrewriteRow (now : Time) (rows : gmap ptr Event_Row)
    (s : Gauges * matcher) (row : ptr) : Gauges * matcher :=
  let '(g, m) := s in
  let key := newMatchKey rows row in
  if decide (is_Some (unmatched m !! key) ∧
             String.length (Row_Value (rows !!! row)) = 0%nat)
  then s
  else
    ({| prewriteCacheRowNum := prewriteCacheRowNum g + 1;
        matcherCount := matcherCount g |},
     {| unmatchedValue := Some (<[key := row]> (unmatched m));
        cachedCommit := cachedCommit m; cachedRollback := cachedRollback m;
        lastPrewriteTime := now |}).

(** [matchRow]: the commit row is written in place. *)
Definition matchRow (rows : gmap ptr Event_Row) (s : Gauges * matcher)
    (row : ptr) (initialized : bool)
  : bool * gmap ptr Event_Row * (Gauges * matcher) :=
  let '(g, m) := s in
  match unmatched m !! newMatchKey rows row with
  | Some value =>
      if negb initialized && bool_decide (String.length (Row_Value (rows !!! value)) = 0%nat)
      then (false, rows, s)
      else
        let r := rows !!! row in
        let rows :=
          <[row := {| Row_StartTs := Row_StartTs r; Row_Key := Row_Key r;
                      Row_Value := Row_Value (rows !!! value);
                      Row_OldValue := Row_OldValue (rows !!! value) |}]> rows in
        (true, rows,
         ({| prewriteCacheRowNum := prewriteCacheRowNum g - 1;
             matcherCount := matcherCount g |},
          {| unmatchedValue := delete (newMatchKey rows row) <$> unmatchedValue m;
             cachedCommit := cachedCommit m; cachedRollback := cachedRollback m;
             lastPrewriteTime := lastPrewriteTime m |}))
  | None => (false, rows, s)
  end.

Definition cacheCommitRow (m : matcher) (row : ptr) : matcher :=
  {| unmatchedValue := unmatchedValue m; cachedCommit := cachedCommit m ++ [row];
     cachedRollback := cachedRollback m; lastPrewriteTime := lastPrewriteTime m |}.

(** One iteration of the loop of [matchCachedRow]: a matched entry is kept. *)
Definition matchCachedStep
    (acc : list ptr * gmap ptr Event_Row * (Gauges * matcher)) (cacheEntry : ptr)
  : list ptr * gmap ptr Event_Row * (Gauges * matcher) :=
  let '(kept, rows, s) := acc in
  let '(ok, rows, s) := matchRow rows s cacheEntry true in
  if ok then (kept ++ [cacheEntry], rows, s) else (kept, rows, s).

Definition matchCachedRow (rows : gmap ptr Event_Row) (s : Gauges * matcher)
    (initialized : bool)
  : Result (list ptr * gmap ptr Event_Row * (Gauges * matcher)) :=
  let '(g, m) := s in
  if negb initialized then Panic "must be initialized before match cached rows"
  else
    let cached := cachedCommit m in
    let m := {| unmatchedValue := unmatchedValue m; cachedCommit := [];
                cachedRollback := cachedRollback m;
                lastPrewriteTime := lastPrewriteTime m |} in
    Ok (foldl matchCachedStep ([], rows, (g, m)) cached).

(** [rollbackRow]: deleting from a nil map does nothing; the gauge goes down
    whether or not the key was there. *)
Definition rollbackRow (rows : gmap ptr Event_Row) (s : Gauges * matcher)
    (row : ptr) : Gauges * matcher :=
  let '(g, m) := s in
  ({| prewriteCacheRowNum := prewriteCacheRowNum g - 1;
      matcherCount := matcherCount g |},
   {| unmatchedValue := delete (newMatchKey rows row) <$> unmatchedValue m;
      cachedCommit := cachedCommit m; cachedRollback := cachedRollback m;
      lastPrewriteTime := lastPrewriteTime m |}).

Definition cacheRollbackRow (m : matcher) (row : ptr) : matcher :=
  {| unmatchedValue := unmatchedValue m; cachedCommit := cachedCommit m;
     cachedRollback := cachedRollback m ++ [row];
     lastPrewriteTime := lastPrewriteTime m |}.

Definition matchCachedRollbackRow (rows : gmap ptr Event_Row)
    (s : Gauges * matcher) (initialized : bool) : Result (Gauges * matcher) :=
  let '(g, m) := s in
  if negb initialized
  then Panic "must be initialized before match cached rollback rows"
  else
    let rollback := cachedRollback m in
    let m := {| unmatchedValue := unmatchedValue m; cachedCommit := cachedCommit m;
                cachedRollback := []; lastPrewriteTime := lastPrewriteTime m |} in
    Ok (foldl (rollbackRow rows) (g, m) rollback).

Definition clearUnmatchedValue (m : matcher) : matcher :=
  {| unmatchedValue := None; cachedCommit := cachedCommit m;
     cachedRollback := cachedRollback m; lastPrewriteTime := zeroTime |}.

Definition clearCacheDelayInSecond : Z := 5.

(** [tryCleanUnmatchedValue]; [now] is the clock reading of [time.Since]. *)
Definition tryCleanUnmatchedValue (now : Time) (m : matcher) : matcher :=
  match unmatchedValue m with
  | None => m
  | Some mp =>
      if decide (time_Sub now (lastPrewriteTime m) > clearCacheDelayInSecond * Second ∧
                 size mp = 0%nat)
      then clearUnmatchedValue m
      else m
  end.

(** [matcher.clear]. *)
Definition matcher_clear (s : Gauges * matcher) : Gauges * matcher :=
  let '(g, m) := s in
  let g := {| prewriteCacheRowNum :=
                prewriteCacheRowNum g - Z.of_nat (size (unmatched m));
              matcherCount := matcherCount g - 1 |} in
  let m := clearUnmatchedValue m in
  (g, {| unmatchedValue := unmatchedValue m; cachedCommit := [];
         cachedRollback := []; lastPrewriteTime := lastPrewriteTime m |}).

(** How far the gauge of cached prewrite rows is from the number of rows the
    matcher holds. *)
Definition gauge_drift (s : Gauges * matcher) : Z :=
  prewriteCacheRowNum s.1 - Z.of_nat (size (unmatched s.2)).

(** ** A small row store, for the concrete instances of the matcher *)

(** A prewrite of key k at start ts 5 with its value, the commit row of the
    same transaction, a fake prewrite of it (empty value), and the commit row
    of another transaction. *)
Definition example_rows : gmap ptr Event_Row :=
  <[1%positive := {| Row_StartTs := 5; Row_Key := "k"; Row_Value := "v";
                     Row_OldValue := "o" |}]>
  (<[2%positive := {| Row_StartTs := 5; Row_Key := "k"; Row_Value := "";
                      Row_OldValue := "" |}]>
  (<[3%positive := {| Row_StartTs := 5; Row_Key := "k"; Row_Value := "";
                      Row_OldValue := "old" |}]>
  (<[4%positive := {| Row_StartTs := 6; Row_Key := "x"; Row_Value := "";
                      Row_OldValue := "" |}]> ∅))).

Definition example_matcher : Gauges * matcher :=
  newMatcher {| prewriteCacheRowNum := 0; matcherCount := 0 |}.

(** ** The configuration of the codecs *)

(** Modelled from the spec: package [config] is not in the sources at hand.
    Of its protocols the codec configuration names three; the others are told
    apart by a number. *)
Inductive Protocol : Type :=
  | ProtocolAvro
  | ProtocolCanalJSON
  | ProtocolSimple
  | ProtocolOther (code : Z).

#[global] Instance Protocol_eq_dec : EqDecision Protocol.
Proof. solve_decision. Defined.

Definition defaultMaxBatchSize : Z := 16.

Definition EncodingFormatJSON : string := "json".
Definition EncodingFormatAvro : string := "avro".
Definition DecimalHandlingModeString : string := "string".
Definition DecimalHandlingModePrecise : string := "precise".
Definition BigintUnsignedHandlingModeString : string := "string".
Definition BigintUnsignedHandlingModeLong : string := "long".
Definition SchemaRegistryTypeConfluent : string := "confluent".
Definition SchemaRegistryTypeGlue : string := "glue".

(** [Config].  The large-message and Glue configurations are records of
    package [config]; they are only passed on, so their types [L] and [G] are
    left open.  A pointer that may be nil is an [option]; the time zone is
    given by its name. *)
Record Config (L G : Type) : Type := {
  Config_ChangefeedID : ChangeFeedID;
  Protocol_of : Protocol;
  MaxMessageBytes : Z;
  MaxBatchSize : Z;
  DeleteOnlyHandleKeyColumns : bool;
  LargeMessageHandle : option L;
  EnableTiDBExtension : bool;
  EnableRowChecksum : bool;
  AvroConfluentSchemaRegistry : string;
  AvroDecimalHandlingMode : string;
  AvroBigintUnsignedHandlingMode : string;
  AvroGlueSchemaRegistry : option G;
  AvroEnableWatermark : bool;
  ContentCompatible : bool;
  Delimiter : string;
  Quote : string;
  NullString : string;
  IncludeCommitTs : bool;
  Terminator : string;
  BinaryEncodingMethod : string;
  OutputOldValue : bool;
  OutputHandleKey : bool;
  OnlyOutputUpdatedColumns : bool;
  OpenOutputOldValue : bool;
  EncodingFormat : string;
  TimeZone : string;
  DebeziumDisableSchema : bool;
  DebeziumOutputOldValue : bool
}.

Arguments Config_ChangefeedID {L G}.
Arguments Protocol_of {L G}.
Arguments MaxMessageBytes {L G}.
Arguments MaxBatchSize {L G}.
Arguments DeleteOnlyHandleKeyColumns {L G}.
Arguments LargeMessageHandle {L G}.
Arguments EnableTiDBExtension {L G}.
Arguments EnableRowChecksum {L G}.
Arguments AvroConfluentSchemaRegistry {L G}.
Arguments AvroDecimalHandlingMode {L G}.
Arguments AvroBigintUnsignedHandlingMode {L G}.
Arguments AvroGlueSchemaRegistry {L G}.
Arguments AvroEnableWatermark {L G}.
Arguments ContentCompatible {L G}.
Arguments Delimiter {L G}.
Arguments Quote {L G}.
Arguments NullString {L G}.
Arguments IncludeCommitTs {L G}.
Arguments Terminator {L G}.
Arguments BinaryEncodingMethod {L G}.
Arguments OutputOldValue {L G}.
Arguments OutputHandleKey {L G}.
Arguments OnlyOutputUpdatedColumns {L G}.
Arguments OpenOutputOldValue {L G}.
Arguments EncodingFormat {L G}.
Arguments TimeZone {L G}.
Arguments DebeziumDisableSchema {L G}.
Arguments DebeziumOutputOldValue {L G}.

(** [NewConfig]; [config.DefaultMaxMessageBytes] and the result of
    [config.NewDefaultLargeMessageHandleConfig()] are given. *)
Definition NewConfig {L G : Type} (DefaultMaxMessageBytes : Z)
    (defaultLargeMessageHandle : L) (protocol : Protocol) : Config L G :=
  {| Config_ChangefeedID := "";
     Protocol_of := protocol;
     MaxMessageBytes := DefaultMaxMessageBytes;
     MaxBatchSize := defaultMaxBatchSize;
     DeleteOnlyHandleKeyColumns := false;
     LargeMessageHandle := Some defaultLargeMessageHandle;
     EnableTiDBExtension := false;
     EnableRowChecksum := false;
     AvroConfluentSchemaRegistry := "";
     AvroDecimalHandlingMode := "precise";
     AvroBigintUnsignedHandlingMode := "long";
     AvroGlueSchemaRegistry := None;
     AvroEnableWatermark := false;
     ContentCompatible := false;
     Delimiter := ""; Quote := ""; NullString := "";
     IncludeCommitTs := false; Terminator := ""; BinaryEncodingMethod := "";
     OutputOldValue := false; OutputHandleKey := false;
     OnlyOutputUpdatedColumns := false;
     OpenOutputOldValue := true;
     EncodingFormat := EncodingFormatJSON;
     TimeZone := "Local";
     DebeziumDisableSchema := false;
     DebeziumOutputOldValue := true |}.

(** [WithMaxMessageBytes]: the configuration is updated in place and returned. *)
Definition WithMaxMessageBytes {L G : Type} (bytes : Z) (c : Config L G) : Config L G :=
  {| Config_ChangefeedID := Config_ChangefeedID c;
     Protocol_of := Protocol_of c; MaxMessageBytes := bytes;
     MaxBatchSize := MaxBatchSize c;
     DeleteOnlyHandleKeyColumns := DeleteOnlyHandleKeyColumns c;
     LargeMessageHandle := LargeMessageHandle c;
     EnableTiDBExtension := EnableTiDBExtension c;
     EnableRowChecksum := EnableRowChecksum c;
     AvroConfluentSchemaRegistry := AvroConfluentSchemaRegistry c;
     AvroDecimalHandlingMode := AvroDecimalHandlingMode c;
     AvroBigintUnsignedHandlingMode := AvroBigintUnsignedHandlingMode c;
     AvroGlueSchemaRegistry := AvroGlueSchemaRegistry c;
     AvroEnableWatermark := AvroEnableWatermark c;
     ContentCompatible := ContentCompatible c; Delimiter := Delimiter c;
     Quote := Quote c; NullString := NullString c;
     IncludeCommitTs := IncludeCommitTs c; Terminator := Terminator c;
     BinaryEncodingMethod := BinaryEncodingMethod c;
     OutputOldValue := OutputOldValue c;
     OutputHandleKey := OutputHandleKey c;
     OnlyOutputUpdatedColumns := OnlyOutputUpdatedColumns c;
     OpenOutputOldValue := OpenOutputOldValue c;
     EncodingFormat := EncodingFormat c; TimeZone := TimeZone c;
     DebeziumDisableSchema := DebeziumDisableSchema c;
     DebeziumOutputOldValue := DebeziumOutputOldValue c |}.

(** [WithChangefeedID]. *)
Definition WithChangefeedID {L G : Type} (id : ChangeFeedID) (c : Config L G) : Config L G :=
  {| Config_ChangefeedID := id; Protocol_of := Protocol_of c;
     MaxMessageBytes := MaxMessageBytes c; MaxBatchSize := MaxBatchSize c;
     DeleteOnlyHandleKeyColumns := DeleteOnlyHandleKeyColumns c;
     LargeMessageHandle := LargeMessageHandle c;
     EnableTiDBExtension := EnableTiDBExtension c;
     EnableRowChecksum := EnableRowChecksum c;
     AvroConfluentSchemaRegistry := AvroConfluentSchemaRegistry c;
     AvroDecimalHandlingMode := AvroDecimalHandlingMode c;
     AvroBigintUnsignedHandlingMode := AvroBigintUnsignedHandlingMode c;
     AvroGlueSchemaRegistry := AvroGlueSchemaRegistry c;
     AvroEnableWatermark := AvroEnableWatermark c;
     ContentCompatible := ContentCompatible c; Delimiter := Delimiter c;
     Quote := Quote c; NullString := NullString c;
     IncludeCommitTs := IncludeCommitTs c; Terminator := Terminator c;
     BinaryEncodingMethod := BinaryEncodingMethod c;
     OutputOldValue := OutputOldValue c;
     OutputHandleKey := OutputHandleKey c;
     OnlyOutputUpdatedColumns := OnlyOutputUpdatedColumns c;
     OpenOutputOldValue := OpenOutputOldValue c;
     EncodingFormat := EncodingFormat c; TimeZone := TimeZone c;
     DebeziumDisableSchema := DebeziumDisableSchema c;
     DebeziumOutputOldValue := DebeziumOutputOldValue c |}.

(** The errors of [Validate], by the check that raises them; an error of the
    large-message configuration is passed on. *)
Inductive CodecError (E : Type) : Type :=
  | ErrOnlyOneSchemaRegistry
  | ErrNoSchemaRegistry
  | ErrAvroDecimalHandlingMode
  | ErrAvroBigintUnsignedHandlingMode
  | ErrAvroRowChecksum
  | ErrMaxMessageBytes (n : Z)
  | ErrMaxBatchSize (n : Z)
  | ErrLargeMessageHandle (e : E).

Arguments ErrOnlyOneSchemaRegistry {E}.
Arguments ErrNoSchemaRegistry {E}.
Arguments ErrAvroDecimalHandlingMode {E}.
Arguments ErrAvroBigintUnsignedHandlingMode {E}.
Arguments ErrAvroRowChecksum {E}.
Arguments ErrMaxMessageBytes {E}.
Arguments ErrMaxBatchSize {E}.
Arguments ErrLargeMessageHandle {E}.

(** [Validate].  [AdjustAndValidate] is the method of the large-message
    configuration, from package [config]: it may adjust the object it is
    called on and may return an error.  The result is the error, if any, and
    the large-message configuration as the call leaves it. *)
Definition Validate {L G E : Type}
    (AdjustAndValidate : L → Protocol → bool → option E * L) (c : Config L G)
  : option (CodecError E) * option L :=
  let avro :=
    if decide (Protocol_of c = ProtocolAvro) then
      if bool_decide (AvroConfluentSchemaRegistry c ≠ "") &&
         bool_decide (is_Some (AvroGlueSchemaRegistry c))
      then Some ErrOnlyOneSchemaRegistry
      else if bool_decide (AvroConfluentSchemaRegistry c = "") &&
              negb (bool_decide (is_Some (AvroGlueSchemaRegistry c)))
      then Some ErrNoSchemaRegistry
      else if bool_decide (AvroDecimalHandlingMode c ≠ DecimalHandlingModePrecise) &&
              bool_decide (AvroDecimalHandlingMode c ≠ DecimalHandlingModeString)
      then Some ErrAvroDecimalHandlingMode
      else if bool_decide (AvroBigintUnsignedHandlingMode c ≠ BigintUnsignedHandlingModeLong) &&
              bool_decide (AvroBigintUnsignedHandlingMode c ≠ BigintUnsignedHandlingModeString)
      then Some ErrAvroBigintUnsignedHandlingMode
      else if EnableRowChecksum c &&
              negb (EnableTiDBExtension c &&
                    bool_decide (AvroDecimalHandlingMode c = DecimalHandlingModeString) &&
                    bool_decide (AvroBigintUnsignedHandlingMode c
                              = BigintUnsignedHandlingModeString))
      then Some ErrAvroRowChecksum
      else None
    else None in
  match avro with
  | Some err => (Some err, LargeMessageHandle c)
  | None =>
      if decide (MaxMessageBytes c ≤ 0)
      then (Some (ErrMaxMessageBytes (MaxMessageBytes c)), LargeMessageHandle c)
      else if decide (MaxBatchSize c ≤ 0)
      then (Some (ErrMaxBatchSize (MaxBatchSize c)), LargeMessageHandle c)
      else
        match LargeMessageHandle c with
        | Some l =>
            let r := AdjustAndValidate l (Protocol_of c) (EnableTiDBExtension c) in
            (ErrLargeMessageHandle <$> r.1, Some r.2)
        | None => (None, None)
        end
  end.

Definition SchemaRegistryType {L G : Type} (c : Config L G) : string :=
  if decide (AvroConfluentSchemaRegistry c ≠ "") then SchemaRegistryTypeConfluent
  else if bool_decide (is_Some (AvroGlueSchemaRegistry c)) then SchemaRegistryTypeGlue
  else "unknown".

(** * Properties *)


(** ** Lemmas on the two-level indices *)

Lemma inner_lookup idx k id : inner idx k !! id = index_lookup idx k id.
Proof.
  unfold inner, index_lookup. destruct (idx !! k); simpl; [done|].
  apply lookup_empty.
Qed.

Lemma index_lookup_put k id p idx k' id' :
  index_lookup (put_inner k id p idx) k' id' =
  if decide (k = k' ∧ id = id') then Some p else index_lookup idx k' id'.
Proof.
  unfold put_inner, index_lookup at 1.
  destruct (decide (k = k')) as [<-|Hk].
  - rewrite lookup_insert_eq. simpl.
    destruct (decide (id = id')) as [<-|Hid].
    + rewrite lookup_insert_eq. by rewrite decide_True.
    + rewrite lookup_insert_ne by done. rewrite inner_lookup.
      rewrite decide_False; [done|tauto].
  - rewrite lookup_insert_ne by done.
    rewrite decide_False; [done|tauto].
Qed.

Lemma index_lookup_delete_inner k id idx k' id' :
  index_lookup (delete_inner k id idx) k' id' =
  if decide (k = k' ∧ id = id') then None else index_lookup idx k' id'.
Proof.
  unfold delete_inner, index_lookup.
  destruct (decide (k = k')) as [<-|Hk].
  - rewrite lookup_alter_eq. destruct (idx !! k) as [m|]; simpl.
    + destruct (decide (id = id')) as [<-|Hid].
      * rewrite lookup_delete_eq. by rewrite decide_True.
      * rewrite lookup_delete_ne by done. rewrite decide_False; [done|tauto].
    + by destruct (decide _).
  - rewrite lookup_alter_ne by done. rewrite decide_False; [done|tauto].
Qed.

Lemma index_lookup_prune k idx k' id' :
  index_lookup (prune k idx) k' id' = index_lookup idx k' id'.
Proof.
  unfold prune. destruct (decide _) as [Hs|]; [|done].
  apply map_size_empty_iff in Hs.
  unfold index_lookup. destruct (decide (k = k')) as [<-|Hk].
  - rewrite lookup_delete_eq. simpl.
    unfold inner in Hs. destruct (idx !! k) as [m|]; simpl in *; [|done].
    subst m. by rewrite lookup_empty.
  - by rewrite lookup_delete_ne.
Qed.

Lemma index_lookup_remove k id idx k' id' :
  index_lookup (prune k (delete_inner k id idx)) k' id' =
  if decide (k = k' ∧ id = id') then None else index_lookup idx k' id'.
Proof. by rewrite index_lookup_prune, index_lookup_delete_inner. Qed.

Lemma no_empty_put k id p idx : no_empty idx → no_empty (put_inner k id p idx).
Proof.
  intros Hne k' m. unfold put_inner.
  destruct (decide (k = k')) as [<-|Hk].
  - rewrite lookup_insert_eq. intros [= <-]. apply insert_non_empty.
  - rewrite lookup_insert_ne by done. apply Hne.
Qed.

Lemma no_empty_prune k idx :
  (∀ k' m, k' ≠ k → idx !! k' = Some m → m ≠ ∅) → no_empty (prune k idx).
Proof.
  intros Hne k' m. unfold prune. destruct (decide _) as [Hs|Hs].
  - destruct (decide (k = k')) as [<-|Hk].
    + by rewrite lookup_delete_eq.
    + rewrite lookup_delete_ne by done. by apply Hne.
  - destruct (decide (k = k')) as [<-|Hk].
    + intros Hm. unfold inner in Hs. rewrite Hm in Hs. simpl in Hs.
      by apply map_size_non_empty_iff.
    + by apply Hne.
Qed.

Lemma no_empty_remove k id idx :
  no_empty idx → no_empty (prune k (delete_inner k id idx)).
Proof.
  intros Hne. apply no_empty_prune. intros k' m Hk.
  unfold delete_inner. rewrite lookup_alter_ne by done. apply Hne.
Qed.

Lemma no_empty_lookup idx k m :
  no_empty idx → idx !! k = Some m → ∃ id p, index_lookup idx k id = Some p.
Proof.
  intros Hne Hk. specialize (Hne _ _ Hk).
  apply map_choose in Hne as (id & p & Hp).
  exists id, p. unfold index_lookup. by rewrite Hk.
Qed.

(** Two indices without empty inner maps are equal when they answer every
    two-level lookup alike. *)
Lemma index_ext a b :
  no_empty a → no_empty b →
  (∀ k id, index_lookup a k id = index_lookup b k id) → a = b.
Proof.
  intros Ha Hb Heq. apply map_eq. intros k.
  destruct (a !! k) as [ma|] eqn:Ea; destruct (b !! k) as [mb|] eqn:Eb; [|exfalso..|done].
  - f_equal. apply map_eq. intros id. specialize (Heq k id).
    unfold index_lookup in Heq. by rewrite Ea, Eb in Heq.
  - destruct (no_empty_lookup _ _ _ Ha Ea) as (id & p & Hp).
    rewrite Heq in Hp. unfold index_lookup in Hp. by rewrite Eb in Hp.
  - destruct (no_empty_lookup _ _ _ Hb Eb) as (id & p & Hp).
    rewrite <- Heq in Hp. unfold index_lookup in Hp. by rewrite Ea in Hp.
Qed.

(** Removing what was just put gives the index back. *)
Lemma index_remove_put k id p idx :
  no_empty idx → index_lookup idx k id = None →
  prune k (delete_inner k id (put_inner k id p idx)) = idx.
Proof.
  intros Hne Hnone. apply index_ext; [|done|].
  - by apply no_empty_remove, no_empty_put.
  - intros k' id'. rewrite index_lookup_remove, index_lookup_put.
    destruct (decide _) as [[<- <-]|]; done.
Qed.

Lemma index_lookup_Some idx k id p :
  index_lookup idx k id = Some p ↔ ∃ m, idx !! k = Some m ∧ m !! id = Some p.
Proof.
  unfold index_lookup. destruct (idx !! k) as [m|]; simpl.
  - split; [eauto|]. by intros (m' & [= <-] & ?).
  - split; [done|]. by intros (m' & ? & ?).
Qed.

Lemma db_wf_inv h db : db_wf h db ↔ db_inv h db.
Proof.
  split.
  - intros (Ha & Hin & Hs & Ht & Hab & Hsc & Hre & Hd). split; try done.
    + intros id p Hp. specialize (Ha _ _ Hp). simpl in Ha.
      destruct (h !! p) as [s|]; [|done]. injection Ha as Ha. eauto.
    + intros k id p. split.
      * intros (m & Hm & Hp)%index_lookup_Some.
        destruct (Hs _ _ Hm) as [_ Hall]. exact (Hall _ _ Hp).
      * intros [Hp <-]. by destruct (Hin _ _ Hp).
    + intros k id p. split.
      * intros (m & Hm & Hp)%index_lookup_Some.
        destruct (Ht _ _ Hm) as [_ Hall]. exact (Hall _ _ Hp).
      * intros [Hp <-]. by destruct (Hin _ _ Hp).
    + intros k m Hm. by destruct (Hs _ _ Hm).
    + intros k m Hm. by destruct (Ht _ _ Hm).
  - intros [Ha Hs Ht Hsn Htn Hab Hsc Hre Hd]. unfold db_wf. split_and!; try done.
    + intros id p Hp. simpl. destruct (Ha _ _ Hp) as (s & -> & <-). done.
    + intros id p Hp. split; [apply Hs | apply Ht]; done.
    + intros k m Hm. split; [by apply (Hsn _ _ Hm)|].
      intros id p Hp. apply Hs, index_lookup_Some. eauto.
    + intros k m Hm. split; [by apply (Htn _ _ Hm)|].
      intros id p Hp. apply Ht, index_lookup_Some. eauto.
Qed.

(** A pointer stored in the DB dereferences to a span carrying the id it is
    stored under. *)
Lemma inv_deref_ID h db id p :
  db_inv h db → allTasks db !! id = Some p → span_ID (deref h p) = id.
Proof.
  intros Hinv Hp. destruct (inv_alloc _ _ Hinv _ _ Hp) as (s & Hs & <-).
  unfold deref. by rewrite (lookup_total_correct _ _ _ Hs).
Qed.

Lemma inv_ptr_inj h db id1 id2 p :
  db_inv h db → allTasks db !! id1 = Some p → allTasks db !! id2 = Some p →
  id1 = id2.
Proof.
  intros Hinv H1 H2.
  rewrite <- (inv_deref_ID _ _ _ _ Hinv H1). by apply inv_deref_ID with db.
Qed.

(** *** Removal keeps the invariant *)

Lemma removeSpanUnLock_allTasks h db p :
  allTasks (removeSpanUnLock h db p) = delete (span_ID (deref h p)) (allTasks db).
Proof. reflexivity. Qed.

Lemma removeSpanUnLock_inv h db p :
  db_inv h db → allTasks db !! span_ID (deref h p) = Some p →
  db_inv h (removeSpanUnLock h db p).
Proof.
  intros Hinv Hp. set (id := span_ID (deref h p)) in *.
  split; unfold removeSpanUnLock; simpl; fold id.
  - intros id' p' [Hne Hp']%lookup_delete_Some. by apply (inv_alloc _ _ Hinv).
  - intros k id' p'. unfold GetSchemaID.
    rewrite index_lookup_remove, lookup_delete_Some.
    destruct (decide _) as [[<- <-]|Hn]; [naive_solver|].
    rewrite (inv_schema _ _ Hinv).
    split; [|naive_solver]. intros [Hp' <-]. split; [|done]. split; [|done].
    intros <-. apply Hn. split; [|done]. congruence.
  - intros k id' p'.
    rewrite index_lookup_remove, lookup_delete_Some.
    destruct (decide _) as [[<- <-]|Hn]; [naive_solver|].
    rewrite (inv_table _ _ Hinv).
    split; [|naive_solver]. intros [Hp' <-]. split; [|done]. split; [|done].
    intros <-. apply Hn. split; [|done]. congruence.
  - apply no_empty_remove, Hinv.
  - apply no_empty_remove, Hinv.
  - intros id' p' [Hne Hp']%lookup_delete_Some.
    destruct (inv_absent _ _ Hinv _ _ Hp') as (? & ? & ? & ?).
    rewrite !lookup_delete_ne by done. done.
  - intros id' p' [Hne Hp']%lookup_delete_Some.
    destruct (inv_scheduling _ _ Hinv _ _ Hp') as (? & ? & ?).
    rewrite !lookup_delete_ne by done. done.
  - intros id' p' [Hne Hp']%lookup_delete_Some.
    destruct (inv_replicating _ _ Hinv _ _ Hp') as (? & ?).
    rewrite !lookup_delete_ne by done. done.
  - apply Hinv.
Qed.

Lemma elem_of_range_values {K} `{Countable K} {A} (m : gmap K A) (x : A) :
  x ∈ range_values m ↔ ∃ k, m !! k = Some x.
Proof.
  unfold range_values. rewrite list_elem_of_fmap. split.
  - intros ([k y] & -> & Hin). exists k. by apply elem_of_map_to_list.
  - intros (k & Hk). exists (k, x). split; [done|]. by apply elem_of_map_to_list.
Qed.

Lemma inv_unknown h db id :
  db_inv h db → allTasks db !! id = None → unknown_id db id.
Proof.
  intros Hinv Hid. split_and!; [done|..].
  - intros k. apply eq_None_not_Some. intros [q E].
    apply (inv_schema _ _ Hinv) in E as [E _]. congruence.
  - intros k. apply eq_None_not_Some. intros [q E].
    apply (inv_table _ _ Hinv) in E as [E _]. congruence.
  - apply eq_None_not_Some. intros [q E].
    apply (inv_absent _ _ Hinv) in E as [E _]. congruence.
  - apply eq_None_not_Some. intros [q E].
    apply (inv_scheduling _ _ Hinv) in E as [E _]. congruence.
  - apply eq_None_not_Some. intros [q E].
    apply (inv_replicating _ _ Hinv) in E as [E _]. congruence.
Qed.

(** ** Add then force-remove *)

(** C9. On a DB that satisfies its invariant, adding an absent span whose id
    the DB does not know and then force-removing that id gives back the very
    same DB; and on any DB, force-removing an id that [allTasks] does not hold
    changes nothing. *)
Theorem AddAbsent_ForceRemove_restores (h : gmap ptr SpanReplication)
    (db : ReplicationDB) :
  (db_wf h db →
   ∀ s : ptr, allTasks db !! span_ID (deref h s) = None →
     ForceRemove h (AddAbsentReplicaSet h db [s]) (span_ID (deref h s)) = db) ∧
  (∀ id : DispatcherID, allTasks db !! id = None → ForceRemove h db id = db).
Proof.
  split.
  - intros Hinv%db_wf_inv s Hs. set (id := span_ID (deref h s)) in *.
    pose proof (inv_unknown _ _ _ Hinv Hs) as (_ & Hst & Htt & Hab & Hsc & Hre).
    destruct Hinv as [_ _ _ Hsn Htn _ _ _ _].
    destruct db as [cf all st tt [ab sc re ck] ddl]. simpl in *.
    unfold ForceRemove, AddAbsentReplicaSet, addAbsentReplicaSetUnLock. simpl.
    fold id. rewrite lookup_insert_eq.
    unfold removeSpanUnLock, GetSchemaID. simpl. fold id.
    unfold RemoveReplicaWithoutLock. simpl.
    rewrite delete_insert_id by done.
    rewrite !index_remove_put by done.
    rewrite delete_insert_id by done.
    rewrite !delete_id by done. reflexivity.
  - intros id Hid. unfold ForceRemove. by rewrite Hid.
Qed.

(** ** Removing everything *)

(** C10. [TryRemoveAll] leaves exactly the DDL span: alone in [allTasks],
    alone in [tableTasks] under its table id, alone in [schemaTasks] under its
    schema id, with empty partitions; the list it returns is the replicating
    partition followed by the scheduling partition as they were.  On a DB that
    satisfies its invariant, no absent span and never the DDL span is in that
    list. *)
Theorem TryRemoveAll_leaves_ddl (h : gmap ptr SpanReplication)
    (db : ReplicationDB) :
  let ddl := deref h (ddlSpan db) in
  let tasks := (TryRemoveAll h db).1 in
  let db' := (TryRemoveAll h db).2 in
  allTasks db' = {[span_ID ddl := ddlSpan db]} ∧
  tableTasks db' = {[TableID (Span ddl) := {[span_ID ddl := ddlSpan db]}]} ∧
  schemaTasks db' = {[schemaID ddl := {[span_ID ddl := ddlSpan db]}]} ∧
  tracker db' = NewReplicationDB ∧
  ddlSpan db' = ddlSpan db ∧
  tasks = GetReplicatingWithoutLock (tracker db) ++
          GetSchedulingWithoutLock (tracker db) ∧
  (db_wf h db →
     (∀ p, p ∈ GetAbsentWithoutLock (tracker db) → p ∉ tasks) ∧
     ddlSpan db ∉ tasks).
Proof.
  simpl. split_and!; try reflexivity.
  intros Hinv%db_wf_inv. split.
  - intros p (id & Hab)%elem_of_range_values.
    destruct (inv_absent _ _ Hinv _ _ Hab) as (Hall & _ & Hsc & Hre).
    intros [Hin|Hin]%elem_of_app;
      apply elem_of_range_values in Hin as (id' & Hin).
    + destruct (inv_replicating _ _ Hinv _ _ Hin) as [Hall' _].
      assert (id = id') as <- by (by eapply inv_ptr_inj). congruence.
    + destruct (inv_scheduling _ _ Hinv _ _ Hin) as [Hall' _].
      assert (id = id') as <- by (by eapply inv_ptr_inj). congruence.
  - intros [Hin|Hin]%elem_of_app;
      apply elem_of_range_values in Hin as (id' & Hin).
    + by destruct (inv_replicating _ _ Hinv _ _ Hin) as [_ ?].
    + by destruct (inv_scheduling _ _ Hinv _ _ Hin) as (_ & ? & _).
Qed.

(** ** Removing by table ids and by schema id *)

Lemma tryRemoveStep_snd h acc p :
  (tryRemoveStep h acc p).2 = removeSpanUnLock h acc.2 p.
Proof. unfold tryRemoveStep. by destruct (decide _). Qed.

Lemma tryRemoveStep_fst h acc p :
  (tryRemoveStep h acc p).1 =
  acc.1 ++ filter (λ q, nodeID (deref h q) ≠ "") [p].
Proof.
  unfold tryRemoveStep, GetNodeID.
  rewrite filter_cons, filter_nil.
  destruct (decide _); simpl; [done|]. by rewrite app_nil_r.
Qed.

(** The loop shared by both functions, over a list of distinct tasks of the
    DB: the invariant survives, exactly the tasks of the list leave
    [allTasks], and those of them that have a node are appended. *)
Lemma tryRemove_loop h (L : list ptr) :
  ∀ acc db,
    db_inv h db → NoDup L →
    (∀ p, p ∈ L → allTasks db !! span_ID (deref h p) = Some p) →
    let r := foldl (tryRemoveStep h) (acc, db) L in
    db_inv h r.2 ∧
    (∀ id q, allTasks r.2 !! id = Some q ↔ allTasks db !! id = Some q ∧ q ∉ L) ∧
    r.1 = acc ++ filter (λ q, nodeID (deref h q) ≠ "") L.
Proof.
  induction L as [|p L IH]; intros acc db Hinv Hnd HL; simpl.
  - split_and!; [done| |by rewrite filter_nil, app_nil_r].
    intros id q. split; [|tauto]. intros ?. split; [done|]. apply not_elem_of_nil.
  - apply NoDup_cons in Hnd as [HpL Hnd].
    assert (allTasks db !! span_ID (deref h p) = Some p) as Hp
      by (apply HL; left).
    pose proof (removeSpanUnLock_inv _ _ _ Hinv Hp) as Hinv'.
    destruct (tryRemoveStep h (acc, db) p) as [acc1 db1] eqn:E.
    pose proof (tryRemoveStep_snd h (acc, db) p) as E2.
    pose proof (tryRemoveStep_fst h (acc, db) p) as E1.
    rewrite E in E1, E2. simpl in E1, E2. subst acc1 db1.
    edestruct (IH (acc ++ filter (λ q, nodeID (deref h q) ≠ "") [p])
                 (removeSpanUnLock h db p) Hinv' Hnd) as (Hi & Hall & Hacc).
    { intros q Hq. rewrite removeSpanUnLock_allTasks.
      pose proof (HL q (list_elem_of_further _ _ _ Hq)) as Hq'.
      rewrite lookup_delete_ne; [done|].
      intros Heq. rewrite Heq in Hp. rewrite Hp in Hq'.
      injection Hq' as ->. done. }
    split_and!; [done| |].
    + intros id q. rewrite Hall, removeSpanUnLock_allTasks, lookup_delete_Some.
      rewrite not_elem_of_cons. split.
      * intros [[Hne Hq] HqL]. split_and!; [done| |done].
        intros ->. apply Hne. exact (inv_deref_ID _ _ _ _ Hinv Hq).
      * intros [Hq [Hne HqL]]. split_and!; [|done..].
        intros <-. apply Hne. congruence.
    + rewrite Hacc, <- app_assoc. f_equal.
      rewrite (filter_cons _ p L), filter_cons, filter_nil.
      by destruct (decide _).
Qed.

(** The values of an inner map of a sound index are pairwise distinct. *)
Lemma range_values_NoDup h db (m : gmap DispatcherID ptr) :
  db_inv h db → (∀ id p, m !! id = Some p → allTasks db !! id = Some p) →
  NoDup (range_values m).
Proof.
  intros Hinv Hsub. unfold range_values.
  apply NoDup_fmap_2_strong; [|apply NoDup_map_to_list].
  intros [i1 p1] [i2 p2] H1%elem_of_map_to_list H2%elem_of_map_to_list Heq.
  simpl in Heq. subst p2. f_equal.
  eapply inv_ptr_inj; eauto.
Qed.

Lemma elem_of_schema_values h db sid p :
  db_inv h db →
  p ∈ range_values (inner (schemaTasks db) sid) ↔
  ∃ id, allTasks db !! id = Some p ∧ schemaID (deref h p) = sid.
Proof.
  intros Hinv. rewrite elem_of_range_values.
  setoid_rewrite inner_lookup. by setoid_rewrite (inv_schema _ _ Hinv).
Qed.

Lemma elem_of_table_values h db tid p :
  db_inv h db →
  p ∈ range_values (inner (tableTasks db) tid) ↔
  ∃ id, allTasks db !! id = Some p ∧ TableID (Span (deref h p)) = tid.
Proof.
  intros Hinv. rewrite elem_of_range_values.
  setoid_rewrite inner_lookup. by setoid_rewrite (inv_table _ _ Hinv).
Qed.

Lemma tryRemove_schema_loop h db sid acc :
  db_inv h db →
  let r := foldl (tryRemoveStep h) (acc, db)
             (range_values (inner (schemaTasks db) sid)) in
  db_inv h r.2 ∧
  (∀ id q, allTasks r.2 !! id = Some q ↔
     allTasks db !! id = Some q ∧ schemaID (deref h q) ≠ sid) ∧
  (∀ q, q ∈ r.1 ↔ q ∈ acc ∨
     ∃ id, allTasks db !! id = Some q ∧ schemaID (deref h q) = sid ∧
           nodeID (deref h q) ≠ "") ∧
  (NoDup acc → (∀ q id, q ∈ acc → allTasks db !! id ≠ Some q) → NoDup r.1).
Proof.
  intros Hinv.
  set (L := range_values (inner (schemaTasks db) sid)).
  assert (NoDup L) as Hnd.
  { eapply range_values_NoDup; [done|]. intros id p Hp.
    rewrite inner_lookup in Hp. by apply (inv_schema _ _ Hinv) in Hp as [? _]. }
  assert (∀ p, p ∈ L → allTasks db !! span_ID (deref h p) = Some p) as HL.
  { intros p (id & Hp & _)%(elem_of_schema_values _ _ _ _ Hinv).
    by rewrite (inv_deref_ID _ _ _ _ Hinv Hp). }
  destruct (tryRemove_loop h L acc db Hinv Hnd HL) as (Hi & Hall & Hacc).
  simpl. split_and!; [done| | |].
  - intros id q. rewrite Hall. split.
    + intros [Hq HqL]. split; [done|]. intros Hs. apply HqL.
      apply (elem_of_schema_values _ _ _ _ Hinv). eauto.
    + intros [Hq Hs]. split; [done|].
      intros (id' & _ & ?)%(elem_of_schema_values _ _ _ _ Hinv). done.
  - intros q. rewrite Hacc, elem_of_app, list_elem_of_filter.
    unfold L. rewrite (elem_of_schema_values _ _ _ _ Hinv). naive_solver.
  - intros Hnda Hfresh. rewrite Hacc. apply NoDup_app. split_and!; [done| |].
    + intros q Hq [_ (id & Hid & _)%(elem_of_schema_values _ _ _ _ Hinv)]%list_elem_of_filter.
      by apply (Hfresh q id).
    + by apply NoDup_filter.
Qed.

Lemma tryRemove_table_loop h db tid acc :
  db_inv h db →
  let r := foldl (tryRemoveStep h) (acc, db)
             (range_values (inner (tableTasks db) tid)) in
  db_inv h r.2 ∧
  (∀ id q, allTasks r.2 !! id = Some q ↔
     allTasks db !! id = Some q ∧ TableID (Span (deref h q)) ≠ tid) ∧
  (∀ q, q ∈ r.1 ↔ q ∈ acc ∨
     ∃ id, allTasks db !! id = Some q ∧ TableID (Span (deref h q)) = tid ∧
           nodeID (deref h q) ≠ "") ∧
  (NoDup acc → (∀ q id, q ∈ acc → allTasks db !! id ≠ Some q) → NoDup r.1).
Proof.
  intros Hinv.
  set (L := range_values (inner (tableTasks db) tid)).
  assert (NoDup L) as Hnd.
  { eapply range_values_NoDup; [done|]. intros id p Hp.
    rewrite inner_lookup in Hp. by apply (inv_table _ _ Hinv) in Hp as [? _]. }
  assert (∀ p, p ∈ L → allTasks db !! span_ID (deref h p) = Some p) as HL.
  { intros p (id & Hp & _)%(elem_of_table_values _ _ _ _ Hinv).
    by rewrite (inv_deref_ID _ _ _ _ Hinv Hp). }
  destruct (tryRemove_loop h L acc db Hinv Hnd HL) as (Hi & Hall & Hacc).
  simpl. split_and!; [done| | |].
  - intros id q. rewrite Hall. split.
    + intros [Hq HqL]. split; [done|]. intros Hs. apply HqL.
      apply (elem_of_table_values _ _ _ _ Hinv). eauto.
    + intros [Hq Hs]. split; [done|].
      intros (id' & _ & ?)%(elem_of_table_values _ _ _ _ Hinv). done.
  - intros q. rewrite Hacc, elem_of_app, list_elem_of_filter.
    unfold L. rewrite (elem_of_table_values _ _ _ _ Hinv). naive_solver.
  - intros Hnda Hfresh. rewrite Hacc. apply NoDup_app. split_and!; [done| |].
    + intros q Hq [_ (id & Hid & _)%(elem_of_table_values _ _ _ _ Hinv)]%list_elem_of_filter.
      by apply (Hfresh q id).
    + by apply NoDup_filter.
Qed.

Lemma TryRemoveByTableIDs_loop h (tids : list Z) :
  ∀ acc db,
    db_inv h db →
    let r := foldl (λ acc tblID,
                 foldl (tryRemoveStep h) acc
                   (range_values (inner (tableTasks acc.2) tblID)))
               (acc, db) tids in
    db_inv h r.2 ∧
    (∀ id q, allTasks r.2 !! id = Some q ↔
       allTasks db !! id = Some q ∧ TableID (Span (deref h q)) ∉ tids) ∧
    (∀ q, q ∈ r.1 ↔ q ∈ acc ∨
       ∃ id, allTasks db !! id = Some q ∧ TableID (Span (deref h q)) ∈ tids ∧
             nodeID (deref h q) ≠ "") ∧
    (NoDup acc → (∀ q id, q ∈ acc → allTasks db !! id ≠ Some q) → NoDup r.1).
Proof.
  induction tids as [|tid tids IH]; intros acc db Hinv; simpl.
  - split_and!; [done| | |done].
    + intros id q. split; [|tauto]. intros ?. split; [done|]. apply not_elem_of_nil.
    + intros q. split; [tauto|]. intros [?|(id & _ & []%not_elem_of_nil & _)]. done.
  - destruct (tryRemove_table_loop h db tid acc Hinv) as (Hi1 & Hall1 & Hin1 & Hnd1).
    destruct (foldl (tryRemoveStep h) (acc, db)
                (range_values (inner (tableTasks db) tid))) as [a1 db1].
    simpl in Hi1, Hall1, Hin1, Hnd1.
    destruct (IH a1 db1 Hi1) as (Hi & Hall & Hin & Hnd).
    split_and!; [done| | |].
    + intros id q. rewrite Hall, Hall1, not_elem_of_cons. tauto.
    + intros q. rewrite Hin, Hin1. setoid_rewrite Hall1.
      setoid_rewrite elem_of_cons. split.
      * intros [[?|(id & ? & ? & ?)]|(id & [? ?] & ? & ?)]; eauto 10.
      * intros [?|(id & Hq & Ht & Hn)]; [tauto|].
        destruct (decide (TableID (Span (deref h q)) = tid)) as [Heq|Hne].
        -- left. right. eauto.
        -- right. exists id. destruct Ht as [?|?]; [done|]. eauto.
    + intros Hnda Hfresh. apply Hnd; [by apply Hnd1|].
      intros q id Hq. rewrite Hall1. apply Hin1 in Hq as [Hq|(id' & Hq & Ht & _)].
      * intros [? _]. by apply (Hfresh q id).
      * intros [_ ?]. done.
Qed.

(** C4. On a DB that satisfies its invariant, [TryRemoveByTableIDs] and
    [TryRemoveBySchemaID] remove every span with one of the given table ids
    (with the given schema id) from all maps of the DB and keep the others; the
    returned list holds, once each, exactly the removed spans whose node id is
    not empty.  On any DB, with no table id the list is empty and the DB is
    unchanged. *)
Theorem TryRemove_returns_scheduled (h : gmap ptr SpanReplication)
    (db : ReplicationDB) :
  (db_wf h db →
   ∀ tids : list Z,
     let r := TryRemoveByTableIDs h db tids in
     db_wf h r.2 ∧
     (∀ id p, allTasks db !! id = Some p →
        TableID (Span (deref h p)) ∈ tids → unknown_id r.2 id) ∧
     (∀ id p, allTasks db !! id = Some p →
        TableID (Span (deref h p)) ∉ tids → allTasks r.2 !! id = Some p) ∧
     (∀ p, p ∈ r.1 ↔
        ∃ id, allTasks db !! id = Some p ∧ TableID (Span (deref h p)) ∈ tids ∧
              nodeID (deref h p) ≠ "") ∧
     NoDup r.1) ∧
  (db_wf h db →
   ∀ sid : Z,
     let r := TryRemoveBySchemaID h db sid in
     db_wf h r.2 ∧
     (∀ id p, allTasks db !! id = Some p →
        schemaID (deref h p) = sid → unknown_id r.2 id) ∧
     (∀ id p, allTasks db !! id = Some p →
        schemaID (deref h p) ≠ sid → allTasks r.2 !! id = Some p) ∧
     (∀ p, p ∈ r.1 ↔
        ∃ id, allTasks db !! id = Some p ∧ schemaID (deref h p) = sid ∧
              nodeID (deref h p) ≠ "") ∧
     NoDup r.1) ∧
  TryRemoveByTableIDs h db [] = ([], db).
Proof.
  split_and!; [| |done].
  - intros Hinv%db_wf_inv tids.
    destruct (TryRemoveByTableIDs_loop h tids [] db Hinv) as (Hi & Hall & Hin & Hnd).
    fold (TryRemoveByTableIDs h db tids) in Hi, Hall, Hin, Hnd.
    simpl. split_and!.
    + by apply db_wf_inv.
    + intros id p Hp Ht. apply (inv_unknown h); [done|].
      apply eq_None_not_Some. intros [q [Hq Hn]%Hall].
      rewrite Hp in Hq. injection Hq as <-. done.
    + intros id p Hp Ht. by apply Hall.
    + intros p. rewrite Hin. split; [|eauto]. intros [[]%not_elem_of_nil|?]. done.
    + apply Hnd; [apply NoDup_nil_2|]. intros q id []%not_elem_of_nil.
  - intros Hinv%db_wf_inv sid.
    destruct (tryRemove_schema_loop h db sid [] Hinv) as (Hi & Hall & Hin & Hnd).
    fold (TryRemoveBySchemaID h db sid) in Hi, Hall, Hin, Hnd.
    simpl. split_and!.
    + by apply db_wf_inv.
    + intros id p Hp Ht. apply (inv_unknown h); [done|].
      apply eq_None_not_Some. intros [q [Hq Hn]%Hall].
      rewrite Hp in Hq. injection Hq as <-. done.
    + intros id p Hp Ht. by apply Hall.
    + intros p. rewrite Hin. split; [|eauto]. intros [[]%not_elem_of_nil|?]. done.
    + apply Hnd; [apply NoDup_nil_2|]. intros q id []%not_elem_of_nil.
Qed.

(** ** Moving a table to another schema *)

Lemma deref_insert h p s q :
  deref (<[p := s]> h) q = if decide (p = q) then s else deref h q.
Proof.
  unfold deref. destruct (decide (p = q)) as [<-|Hne].
  - by rewrite lookup_total_insert_eq.
  - by rewrite lookup_total_insert_ne.
Qed.

Lemma updateSchemaIDStep_schemaTasks s' h db p :
  schemaTasks (updateSchemaIDStep s' (h, db) p).2 =
  put_inner s' (span_ID (deref h p)) p
    (prune (schemaID (deref h p))
       (delete_inner (schemaID (deref h p)) (span_ID (deref h p)) (schemaTasks db))).
Proof.
  unfold updateSchemaIDStep, GetSchemaID. simpl.
  rewrite deref_insert, decide_True by done. simpl.
  f_equal. unfold prune, delete_inner, inner.
  rewrite lookup_alter_eq.
  destruct (schemaTasks db !! schemaID (deref h p)) as [m|] eqn:E; simpl.
  - assert (alter (delete (span_ID (deref h p))) (schemaID (deref h p)) (schemaTasks db)
            = <[schemaID (deref h p) := delete (span_ID (deref h p)) m]> (schemaTasks db)) as ->.
    { apply map_eq. intros k. destruct (decide (schemaID (deref h p) = k)) as [<-|Hne].
      - by rewrite lookup_alter_eq, lookup_insert_eq, E.
      - by rewrite lookup_alter_ne, lookup_insert_ne. }
    done.
  - rewrite decide_True by apply map_size_empty.
    rewrite delete_id; [|by rewrite lookup_alter_eq, E].
    apply map_eq. intros k. destruct (decide (schemaID (deref h p) = k)) as [<-|Hne].
    + by rewrite lookup_alter_eq, E.
    + by rewrite lookup_alter_ne.
Qed.

Lemma updateSchemaIDStep_inv s' h db p :
  db_inv h db → allTasks db !! span_ID (deref h p) = Some p →
  db_inv (updateSchemaIDStep s' (h, db) p).1 (updateSchemaIDStep s' (h, db) p).2.
Proof.
  intros Hinv Hp.
  pose proof (updateSchemaIDStep_schemaTasks s' h db p) as Hst.
  set (id := span_ID (deref h p)) in *.
  set (r := updateSchemaIDStep s' (h, db) p) in *.
  assert (r.1 = <[p := SetSchemaID s' (deref h p)]> h) as Hh by done.
  assert (allTasks r.2 = allTasks db) as Hall by done.
  assert (tableTasks r.2 = tableTasks db) as Htt by done.
  assert (tracker r.2 = tracker db) as Htr by done.
  assert (ddlSpan r.2 = ddlSpan db) as Hddl by done.
  clearbody r.
  split; rewrite ?Hh, ?Hall, ?Htt, ?Htr, ?Hddl, ?Hst; try apply Hinv.
  - intros id' q Hq. destruct (decide (p = q)) as [<-|Hne].
    + rewrite lookup_insert_eq. eexists. split; [done|]. simpl.
      by apply (inv_deref_ID _ _ _ _ Hinv).
    + rewrite lookup_insert_ne by done. by apply (inv_alloc _ _ Hinv).
  - intros k id' q. rewrite index_lookup_put, deref_insert.
    destruct (decide (s' = k ∧ id = id')) as [[<- <-]|Hn1].
    + split.
      * intros [= <-]. split; [done|]. by rewrite decide_True.
      * intros [Hq _]. congruence.
    + rewrite index_lookup_remove.
      destruct (decide (schemaID (deref h p) = k ∧ id = id')) as [[<- <-]|Hn2].
      * split; [done|]. intros [Hq Hs]. rewrite Hp in Hq. injection Hq as <-.
        rewrite decide_True in Hs by done. simpl in Hs. tauto.
      * rewrite (inv_schema _ _ Hinv).
        destruct (decide (p = q)) as [<-|Hne]; simpl.
        -- split.
           ++ intros [Hq Hs]. exfalso. apply Hn2. split; [done|].
              by apply (inv_deref_ID _ _ _ _ Hinv).
           ++ intros [Hq Hs]. exfalso. apply Hn1. split; [done|].
              by apply (inv_deref_ID _ _ _ _ Hinv).
        -- done.
  - intros k id' q. rewrite (inv_table _ _ Hinv), deref_insert.
    by destruct (decide (p = q)) as [<-|Hne].
  - apply no_empty_put, no_empty_remove, Hinv.
  - destruct (decide (p = ddlSpan db)) as [<-|Hne].
    + by rewrite lookup_insert_eq.
    + rewrite lookup_insert_ne by done. apply Hinv.
Qed.

Lemma UpdateSchemaID_loop s' (L : list ptr) :
  ∀ h db,
    db_inv h db →
    (∀ p, p ∈ L → allTasks db !! span_ID (deref h p) = Some p) →
    let r := foldl (updateSchemaIDStep s') (h, db) L in
    db_inv r.1 r.2 ∧
    allTasks r.2 = allTasks db ∧ tableTasks r.2 = tableTasks db ∧
    tracker r.2 = tracker db ∧ ddlSpan r.2 = ddlSpan db ∧
    (∀ q, deref r.1 q =
          if decide (q ∈ L) then SetSchemaID s' (deref h q) else deref h q).
Proof.
  induction L as [|p L IH]; intros h db Hinv HL; simpl.
  - split_and!; done.
  - assert (allTasks db !! span_ID (deref h p) = Some p) as Hp by (apply HL; left).
    pose proof (updateSchemaIDStep_inv s' h db p Hinv Hp) as Hinv1.
    destruct (updateSchemaIDStep s' (h, db) p) as [h1 db1] eqn:E.
    assert (h1 = <[p := SetSchemaID s' (deref h p)]> h) as Hh1
      by (by injection E as <- _).
    assert (allTasks db1 = allTasks db ∧ tableTasks db1 = tableTasks db ∧
            tracker db1 = tracker db ∧ ddlSpan db1 = ddlSpan db)
      as (Ha1 & Ht1 & Hr1 & Hd1) by (by injection E as _ <-).
    simpl in Hinv1.
    destruct (IH h1 db1 Hinv1) as (Hi & Ha & Ht & Hr & Hd & Hderef).
    { intros q Hq. rewrite Ha1, Hh1, deref_insert.
      destruct (decide (p = q)) as [<-|Hne]; [done|].
      apply HL. by right. }
    split_and!; [done|congruence..|].
    intros q. rewrite Hderef, Hh1, deref_insert.
    destruct (decide (q ∈ L)) as [HqL|HqL], (decide (p = q)) as [<-|Hne],
      (decide (_ ∈ _ :: _)) as [Hc|Hc]; try done;
      rewrite elem_of_cons in Hc; exfalso; naive_solver.
Qed.

(** C5. On a DB that satisfies its invariant, [UpdateSchemaID t s'] gives
    every span of table [t] the schema id [s'] and indexes it in
    [schemaTasks] under [s'] and under no other key; no inner schema map is
    left empty; [allTasks], [tableTasks] and hence [GetTasksByTableIDs t] are
    what they were, spans of other tables are untouched, and the invariant
    still holds. *)
Theorem UpdateSchemaID_reindexes (h : gmap ptr SpanReplication)
    (db : ReplicationDB) (t s' : Z) :
  db_wf h db →
  let r := UpdateSchemaID h db t s' in
  db_wf r.1 r.2 ∧
  (∀ id p, allTasks db !! id = Some p → TableID (Span (deref h p)) = t →
     schemaID (deref r.1 p) = s' ∧
     TableID (Span (deref r.1 p)) = t ∧
     index_lookup (schemaTasks r.2) s' id = Some p ∧
     ∀ k, k ≠ s' → index_lookup (schemaTasks r.2) k id = None) ∧
  (∀ id p, allTasks db !! id = Some p → TableID (Span (deref h p)) ≠ t →
     deref r.1 p = deref h p) ∧
  no_empty (schemaTasks r.2) ∧
  allTasks r.2 = allTasks db ∧
  tableTasks r.2 = tableTasks db ∧
  GetTasksByTableIDs r.2 [t] = GetTasksByTableIDs db [t].
Proof.
  intros Hinv%db_wf_inv. unfold UpdateSchemaID.
  set (L := range_values (inner (tableTasks db) t)). simpl.
  assert (∀ p, p ∈ L → allTasks db !! span_ID (deref h p) = Some p) as HL.
  { intros p (id & Hp & _)%(elem_of_table_values _ _ _ _ Hinv).
    by rewrite (inv_deref_ID _ _ _ _ Hinv Hp). }
  destruct (UpdateSchemaID_loop s' L h db Hinv HL) as (Hi & Ha & Ht & Hr & Hd & Hderef).
  simpl in Hi, Ha, Ht, Hr, Hd, Hderef.
  set (r := foldl (updateSchemaIDStep s') (h, db) L) in *. clearbody r.
  split_and!; try done.
  - by apply db_wf_inv.
  - intros id p Hp Htid.
    assert (p ∈ L) as HpL by (apply (elem_of_table_values _ _ _ _ Hinv); eauto).
    assert (deref r.1 p = SetSchemaID s' (deref h p)) as Hd'
      by (by rewrite Hderef, decide_True).
    rewrite Hd'. simpl. split_and!; [done..| |].
    + apply (inv_schema _ _ Hi). rewrite Ha, Hd'. done.
    + intros k Hk. apply eq_None_not_Some. intros [q Hq].
      apply (inv_schema _ _ Hi) in Hq as [Hq Hs]. rewrite Ha, Hp in Hq.
      injection Hq as <-. rewrite Hd' in Hs. simpl in Hs. congruence.
  - intros id p Hp Htid. rewrite Hderef, decide_False; [done|].
    intros (id' & _ & ?)%(elem_of_table_values _ _ _ _ Hinv). done.
  - apply Hi.
  - unfold GetTasksByTableIDs. simpl. by rewrite Ht.
Qed.

(** ** Replacing replica sets *)

Lemma foldr_min_acc (a b : Z) (l : list Z) :
  foldr Z.min (Z.min a b) l = Z.min b (foldr Z.min a l).
Proof. induction l as [|x l IH]; simpl; [lia|]. rewrite IH. lia. Qed.

(** The first loop succeeds on distinct known replications: they leave the
    DB and the checkpoint ts drops to the minimum. *)
Lemma replaceOlds_ok h (olds : list ptr) :
  ∀ db cp,
    db_inv h db → NoDup olds →
    (∀ p, p ∈ olds → allTasks db !! span_ID (deref h p) = Some p) →
    ∃ db1,
      replaceOlds h db olds cp =
        Ok (db1, foldr Z.min cp ((λ o, CheckpointTs (status (deref h o))) <$> olds)) ∧
      db_inv h db1 ∧ ddlSpan db1 = ddlSpan db ∧
      (∀ id q, allTasks db1 !! id = Some q ↔ allTasks db !! id = Some q ∧ q ∉ olds).
Proof.
  induction olds as [|p L IH]; intros db cp Hinv Hnd HL; simpl.
  - exists db. split_and!; [done..|].
    intros id q. split; [|tauto]. intros ?. split; [done|]. apply not_elem_of_nil.
  - apply NoDup_cons in Hnd as [HpL Hnd].
    assert (allTasks db !! span_ID (deref h p) = Some p) as Hp
      by (apply HL; left).
    rewrite Hp.
    pose proof (removeSpanUnLock_inv _ _ _ Hinv Hp) as Hinv'.
    unfold GetCheckpointTs, GetStatus.
    set (cp' := if decide (cp > CheckpointTs (status (deref h p)))
                then CheckpointTs (status (deref h p)) else cp).
    assert (cp' = Z.min cp (CheckpointTs (status (deref h p)))) as ->.
    { unfold cp'. destruct (decide _); lia. }
    destruct (IH (removeSpanUnLock h db p)
                 (Z.min cp (CheckpointTs (status (deref h p)))) Hinv' Hnd)
      as (db1 & Heq & Hi & Hddl & Hall).
    { intros q Hq. rewrite removeSpanUnLock_allTasks.
      pose proof (HL q (list_elem_of_further _ _ _ Hq)) as Hq'.
      rewrite lookup_delete_ne; [done|].
      intros Heq. rewrite Heq in Hp. rewrite Hp in Hq'.
      injection Hq' as ->. done. }
    exists db1. split_and!; [|done|done|].
    + rewrite Heq. by rewrite foldr_min_acc.
    + intros id q. rewrite Hall, removeSpanUnLock_allTasks, lookup_delete_Some.
      rewrite not_elem_of_cons. split.
      * intros [[Hne Hq] HqL]. split_and!; [done| |done].
        intros ->. apply Hne. exact (inv_deref_ID _ _ _ _ Hinv Hq).
      * intros [Hq [Hne HqL]]. split_and!; [|done..].
        intros <-. apply Hne. congruence.
Qed.

(** The first loop panics as soon as one old replication is unknown. *)
Lemma replaceOlds_panics h (olds : list ptr) :
  ∀ db cp,
    (∃ old, old ∈ olds ∧ allTasks db !! span_ID (deref h old) = None) →
    ∃ msg, replaceOlds h db olds cp = Panic msg.
Proof.
  induction olds as [|p L IH]; intros db cp (old & Hin & Hnone); simpl.
  - by apply not_elem_of_nil in Hin.
  - destruct (allTasks db !! span_ID (deref h p)) as [q|] eqn:Hp; [|eauto].
    apply IH. apply elem_of_cons in Hin as [->|Hin]; [congruence|].
    exists old. split; [done|].
    rewrite removeSpanUnLock_allTasks. apply lookup_delete_None. by right.
Qed.

Lemma deref_weaken (h h' : gmap ptr SpanReplication) p s :
  h ⊆ h' → h !! p = Some s → deref h' p = s.
Proof.
  intros Hsub Hp. unfold deref.
  apply lookup_total_correct. by eapply lookup_weaken.
Qed.

Lemma deref_Some (h : gmap ptr SpanReplication) p s :
  h !! p = Some s → deref h p = s.
Proof. intros Hp. unfold deref. by apply lookup_total_correct. Qed.

(** Allocating more objects does not disturb the DB. *)
Lemma db_inv_weaken h h' db : db_inv h db → h ⊆ h' → db_inv h' db.
Proof.
  intros Hinv Hsub.
  assert (∀ id p, allTasks db !! id = Some p → deref h' p = deref h p) as Hd.
  { intros id p Hp. destruct (inv_alloc _ _ Hinv _ _ Hp) as (s & Hs & _).
    by rewrite (deref_weaken _ _ _ _ Hsub Hs), (deref_Some _ _ _ Hs). }
  split; try apply Hinv.
  - intros id p Hp. destruct (inv_alloc _ _ Hinv _ _ Hp) as (s & Hs & Hid).
    exists s. split; [|done]. by eapply lookup_weaken.
  - intros k id p. rewrite (inv_schema _ _ Hinv). split.
    + intros [Hp Hk]. by rewrite (Hd _ _ Hp).
    + intros [Hp Hk]. by rewrite <- (Hd _ _ Hp).
  - intros k id p. rewrite (inv_table _ _ Hinv). split.
    + intros [Hp Hk]. by rewrite (Hd _ _ Hp).
    + intros [Hp Hk]. by rewrite <- (Hd _ _ Hp).
  - destruct (inv_ddl _ _ Hinv) as [s Hs]. exists s. by eapply lookup_weaken.
Qed.

(** Adding an allocated span under an unused id keeps the invariant. *)
Lemma addAbsentOne_inv h db p s :
  db_inv h db → h !! p = Some s → allTasks db !! span_ID s = None →
  p ≠ ddlSpan db → db_inv h (addAbsentOne h db p).
Proof.
  intros Hinv Hs Hfresh Hddl.
  pose proof (inv_unknown _ _ _ Hinv Hfresh) as (_ & Hst & Htt & Hab & Hsc & Hre).
  unfold addAbsentOne, addToSchemaAndTableMap, GetSchemaID.
  rewrite (deref_Some _ _ _ Hs). set (id := span_ID s) in *.
  split; simpl.
  - intros id' q. destruct (decide (id = id')) as [<-|Hne].
    + rewrite lookup_insert_eq. intros [= <-]. eauto.
    + rewrite lookup_insert_ne by done. apply (inv_alloc _ _ Hinv).
  - intros k id' q. rewrite index_lookup_put.
    destruct (decide (schemaID s = k ∧ id = id')) as [[<- <-]|Hn].
    + rewrite lookup_insert_eq. split; [|naive_solver].
      intros [= <-]. by rewrite (deref_Some _ _ _ Hs).
    + rewrite (inv_schema _ _ Hinv).
      destruct (decide (id = id')) as [<-|Hne].
      * rewrite lookup_insert_eq, Hfresh. split; [naive_solver|].
        intros [[= <-] Hk]. rewrite (deref_Some _ _ _ Hs) in Hk. tauto.
      * by rewrite lookup_insert_ne.
  - intros k id' q. rewrite index_lookup_put.
    destruct (decide (TableID (Span s) = k ∧ id = id')) as [[<- <-]|Hn].
    + rewrite lookup_insert_eq. split; [|naive_solver].
      intros [= <-]. by rewrite (deref_Some _ _ _ Hs).
    + rewrite (inv_table _ _ Hinv).
      destruct (decide (id = id')) as [<-|Hne].
      * rewrite lookup_insert_eq, Hfresh. split; [naive_solver|].
        intros [[= <-] Hk]. rewrite (deref_Some _ _ _ Hs) in Hk. tauto.
      * by rewrite lookup_insert_ne.
  - apply no_empty_put, Hinv.
  - apply no_empty_put, Hinv.
  - intros id' q. destruct (decide (id = id')) as [<-|Hne].
    + rewrite !lookup_insert_eq. intros [= <-]. done.
    + rewrite !lookup_insert_ne by done. apply (inv_absent _ _ Hinv).
  - intros id' q Hq. destruct (inv_scheduling _ _ Hinv _ _ Hq) as (Hall & ? & ?).
    rewrite lookup_insert_ne by congruence. done.
  - intros id' q Hq. destruct (inv_replicating _ _ Hinv _ _ Hq) as (Hall & ?).
    rewrite lookup_insert_ne by congruence. done.
  - apply Hinv.
Qed.

(** The second loop allocates one fresh object per new span, in order, and
    leaves the objects that exist alone. *)
Lemma newReplicas_spec (old : ptr) (so : SpanReplication) (cp : Z)
    (ids : nat → DispatcherID) (newSpans : list TableSpan) :
  ∀ h n,
    h !! old = Some so →
    let r := newReplicas h old newSpans cp ids n in
    h ⊆ r.2 ∧ NoDup r.1 ∧ length r.1 = length newSpans ∧
    (∀ i p, r.1 !! i = Some p →
       h !! p = None ∧
       ∃ span, newSpans !! i = Some span ∧
         r.2 !! p = Some (NewReplicaSet (span_ChangefeedID so) (ids (n + i)%nat)
                            (tsoClient so) (schemaID so) span cp)).
Proof.
  induction newSpans as [|span rest IH]; intros h n Hold; simpl.
  - split_and!; [done|apply NoDup_nil_2|done|]. intros i p. by rewrite lookup_nil.
  - rewrite (deref_Some _ _ _ Hold). unfold GetTsoClient, GetSchemaID.
    set (new := NewReplicaSet _ _ _ _ _ _).
    set (p0 := fresh (dom h)).
    assert (h !! p0 = None) as Hp0 by (apply not_elem_of_dom, is_fresh).
    assert (h ⊆ <[p0 := new]> h) as Hsub by (by apply insert_subseteq).
    destruct (IH (<[p0 := new]> h) (S n)) as (Hsub' & Hnd & Hlen & Hnew).
    { by eapply lookup_weaken. }
    split_and!.
    + by etrans.
    + apply NoDup_cons. split; [|done].
      intros (i & Hi)%list_elem_of_lookup_1.
      destruct (Hnew _ _ Hi) as [Hnone _]. by rewrite lookup_insert_eq in Hnone.
    + by rewrite Hlen.
    + intros [|i] p Hp; simpl in Hp.
      * injection Hp as <-. split; [done|]. exists span. split; [done|].
        rewrite Nat.add_0_r. eapply lookup_weaken; [|done].
        by rewrite lookup_insert_eq.
      * destruct (Hnew _ _ Hp) as (Hnone & span' & Hspan & Hr).
        split.
        -- apply eq_None_not_Some. intros [s Hs].
           by rewrite (lookup_weaken _ _ _ _ Hs Hsub) in Hnone.
        -- exists span'. split; [done|]. by rewrite <- Nat.add_succ_comm.
Qed.

(** What [addAbsentReplicaSetUnLock] does to a map keyed by span id. *)
Lemma addAbsent_maps h (ps : list ptr) :
  ∀ db,
    let ins := foldl (λ (m : gmap DispatcherID ptr) p,
                        <[span_ID (deref h p) := p]> m) in
    let db' := addAbsentReplicaSetUnLock h db ps in
    allTasks db' = ins (allTasks db) ps ∧
    absent (tracker db') = ins (absent (tracker db)) ps ∧
    scheduling (tracker db') = scheduling (tracker db) ∧
    replicating (tracker db') = replicating (tracker db) ∧
    ddlSpan db' = ddlSpan db.
Proof.
  unfold addAbsentReplicaSetUnLock.
  induction ps as [|p ps IH]; intros db; simpl; [done|].
  destruct (IH (addAbsentOne h db p)) as (-> & -> & -> & -> & ->). done.
Qed.

Lemma insert_all_lookup h (ids : nat → DispatcherID) (ps : list ptr) :
  ∀ (m : gmap DispatcherID ptr) n,
    (∀ i p, ps !! i = Some p → span_ID (deref h p) = ids (n + i)%nat) →
    (∀ i, (i < length ps)%nat → m !! ids (n + i)%nat = None) →
    (∀ i j, (i < length ps)%nat → (j < length ps)%nat →
       ids (n + i)%nat = ids (n + j)%nat → i = j) →
    ∀ id q,
      foldl (λ (m : gmap DispatcherID ptr) p, <[span_ID (deref h p) := p]> m) m ps
        !! id = Some q ↔
      m !! id = Some q ∨ ∃ i, ps !! i = Some q ∧ id = ids (n + i)%nat.
Proof.
  induction ps as [|p ps IH]; intros m n Hps Hfresh Hinj id q; simpl.
  - split; [tauto|]. intros [?|(i & Hi & _)]; [done|]. by rewrite lookup_nil in Hi.
  - pose proof (Hps 0%nat p eq_refl) as Hid. rewrite Nat.add_0_r in Hid.
    rewrite Hid.
    rewrite (IH (<[ids n := p]> m) (S n)).
    + split.
      * intros [Hq|(i & Hi & ->)].
        -- apply lookup_insert_Some in Hq as [[<- <-]|[_ Hq]]; [|by left].
           right. exists 0%nat. by rewrite Nat.add_0_r.
        -- right. exists (S i). split; [done|]. f_equal. lia.
      * intros [Hq|([|i] & Hi & ->)].
        -- left. rewrite lookup_insert_ne; [done|]. intros <-.
           rewrite <- (Nat.add_0_r n) in Hq.
           rewrite Hfresh in Hq; [done|simpl; lia].
        -- left. simpl in Hi. injection Hi as <-.
           by rewrite Nat.add_0_r, lookup_insert_eq.
        -- right. exists i. split; [done|]. f_equal. lia.
    + intros i r Hr. rewrite (Hps (S i) r Hr). f_equal. lia.
    + intros i Hi. rewrite lookup_insert_ne.
      * replace (S n + i)%nat with (n + S i)%nat by lia. apply Hfresh. simpl. lia.
      * intros Heq. replace (S n + i)%nat with (n + S i)%nat in Heq by lia.
        rewrite <- (Nat.add_0_r n) in Heq at 1.
        apply Hinj in Heq; simpl; lia.
    + intros i j Hi Hj Heq.
      replace (S n + i)%nat with (n + S i)%nat in Heq by lia.
      replace (S n + j)%nat with (n + S j)%nat in Heq by lia.
      apply Hinj in Heq; simpl; lia.
Qed.

(** Adding distinct allocated spans under distinct unused ids keeps the
    invariant. *)
Lemma addAbsent_loop_inv h (ids : nat → DispatcherID) (ps : list ptr) :
  ∀ db n,
    db_inv h db →
    (∀ i p, ps !! i = Some p →
       p ≠ ddlSpan db ∧ ∃ s, h !! p = Some s ∧ span_ID s = ids (n + i)%nat) →
    (∀ i, (i < length ps)%nat → allTasks db !! ids (n + i)%nat = None) →
    (∀ i j, (i < length ps)%nat → (j < length ps)%nat →
       ids (n + i)%nat = ids (n + j)%nat → i = j) →
    db_inv h (addAbsentReplicaSetUnLock h db ps).
Proof.
  unfold addAbsentReplicaSetUnLock.
  induction ps as [|p ps IH]; intros db n Hinv Hps Hfresh Hinj; simpl; [done|].
  destruct (Hps 0%nat p eq_refl) as (Hddl & s & Hs & Hid).
  rewrite Nat.add_0_r in Hid.
  assert (allTasks db !! span_ID s = None) as Hnone.
  { rewrite Hid. rewrite <- (Nat.add_0_r n). apply Hfresh. simpl. lia. }
  pose proof (addAbsentOne_inv _ _ _ _ Hinv Hs Hnone Hddl) as Hinv1.
  assert (allTasks (addAbsentOne h db p) = <[ids n := p]> (allTasks db)) as Hall1.
  { unfold addAbsentOne. simpl. by rewrite (deref_Some _ _ _ Hs), Hid. }
  apply (IH (addAbsentOne h db p) (S n) Hinv1).
  - intros i q Hq. replace (S n + i)%nat with (n + S i)%nat by lia.
    by apply (Hps (S i)).
  - intros i Hi. rewrite Hall1, lookup_insert_ne.
    + replace (S n + i)%nat with (n + S i)%nat by lia. apply Hfresh. simpl. lia.
    + intros Heq. replace (S n + i)%nat with (n + S i)%nat in Heq by lia.
      rewrite <- (Nat.add_0_r n) in Heq at 1.
      apply Hinj in Heq; simpl; lia.
  - intros i j Hi Hj Heq.
    replace (S n + i)%nat with (n + S i)%nat in Heq by lia.
    replace (S n + j)%nat with (n + S j)%nat in Heq by lia.
    apply Hinj in Heq; simpl; lia.
Qed.

(** C8. [ReplaceReplicaSet] panics whenever one of the old replications has
    an id the DB does not hold, and it panics on an empty list of old
    replications; in neither case does it return. *)
Theorem ReplaceReplicaSet_rejects (h : gmap ptr SpanReplication)
    (db : ReplicationDB) (newSpans : list TableSpan) (ts : Z)
    (ids : nat → DispatcherID) :
  (∀ olds : list ptr,
     (∃ old, old ∈ olds ∧ allTasks db !! span_ID (deref h old) = None) →
     ∃ msg, ReplaceReplicaSet h db olds newSpans ts ids = Panic msg) ∧
  (∃ msg, ReplaceReplicaSet h db [] newSpans ts ids = Panic msg).
Proof.
  split.
  - intros olds Hmiss. unfold ReplaceReplicaSet.
    destruct (replaceOlds_panics h olds db ts Hmiss) as [msg ->]. eauto.
  - unfold ReplaceReplicaSet. simpl. eauto.
Qed.

(** C1, as the code has it.  On a DB that satisfies its invariant, for a
    non-empty list of pairwise distinct old replications that the DB holds,
    and with fresh dispatcher ids drawn for the new spans,
    [ReplaceReplicaSet] returns; afterwards every old id is in none of the
    maps of the DB, each new table span has one span object in [allTasks] and
    in the absent partition, built from the changefeed id, TSO client and
    schema id of the first old replication with checkpoint ts
    [min(ts, min of the old checkpoint ts)]; the other tasks stay. *)
Theorem ReplaceReplicaSet_replaces (h : gmap ptr SpanReplication)
    (db : ReplicationDB) (old : ptr) (olds : list ptr)
    (newSpans : list TableSpan) (ts : Z) (ids : nat → DispatcherID) :
  db_wf h db →
  NoDup (old :: olds) →
  (∀ o, o ∈ old :: olds → allTasks db !! span_ID (deref h o) = Some o) →
  (∀ i, (i < length newSpans)%nat → allTasks db !! ids i = None) →
  (∀ i j, (i < length newSpans)%nat → (j < length newSpans)%nat →
     ids i = ids j → i = j) →
  ∃ h' db',
    ReplaceReplicaSet h db (old :: olds) newSpans ts ids = Ok (h', db') ∧
    db_wf h' db' ∧ h ⊆ h' ∧
    (∀ o, o ∈ old :: olds → unknown_id db' (span_ID (deref h o))) ∧
    (∀ i span, newSpans !! i = Some span →
       ∃ p, allTasks db' !! ids i = Some p ∧
            absent (tracker db') !! ids i = Some p ∧
            deref h' p =
              NewReplicaSet (span_ChangefeedID (deref h old)) (ids i)
                (tsoClient (deref h old)) (schemaID (deref h old)) span
                (foldr Z.min ts
                   ((λ o, CheckpointTs (status (deref h o))) <$> old :: olds))) ∧
    (∀ id q, allTasks db' !! id = Some q ↔
       (allTasks db !! id = Some q ∧ q ∉ old :: olds) ∨
       (∃ i, (i < length newSpans)%nat ∧ id = ids i ∧
             absent (tracker db') !! id = Some q)).
Proof.
  intros Hinv%db_wf_inv Hnd Holds Hfresh Hinj.
  set (cp := foldr Z.min ts ((λ o, CheckpointTs (status (deref h o))) <$> old :: olds)).
  destruct (replaceOlds_ok h (old :: olds) db ts Hinv Hnd Holds)
    as (db1 & Heq & Hinv1 & Hddl1 & Hall1).
  fold cp in Heq.
  destruct (inv_alloc _ _ Hinv _ _ (Holds old (list_elem_of_here _ _)))
    as (so & Hso & _).
  destruct (newReplicas_spec old so cp ids newSpans h 0%nat Hso)
    as (Hsub & Hndp & Hlen & Hnew).
  set (r := newReplicas h old newSpans cp ids 0) in *.
  assert (∀ i p, r.1 !! i = Some p → span_ID (deref r.2 p) = ids (0 + i)%nat) as Hids.
  { intros i p Hp. destruct (Hnew _ _ Hp) as (_ & span & _ & Hr).
    by rewrite (deref_Some _ _ _ Hr). }
  assert (∀ i, (i < length r.1)%nat → allTasks db1 !! ids (0 + i)%nat = None) as Hfresh1.
  { intros i Hi. apply eq_None_not_Some. intros [q [Hq _]%Hall1].
    rewrite Hfresh in Hq; [done|]. by rewrite <- Hlen. }
  assert (∀ i j, (i < length r.1)%nat → (j < length r.1)%nat →
            ids (0 + i)%nat = ids (0 + j)%nat → i = j) as Hinj1.
  { intros i j Hi Hj. rewrite Hlen in Hi, Hj. by apply Hinj. }
  pose proof (db_inv_weaken _ _ _ Hinv1 Hsub) as Hinv1'.
  assert (db_inv r.2 (addAbsentReplicaSetUnLock r.2 db1 r.1)) as Hinv'.
  { apply (addAbsent_loop_inv r.2 ids r.1 db1 0%nat Hinv1'); [|done..].
    intros i p Hp. destruct (Hnew _ _ Hp) as (Hnone & span & _ & Hr). split.
    - intros ->. rewrite Hddl1 in Hnone.
      destruct (inv_ddl _ _ Hinv) as [? ?]. congruence.
    - eexists. split; [done|]. done. }
  destruct (addAbsent_maps r.2 r.1 db1) as (Ha & Hab & _ & _ & _).
  simpl in Ha, Hab.
  pose proof (insert_all_lookup r.2 ids r.1 (allTasks db1) 0%nat Hids Hfresh1 Hinj1)
    as Hla.
  assert (∀ i, (i < length r.1)%nat → absent (tracker db1) !! ids (0 + i)%nat = None)
    as Hfresh2.
  { intros i Hi. apply eq_None_not_Some. intros [q Hq].
    apply (inv_absent _ _ Hinv1) in Hq as [Hq _]. by rewrite Hfresh1 in Hq. }
  pose proof (insert_all_lookup r.2 ids r.1 (absent (tracker db1)) 0%nat
                Hids Hfresh2 Hinj1) as Hlb.
  rewrite <- Ha in Hla. rewrite <- Hab in Hlb.
  set (db' := addAbsentReplicaSetUnLock r.2 db1 r.1) in *.
  exists r.2, db'. split_and!.
  - unfold ReplaceReplicaSet. rewrite Heq. reflexivity.
  - by apply db_wf_inv.
  - done.
  - intros o Ho. apply (inv_unknown r.2); [done|].
    apply eq_None_not_Some. intros [q [Hq|(i & Hi & Hid)]%Hla].
    + apply Hall1 in Hq as [Hq Hn]. rewrite (Holds o Ho) in Hq.
      injection Hq as <-. done.
    + pose proof (Holds o Ho) as Ho'. rewrite Hid in Ho'.
      rewrite Hfresh in Ho'; [done|].
      rewrite <- Hlen. by eapply lookup_lt_Some.
  - intros i span Hspan.
    destruct (lookup_lt_is_Some_2 r.1 i) as [p Hp].
    { rewrite Hlen. by eapply lookup_lt_Some. }
    exists p. split_and!.
    + apply Hla. right. eauto.
    + apply Hlb. right. eauto.
    + destruct (Hnew _ _ Hp) as (_ & span' & Hspan' & Hr).
      rewrite Hspan in Hspan'. injection Hspan' as <-.
      rewrite (deref_Some _ _ _ Hr), (deref_Some _ _ _ Hso). done.
  - intros id q. rewrite Hla, Hall1. split.
    + intros [?|(i & Hi & ->)]; [by left|]. right. exists i. split_and!.
      * rewrite <- Hlen. by eapply lookup_lt_Some.
      * done.
      * apply Hlb. right. eauto.
    + intros [?|(i & Hi & -> & Hq)]; [by left|]. right.
      apply Hlb in Hq as [Hq|?]; [|done].
      rewrite <- Hlen in Hi. pose proof (Hfresh2 i Hi) as Hn. simpl in Hn. congruence.
Qed.

(** ** Barrier events: creation and writer election *)

(** C6. A new barrier event gets: for influence DB without dynamic split, a
    count checker expecting the number of tasks of the schema plus one; for
    influence All with dynamic split, a span checker whose expected table ids
    are the DDL sentinel and the table ids of all current tasks; for influence
    All without dynamic split, a count checker expecting the total task
    count. *)
Theorem NewBlockEvent_rangeChecker (h : gmap ptr SpanReplication)
    (cf : ChangeFeedID) (c : Controller) (st : State) (bt : InfluencedTables)
    (now : Time) :
  BlockTables st = Some bt →
  (InfluenceType_of bt = InfluenceType_DB →
     rangeChecker (NewBlockEvent h cf c st false now) =
       Some (CountChecker
               {| needCount :=
                    GetTaskSizeBySchemaID (replicationDB c) (SchemaID bt) + 1;
                  reportedMap := ∅ |})) ∧
  (InfluenceType_of bt = InfluenceType_All →
     ∃ sc, rangeChecker (NewBlockEvent h cf c st true now) = Some (SpanChecker sc) ∧
       ∀ t, t ∈ dom (tableSpans sc) ↔
            t = DDLSpan_TableID ∨
            ∃ id p, allTasks (replicationDB c) !! id = Some p ∧
                    TableID (Span (deref h p)) = t) ∧
  (InfluenceType_of bt = InfluenceType_All →
     rangeChecker (NewBlockEvent h cf c st false now) =
       Some (CountChecker
               {| needCount := TaskSize (replicationDB c); reportedMap := ∅ |})).
Proof.
  intros Hbt. unfold NewBlockEvent. simpl. rewrite Hbt. split_and!.
  - by intros ->.
  - intros ->. eexists. split; [reflexivity|]. simpl.
    intros t. rewrite dom_gset_to_gmap, elem_of_list_to_set, elem_of_app.
    rewrite list_elem_of_fmap, list_elem_of_singleton.
    unfold GetAllTasks. setoid_rewrite elem_of_range_values. naive_solver.
  - by intros ->.
Qed.


(** ** Barrier events: resending *)

Lemma time_Sub_lt (t u : Time) : time_Sub t u < Second ↔ t - u < Second.
Proof.
  unfold time_Sub, minDuration, maxDuration, Second.
  change (2 ^ 63) with 9223372036854775808. lia.
Qed.

Lemma msg_actions_newPass be bd n :
  msg_actions (newPassActionMessage be bd n) = [Action_Pass].
Proof. reflexivity. Qed.

Lemma msg_actions_newWriter be n :
  msg_actions (newWriterActionMessage be n) = [Action_Write].
Proof. reflexivity. Qed.

Lemma msg_actions_append id m :
  msg_actions (appendDispatcherID id m) = msg_actions m.
Proof.
  unfold appendDispatcherID, msg_actions. destruct m as [to topic msgs]. simpl.
  destruct msgs as [|[cf [|ds dss]] rest]; reflexivity.
Qed.

(** Every message of [sendPassAction] is a Pass message. *)
Lemma sendPassAction_pass h c be m :
  m ∈ sendPassAction h c be → msg_actions m = [Action_Pass].
Proof.
  unfold sendPassAction. destruct (blockedDispatchers be) as [bd|];
    [|by intros ?%not_elem_of_nil].
  intros (n & Hn)%elem_of_range_values.
  match type of Hn with
  | ?M !! _ = _ =>
      cut (map_Forall (λ _ m, msg_actions m = [Action_Pass]) M);
        [intros HF; exact (HF _ _ Hn)|]
  end.
  clear Hn.
  destruct (InfluenceType_of bd).
  - generalize (GetTasksByTableIDs (replicationDB c) (TableIDs bd)).
    intros l. generalize (map_Forall_empty (M := gmap NodeID)
                            (λ _ m, msg_actions m = [Action_Pass])).
    generalize (∅ : gmap NodeID TargetMessage).
    induction l as [|stm l IH]; intros mm Hmm; simpl; [done|].
    apply IH. destruct (decide _); [done|].
    apply map_Forall_insert_2; [|done]. rewrite msg_actions_append.
    destruct (mm !! _) as [msg|] eqn:E; [by apply (Hmm _ _ E)|done].
  - generalize (GetTasksBySchemaID (replicationDB c) (SchemaID bd)).
    intros l. generalize (map_Forall_empty (M := gmap NodeID)
                            (λ _ m, msg_actions m = [Action_Pass])).
    generalize (∅ : gmap NodeID TargetMessage).
    induction l as [|stm l IH]; intros mm Hmm; simpl; [done|].
    apply IH. destruct (decide _); [done|].
    destruct (mm !! _) as [msg|] eqn:E; [done|].
    by apply map_Forall_insert_2.
  - generalize (GetAllNodes c).
    intros l. generalize (map_Forall_empty (M := gmap NodeID)
                            (λ _ m, msg_actions m = [Action_Pass])).
    generalize (∅ : gmap NodeID TargetMessage).
    induction l as [|stm l IH]; intros mm Hmm; simpl; [done|].
    apply IH. by apply map_Forall_insert_2.
Qed.

Arguments resend : simpl never.
Arguments resendWarning : simpl never.

Arguments deferred : simpl never.

Lemma resendWarning_lastResendTime clk be n :
  lastResendTime (resendWarning clk (be, n)).2.1 = lastResendTime be.
Proof.
  unfold resendWarning. destruct (decide _); [|done]. by destruct (rangeChecker be).
Qed.

Lemma sent_deferred msgs w : sent (deferred msgs w).1 = [] ∨ sent (deferred msgs w).1 = msgs.
Proof. unfold deferred. destruct w.1; simpl; auto. Qed.

Lemma deferred_state msgs w : (deferred msgs w).2 = w.2.
Proof. reflexivity. Qed.

(** One tick.  Nothing is sent before selection; between selection and the
    writer's advance only Write messages are sent; Pass messages need the
    advance.  A tick that sends anything comes at least one second after the
    recorded last resend and records the next clock reading. *)
Lemma resend_tick clk h c be n :
  let r := resend clk h c (be, n) in
  (selected be = false → sent r.1 = []) ∧
  (selected be = true → writerDispatcherAdvanced be = false →
     ∀ m, m ∈ sent r.1 → msg_actions m = [Action_Write]) ∧
  (∀ m, m ∈ sent r.1 → Action_Pass ∈ msg_actions m →
     selected be = true ∧ writerDispatcherAdvanced be = true) ∧
  ((sent r.1 = [] ∧ lastResendTime r.2.1 = lastResendTime be) ∨
   (Second ≤ clk n - lastResendTime be ∧ lastResendTime r.2.1 = clk (S n))).
Proof.
  unfold resend.
  destruct (decide (time_Sub (clk n) (lastResendTime be) < Second)) as [Hlt|Hge].
  { simpl. split_and!; try done; [by intros _ _ m ?%not_elem_of_nil|
                                   by intros m ?%not_elem_of_nil|by left]. }
  rewrite time_Sub_lt in Hge.
  destruct (selected be) eqn:Hsel; cbn [negb].
  2:{ rewrite deferred_state, resendWarning_lastResendTime.
      assert (sent (deferred [] (resendWarning clk (be, S n))).1 = []) as ->
        by (by destruct (sent_deferred [] (resendWarning clk (be, S n)))).
      split_and!; try done; [by intros m ?%not_elem_of_nil|by left]. }
  rewrite deferred_state, resendWarning_lastResendTime.
  cbn [lastResendTime set_lastResendTime writerDispatcherAdvanced writerDispatcher].
  match goal with
  | |- context [deferred ?msgs ?w] =>
      assert (∀ m, m ∈ sent (deferred msgs w).1 → m ∈ msgs) as Hsub
        by (intros m; destruct (sent_deferred msgs w) as [-> | ->];
            [by intros ?%not_elem_of_nil|done]);
      revert Hsub; generalize (sent (deferred msgs w).1)
  end.
  intros l Hsub.
  destruct (writerDispatcherAdvanced be) eqn:Hadv; cbn [negb] in Hsub.
  - split_and!; try done. right. lia.
  - assert (∀ m, m ∈ l → msg_actions m = [Action_Write]) as Hw.
    { intros m Hm%Hsub. destruct (GetTask c (writerDispatcher be)) as [stm|];
        [|by apply not_elem_of_nil in Hm].
      destruct (decide _); [by apply not_elem_of_nil in Hm|].
      by apply list_elem_of_singleton in Hm as ->. }
    split_and!; try done.
    + intros m Hm. rewrite (Hw m Hm). intros [=]%list_elem_of_singleton.
    + right. lia.
Qed.

Section runs.
Variable clk : nat → Time.
Hypothesis clk_mono : ∀ i j, (i ≤ j)%nat → clk i ≤ clk j.

(** What every observation of a run satisfies. *)
Lemma run_ticks (steps : list Step) :
  ∀ s o, o ∈ run clk s steps →
    (obs_selected o = false → obs_msgs o = []) ∧
    (obs_selected o = true → obs_advanced o = false →
       ∀ m, m ∈ obs_msgs o → msg_actions m = [Action_Write]) ∧
    (∀ m, m ∈ obs_msgs o → Action_Pass ∈ msg_actions m →
       obs_selected o = true ∧ obs_advanced o = true).
Proof.
  induction steps as [|[h c|be' reads] rest IH]; intros [be n] o; simpl.
  - by intros ?%not_elem_of_nil.
  - intros [->|Hin]%elem_of_cons; [|by eapply IH].
    simpl. destruct (resend_tick clk h c be n) as (H1 & H2 & H3 & _). done.
  - apply IH.
Qed.

(** Non-empty ticks are a second apart, and a second after any time that
    the recorded last resend is not before. *)
Lemma run_rate (steps : list Step) :
  ∀ be n t0, t0 ≤ lastResendTime be →
    (∀ o, o ∈ run clk (be, n) steps → obs_msgs o ≠ [] →
       Second ≤ obs_time o - t0) ∧
    (∀ i j oi oj, (i < j)%nat →
       run clk (be, n) steps !! i = Some oi →
       run clk (be, n) steps !! j = Some oj →
       obs_msgs oi ≠ [] → obs_msgs oj ≠ [] →
       Second ≤ obs_time oj - obs_time oi).
Proof.
  induction steps as [|[h c|be' reads] rest IH]; intros be n t0 Ht0; simpl.
  - split; [by intros o ?%not_elem_of_nil|]. intros i j oi oj _. by rewrite lookup_nil.
  - destruct (resend_tick clk h c be n) as (_ & _ & _ & Hlast).
    destruct (resend clk h c (be, n)) as [msgs [be1 n1]] eqn:E.
    simpl in Hlast |- *.
    assert (0 < Second) as Hsec by done.
    pose proof (clk_mono n (S n) (Nat.le_succ_diag_r n)) as Hmono.
    assert (t0 ≤ lastResendTime be1) as Ht1
      by (destruct Hlast as [[_ ->]|[? ->]]; lia).
    destruct (IH be1 n1 t0 Ht1) as [IHa IHb].
    split.
    + intros o [->|Hin]%elem_of_cons; [|by apply IHa].
      simpl. intros Hne. destruct Hlast as [[? _]|[? _]]; [done|lia].
    + intros [|i] [|j] oi oj Hij; simpl; try lia.
      * intros [= <-] Hj. simpl. intros Hne Hnej.
        destruct Hlast as [[? _]|[Hge Hl]]; [done|].
        destruct (IH be1 n1 (clk n)) as [IHa' _]; [lia|].
        apply IHa'; [|done]. by eapply list_elem_of_lookup_2.
      * apply IHb. lia.
  - apply IH. done.
Qed.

(** C3. In every run of resend ticks, interleaved with arbitrary updates of
    the event by the rest of the engine: a tick sends nothing while the event
    is not selected; while it is selected and the writer has not advanced, a
    tick sends only Write messages; a message with a Pass action is sent only
    when the writer has advanced; and two ticks that both send something are
    at least one second apart. *)
Theorem resend_order_and_rate (be : BarrierEvent) (n : nat) (steps : list Step) :
  let tr := run clk (be, n) steps in
  (∀ o, o ∈ tr → obs_selected o = false → obs_msgs o = []) ∧
  (∀ o m, o ∈ tr → obs_selected o = true → obs_advanced o = false →
     m ∈ obs_msgs o → msg_actions m = [Action_Write]) ∧
  (∀ o m, o ∈ tr → m ∈ obs_msgs o → Action_Pass ∈ msg_actions m →
     obs_selected o = true ∧ obs_advanced o = true) ∧
  (∀ i j oi oj, (i < j)%nat → tr !! i = Some oi → tr !! j = Some oj →
     obs_msgs oi ≠ [] → obs_msgs oj ≠ [] →
     Second ≤ obs_time oj - obs_time oi).
Proof.
  simpl. split_and!.
  - intros o Ho. by destruct (run_ticks steps _ _ Ho) as (? & _ & _).
  - intros o m Ho Hs Ha Hm.
    destruct (run_ticks steps _ _ Ho) as (_ & H2 & _). by apply H2.
  - intros o m Ho. destruct (run_ticks steps _ _ Ho) as (_ & _ & H3). apply H3.
  - apply (run_rate steps be n (lastResendTime be)). lia.
Qed.
End runs.

(** ** Heartbeat routing *)

Arguments UpdateOperatorStatus : simpl never.

Lemma UpdateOperatorStatus_None id from st oc id' :
  operators (UpdateOperatorStatus id from st oc) !! id' = None ↔
  operators oc !! id' = None.
Proof.
  unfold UpdateOperatorStatus. cbn [operators].
  destruct (decide (id = id')) as [<-|Hne].
  - rewrite lookup_alter_eq. by destruct (operators oc !! id).
  - by rewrite lookup_alter_ne.
Qed.

Lemma UpdateOperatorStatus_absent id from st oc :
  operators oc !! id = None → UpdateOperatorStatus id from st oc = oc.
Proof.
  intros Hnone. destruct oc as [ops]. unfold UpdateOperatorStatus.
  cbn [operators] in *. f_equal. apply map_eq. intros id'. destruct (decide (id = id')) as [<-|Hne].
  - by rewrite lookup_alter_eq, Hnone.
  - by rewrite lookup_alter_ne.
Qed.

Lemma handleStatusStep_same_routing from h c s st :
  same_routing h c s → same_routing h c (handleStatusStep from s st).
Proof.
  destruct s as [[h1 c1] out]. intros (Hdb & Hcf & Hal & Hdd & Hops & Hnode).
  simpl in Hdb, Hcf, Hal, Hdd, Hops, Hnode.
  unfold handleStatusStep, GetTask, GetOperator. simpl.
  assert (∀ id, operators (UpdateOperatorStatus (ID st) from st
                             (operatorController c1)) !! id = None ↔
                operators (operatorController c) !! id = None) as Hops'.
  { intros id. by rewrite UpdateOperatorStatus_None. }
  destruct (GetTaskByID (replicationDB c1) (ID st)) as [stm|].
  - destruct (decide _); [done|]. split_and!; try done. simpl.
    intros p. rewrite deref_insert.
    destruct (decide (stm = p)) as [<-|]; [|done]. simpl. apply Hnode.
  - destruct (decide _); [done|]. by case_match.
Qed.

Lemma HandleStatus_same_routing from l h c :
  same_routing h c (HandleStatus from l h c).
Proof.
  unfold HandleStatus.
  assert (same_routing h c (h, c, [])) as H0 by done.
  revert H0. generalize (h, c, @nil RemoveDispatcherMessage).
  induction l as [|st l IH]; intros s Hs; simpl; [done|].
  apply IH. by apply handleStatusStep_same_routing.
Qed.

(** C7. For every status [st] of the list given to [HandleStatus], with [s1]
    the state reached before [st] and [s2] the state after it: if the DB does
    not know the dispatcher id and no operator exists for it, nothing is
    mutated and a RemoveDispatcher command for that id goes to the reporting
    node exactly when the reported state is Working; if an operator exists, no
    command is sent; and if the DB knows the span on another node than the
    reporting one, no command is sent and neither the span objects nor the DB
    change. *)
Theorem HandleStatus_orphan_and_mismatch (from : NodeID)
    (l1 : list TableSpanStatus) (st : TableSpanStatus)
    (l2 : list TableSpanStatus) (h : gmap ptr SpanReplication) (c : Controller) :
  let s1 := HandleStatus from l1 h c in
  let s2 := handleStatusStep from s1 st in
  HandleStatus from (l1 ++ st :: l2) h c = foldl (handleStatusStep from) s2 l2 ∧
  (GetTask c (ID st) = None →
   GetOperator (operatorController c) (ID st) = None →
     s2.1 = s1.1 ∧
     s2.2 = s1.2 ++
       (if decide (ComponentStatus st = ComponentState_Working)
        then [NewRemoveDispatcherMessage from (controller_changefeedID c) (ID st)]
        else [])) ∧
  (GetTask c (ID st) = None →
   is_Some (GetOperator (operatorController c) (ID st)) →
     s2.1.1 = s1.1.1 ∧ s2.2 = s1.2) ∧
  (∀ p, GetTask c (ID st) = Some p → nodeID (deref h p) ≠ from →
     s2.1.1 = s1.1.1 ∧
     replicationDB s2.1.2 = replicationDB s1.1.2 ∧
     s2.2 = s1.2).
Proof.
  simpl. pose proof (HandleStatus_same_routing from l1 h c) as Hsame.
  split; [unfold HandleStatus; by rewrite foldl_app|].
  destruct (HandleStatus from l1 h c) as [[h1 c1] out].
  destruct Hsame as ((_ & Hall & _) & Hcf & _ & _ & Hops & Hnode).
  simpl in Hall, Hcf, Hops, Hnode.
  unfold handleStatusStep, GetTask, GetOperator, GetTaskByID.
  cbn [fst snd replicationDB operatorController controller_changefeedID].
  rewrite Hall, Hcf.
  split_and!.
  - intros -> Hop. apply Hops in Hop.
    rewrite (UpdateOperatorStatus_absent _ _ _ _ Hop), Hop.
    destruct c1. cbn [replicationDB operatorController controller_changefeedID
                      aliveNodes ddlDispatcherID] in *. subst.
    destruct (decide (ComponentStatus st ≠ _)), (decide (ComponentStatus st = _));
      cbn [fst snd]; try done. by rewrite app_nil_r.
  - intros -> Hop.
    assert (is_Some (operators (UpdateOperatorStatus (ID st) from st
                                 (operatorController c1)) !! ID st)) as [op ->].
    { apply not_eq_None_Some. rewrite UpdateOperatorStatus_None, Hops.
      by apply not_eq_None_Some. }
    by destruct (decide _).
  - intros p -> Hne. unfold GetNodeID. rewrite Hnode.
    by rewrite decide_True.
Qed.

(** ** The invariant is the DB's own *)

(** A fresh DB satisfies it and the mutations modelled here keep it: together
    with [removeSpanUnLock_inv], [addAbsent_loop_inv],
    [updateSchemaIDStep_inv] and what is proved above of the removals, of
    [UpdateSchemaID] and of [ReplaceReplicaSet], this is why the properties of
    the DB assume it. *)

(** The DB of a fresh changefeed satisfies the invariant. *)
Lemma NewReplicaSetDB_wf (h : gmap ptr SpanReplication) (cf : ChangeFeedID)
    (ddl : ptr) :
  is_Some (h !! ddl) → db_wf h (NewReplicaSetDB h cf ddl).
Proof.
  intros [s Hs]. apply db_wf_inv.
  unfold NewReplicaSetDB, putDDLDispatcher. rewrite (deref_Some _ _ _ Hs).
  assert (∀ (k : Z) idx id p,
            idx = <[k := {[span_ID s := ddl]}]> (∅ : gmap Z (gmap DispatcherID ptr)) →
            index_lookup idx k id = Some p ↔ id = span_ID s ∧ p = ddl) as Hsame.
  { intros k idx id p ->. unfold index_lookup. rewrite lookup_insert_eq. simpl.
    rewrite lookup_singleton_Some. naive_solver. }
  assert (∀ (k k' : Z) idx id,
            idx = <[k := {[span_ID s := ddl]}]> (∅ : gmap Z (gmap DispatcherID ptr)) →
            k ≠ k' → index_lookup idx k' id = None) as Hother.
  { intros k k' idx id -> Hne. unfold index_lookup.
    by rewrite lookup_insert_ne, lookup_empty. }
  split; simpl; try done.
  - intros id p [[<- <-]|[_ [=]]]%lookup_insert_Some. eauto.
  - intros k id p. rewrite lookup_insert_Some, lookup_empty.
    destruct (decide (schemaID s = k)) as [<-|Hne].
    + rewrite (Hsame _ _ _ _ eq_refl). split.
      * intros [-> ->]. rewrite (deref_Some _ _ _ Hs). naive_solver.
      * naive_solver.
    + rewrite (Hother _ _ _ _ eq_refl Hne). split; [done|].
      intros [[[<- <-]|[_ [=]]] Hk]. by rewrite (deref_Some _ _ _ Hs) in Hk.
  - intros k id p. rewrite lookup_insert_Some, lookup_empty.
    destruct (decide (TableID (Span s) = k)) as [<-|Hne].
    + rewrite (Hsame _ _ _ _ eq_refl). split.
      * intros [-> ->]. rewrite (deref_Some _ _ _ Hs). naive_solver.
      * naive_solver.
    + rewrite (Hother _ _ _ _ eq_refl Hne). split; [done|].
      intros [[[<- <-]|[_ [=]]] Hk]. by rewrite (deref_Some _ _ _ Hs) in Hk.
  - intros k m [[<- <-]|[_ [=]]]%lookup_insert_Some.
    apply insert_non_empty.
  - intros k m [[<- <-]|[_ [=]]]%lookup_insert_Some.
    apply insert_non_empty.
Qed.

Lemma ForceRemove_wf h db id : db_wf h db → db_wf h (ForceRemove h db id).
Proof.
  intros Hinv%db_wf_inv. apply db_wf_inv. unfold ForceRemove.
  destruct (allTasks db !! id) as [p|] eqn:Hp; [|done].
  apply removeSpanUnLock_inv; [done|].
  by rewrite (inv_deref_ID _ _ _ _ Hinv Hp).
Qed.

Lemma TryRemoveAll_wf h db : db_wf h db → db_wf h (TryRemoveAll h db).2.
Proof.
  intros Hinv%db_wf_inv.
  apply (NewReplicaSetDB_wf h (changefeedID db) (ddlSpan db)), Hinv.
Qed.

Lemma UpdateStatus_wf h db p st :
  db_wf h db → db_wf (UpdateStatus h db p st).1 (UpdateStatus h db p st).2.
Proof.
  intros Hinv%db_wf_inv. apply db_wf_inv. unfold UpdateStatus. cbn [fst snd].
  assert (∀ q, schemaID (deref (<[p := span_UpdateStatus st (deref h p)]> h) q)
               = schemaID (deref h q) ∧
               Span (deref (<[p := span_UpdateStatus st (deref h p)]> h) q)
               = Span (deref h q)) as Hd.
  { intros q. rewrite deref_insert. by destruct (decide (p = q)) as [<-|]. }
  split; try apply Hinv.
  - intros id q Hq. destruct (inv_alloc _ _ Hinv _ _ Hq) as (s & Hs & Hid).
    destruct (decide (p = q)) as [<-|Hne].
    + rewrite lookup_insert_eq. eexists. split; [done|]. simpl.
      by rewrite (deref_Some _ _ _ Hs).
    + rewrite lookup_insert_ne by done. eauto.
  - intros k id q. destruct (Hd q) as [-> _]. apply Hinv.
  - intros k id q. destruct (Hd q) as [_ ->]. apply Hinv.
  - destruct (decide (p = ddlSpan db)) as [<-|Hne].
    + by rewrite lookup_insert_eq.
    + rewrite lookup_insert_ne by done. apply Hinv.
Qed.

Lemma AddReplicatingSpan_wf h db p s :
  db_wf h db → h !! p = Some s → allTasks db !! span_ID s = None →
  p ≠ ddlSpan db → db_wf h (AddReplicatingSpan h db p).
Proof.
  intros Hinv%db_wf_inv Hs Hfresh Hddl. apply db_wf_inv.
  pose proof (inv_unknown _ _ _ Hinv Hfresh) as (_ & Hst & Htt & Hab & Hsc & Hre).
  unfold AddReplicatingSpan, addToSchemaAndTableMap, GetSchemaID.
  rewrite (deref_Some _ _ _ Hs). set (id := span_ID s) in *.
  split; simpl.
  - intros id' q. destruct (decide (id = id')) as [<-|Hne].
    + rewrite lookup_insert_eq. intros [= <-]. eauto.
    + rewrite lookup_insert_ne by done. apply (inv_alloc _ _ Hinv).
  - intros k id' q. rewrite index_lookup_put.
    destruct (decide (schemaID s = k ∧ id = id')) as [[<- <-]|Hn].
    + rewrite lookup_insert_eq. split; [|naive_solver].
      intros [= <-]. by rewrite (deref_Some _ _ _ Hs).
    + rewrite (inv_schema _ _ Hinv).
      destruct (decide (id = id')) as [<-|Hne].
      * rewrite lookup_insert_eq, Hfresh. split; [naive_solver|].
        intros [[= <-] Hk]. rewrite (deref_Some _ _ _ Hs) in Hk. tauto.
      * by rewrite lookup_insert_ne.
  - intros k id' q. rewrite index_lookup_put.
    destruct (decide (TableID (Span s) = k ∧ id = id')) as [[<- <-]|Hn].
    + rewrite lookup_insert_eq. split; [|naive_solver].
      intros [= <-]. by rewrite (deref_Some _ _ _ Hs).
    + rewrite (inv_table _ _ Hinv).
      destruct (decide (id = id')) as [<-|Hne].
      * rewrite lookup_insert_eq, Hfresh. split; [naive_solver|].
        intros [[= <-] Hk]. rewrite (deref_Some _ _ _ Hs) in Hk. tauto.
      * by rewrite lookup_insert_ne.
  - apply no_empty_put, Hinv.
  - apply no_empty_put, Hinv.
  - intros id' q Hq. destruct (inv_absent _ _ Hinv _ _ Hq) as (Hall & ? & ? & ?).
    rewrite !lookup_insert_ne by congruence. done.
  - intros id' q Hq. destruct (inv_scheduling _ _ Hinv _ _ Hq) as (Hall & ? & ?).
    rewrite !lookup_insert_ne by congruence. done.
  - intros id' q. destruct (decide (id = id')) as [<-|Hne].
    + rewrite !lookup_insert_eq. intros [= <-]. done.
    + rewrite !lookup_insert_ne by done. apply (inv_replicating _ _ Hinv).
  - apply Hinv.
Qed.

(** ** Concrete instances *)

Lemma example_db_wf : db_wf example_heap example_db.
Proof. apply (bool_decide_unpack _). vm_compute. reflexivity. Qed.

(** Instance of C9: the object for table 44 is added and force-removed. *)
Lemma AddAbsent_ForceRemove_example :
  db_wf example_heap example_db ∧
  allTasks example_db !! span_ID (deref example_heap 4%positive) = None ∧
  ForceRemove example_heap (AddAbsentReplicaSet example_heap example_db [4%positive])
    (span_ID (deref example_heap 4%positive)) = example_db.
Proof.
  split; [exact example_db_wf|]. split; [reflexivity|].
  destruct (AddAbsent_ForceRemove_restores example_heap example_db) as [Hadd _].
  apply (Hadd example_db_wf). reflexivity.
Defined.

(** Instance of C10: only the replicating span of table 43 is returned. *)
Lemma TryRemoveAll_example :
  db_wf example_heap example_db ∧
  (TryRemoveAll example_heap example_db).1 = [3%positive] ∧
  ddlSpan example_db ∉ (TryRemoveAll example_heap example_db).1.
Proof.
  split; [exact example_db_wf|]. split; [reflexivity|].
  destruct (TryRemoveAll_leaves_ddl example_heap example_db)
    as (_ & _ & _ & _ & _ & _ & Hwf).
  apply (Hwf example_db_wf).
Defined.

(** Instance of C4: tables 42 and 43 are dropped; the span of table 42 has no
    node and is not returned. *)
Lemma TryRemove_example :
  db_wf example_heap example_db ∧
  (TryRemoveByTableIDs example_heap example_db [42; 43]).1 = [3%positive] ∧
  unknown_id (TryRemoveByTableIDs example_heap example_db [42; 43]).2 2%N.
Proof.
  split; [exact example_db_wf|]. split; [reflexivity|].
  destruct (TryRemove_returns_scheduled example_heap example_db) as [Htable _].
  destruct (Htable example_db_wf [42; 43]) as (_ & Hgone & _).
  apply (Hgone 2%N 2%positive); [reflexivity|].
  apply elem_of_cons. by left.
Defined.

(** Instance of C5: table 42 moves from schema 7 to schema 9. *)
Lemma UpdateSchemaID_example :
  db_wf example_heap example_db ∧
  index_lookup (schemaTasks (UpdateSchemaID example_heap example_db 42 9).2) 9 2%N
    = Some 2%positive ∧
  index_lookup (schemaTasks (UpdateSchemaID example_heap example_db 42 9).2) 7 2%N
    = None.
Proof.
  split; [exact example_db_wf|].
  destruct (UpdateSchemaID_reindexes example_heap example_db 42 9 example_db_wf)
    as (_ & Hmoved & _).
  destruct (Hmoved 2%N 2%positive) as (_ & _ & Hnew & Hold);
    [reflexivity..|].
  split; [exact Hnew|]. by apply Hold.
Defined.

Lemma example_ids_fresh (i : nat) :
  (i < 2)%nat → allTasks example_db !! example_ids i = None.
Proof.
  intros Hi. destruct i as [|[|i]]; [reflexivity..|lia].
Qed.

Lemma example_ids_inj (i j : nat) : example_ids i = example_ids j → i = j.
Proof. unfold example_ids. lia. Qed.

(** Instance of C1: the span of table 42 (checkpoint 200) is replaced by two
    spans at checkpoint ts 150; the first new span is absent under id 10 with
    checkpoint 150 and schema 7. *)
Lemma ReplaceReplicaSet_example :
  db_wf example_heap example_db ∧
  ∃ h' db',
    ReplaceReplicaSet example_heap example_db [2%positive]
      [ {| TableID := 42; StartKey := []; EndKey := ["m"%byte] |};
        {| TableID := 42; StartKey := ["m"%byte]; EndKey := [] |} ]
      150 example_ids = Ok (h', db') ∧
    unknown_id db' 2%N ∧
    ∃ p, absent (tracker db') !! 10%N = Some p ∧
         deref h' p =
           NewReplicaSet "cf" 10%N 1%N 7
             {| TableID := 42; StartKey := []; EndKey := ["m"%byte] |} 150.
Proof.
  split; [exact example_db_wf|].
  destruct (ReplaceReplicaSet_replaces example_heap example_db 2%positive []
              [ {| TableID := 42; StartKey := []; EndKey := ["m"%byte] |};
                {| TableID := 42; StartKey := ["m"%byte]; EndKey := [] |} ]
              150 example_ids example_db_wf)
    as (h' & db' & Heq & _ & _ & Hold & Hnew & _).
  - apply NoDup_singleton.
  - intros o ->%list_elem_of_singleton. reflexivity.
  - exact example_ids_fresh.
  - intros i j _ _. apply example_ids_inj.
  - exists h', db'. split; [exact Heq|]. split.
    + apply (Hold 2%positive). apply list_elem_of_singleton. reflexivity.
    + destruct (Hnew 0%nat _ eq_refl) as (p & _ & Hab & Hp).
      exists p. split; [exact Hab|exact Hp].
Defined.

(** Where C1 fails as stated: every old replication of the list is in the DB
    when [ReplaceReplicaSet] is called and the dispatcher ids are fresh, but
    the span of table 42 is listed twice; the second visit finds it removed and
    panics. *)
Lemma ReplaceReplicaSet_duplicate_old_panics :
  db_wf example_heap example_db ∧
  (∀ o, o ∈ [2%positive; 2%positive] →
     allTasks example_db !! span_ID (deref example_heap o) = Some o) ∧
  (∀ i, (i < 2)%nat → allTasks example_db !! example_ids i = None) ∧
  ReplaceReplicaSet example_heap example_db [2%positive; 2%positive]
    [ {| TableID := 42; StartKey := []; EndKey := ["m"%byte] |};
      {| TableID := 42; StartKey := ["m"%byte]; EndKey := [] |} ]
    150 example_ids = Panic "old replica set not found".
Proof.
  split; [exact example_db_wf|]. split; [|split].
  - intros o Ho. apply elem_of_cons in Ho as [->|Ho]; [reflexivity|].
    apply list_elem_of_singleton in Ho as ->. reflexivity.
  - exact example_ids_fresh.
  - reflexivity.
Qed.

(** Instance of C8: dispatcher 4 is not in the DB. *)
Lemma ReplaceReplicaSet_rejects_example :
  allTasks example_db !! span_ID (deref example_heap 4%positive) = None ∧
  (∃ msg, ReplaceReplicaSet example_heap example_db [2%positive; 4%positive]
            [] 150 example_ids = Panic msg) ∧
  (∃ msg, ReplaceReplicaSet example_heap example_db [] [] 150 example_ids = Panic msg).
Proof.
  split; [reflexivity|].
  destruct (ReplaceReplicaSet_rejects example_heap example_db [] 150 example_ids)
    as [Hmiss Hempty].
  split; [|exact Hempty].
  apply Hmiss. exists 4%positive. split; [|reflexivity].
  apply elem_of_cons. right. apply list_elem_of_singleton. reflexivity.
Defined.

(** Instance of C6, on the three influence types of the example block event. *)
Lemma NewBlockEvent_example :
  rangeChecker (NewBlockEvent example_heap "cf" example_controller
                  (example_state InfluenceType_DB) false 0) =
    Some (CountChecker {| needCount := 3; reportedMap := ∅ |}) ∧
  rangeChecker (NewBlockEvent example_heap "cf" example_controller
                  (example_state InfluenceType_All) false 0) =
    Some (CountChecker {| needCount := 3; reportedMap := ∅ |}).
Proof.
  destruct (NewBlockEvent_rangeChecker example_heap "cf" example_controller
              (example_state InfluenceType_DB)
              {| InfluenceType_of := InfluenceType_DB; TableIDs := [42; 43];
                 SchemaID := 7 |} 0 eq_refl) as (Hdb & _ & _).
  destruct (NewBlockEvent_rangeChecker example_heap "cf" example_controller
              (example_state InfluenceType_All)
              {| InfluenceType_of := InfluenceType_All; TableIDs := [42; 43];
                 SchemaID := 7 |} 0 eq_refl) as (_ & _ & Hall).
  split; [exact (Hdb eq_refl)|exact (Hall eq_refl)].
Defined.




Lemma example_clock_mono (i j : nat) :
  (i ≤ j)%nat → example_clock i ≤ example_clock j.
Proof. unfold example_clock, Second. lia. Qed.

(** The example run, tick by tick: clock reading on entry and the actions
    sent. *)
Example example_run :
  (λ o, (obs_time o, msg_actions <$> obs_msgs o))
    <$> run example_clock (example_event, 1%nat) example_steps =
  [ (1 * Second, []);
    (3 * Second, [[Action_Write]]);
    (6 * Second, [[Action_Write]]);
    (9 * Second, [[Action_Pass]]);
    (13 * Second, [[Action_Pass]]) ].
Proof. vm_compute. reflexivity. Qed.

(** Instance of C3, on the example run. *)
Lemma resend_example :
  (∀ i j, (i ≤ j)%nat → example_clock i ≤ example_clock j) ∧
  (∀ o, o ∈ run example_clock (example_event, 1%nat) example_steps →
     obs_selected o = false → obs_msgs o = []) ∧
  (∀ i j oi oj, (i < j)%nat →
     run example_clock (example_event, 1%nat) example_steps !! i = Some oi →
     run example_clock (example_event, 1%nat) example_steps !! j = Some oj →
     obs_msgs oi ≠ [] → obs_msgs oj ≠ [] →
     Second ≤ obs_time oj - obs_time oi).
Proof.
  split; [exact example_clock_mono|].
  destruct (resend_order_and_rate example_clock example_clock_mono
              example_event 1%nat example_steps) as (Hsel & _ & _ & Hrate).
  split; [exact Hsel|exact Hrate].
Defined.

(** Instance of C7: node n9 reports the unknown dispatcher 99, first Working,
    then Stopped; one RemoveDispatcher command goes out.  Node n1 reports the
    span of table 43, which the DB has on n2; nothing changes. *)
Lemma HandleStatus_example :
  (HandleStatus "n9"
     [ {| ID := 99%N; ComponentStatus := ComponentState_Working; CheckpointTs := 10 |};
       {| ID := 99%N; ComponentStatus := ComponentState_Stopped; CheckpointTs := 10 |} ]
     example_heap example_controller).2 =
    [NewRemoveDispatcherMessage "n9" "cf" 99%N] ∧
  HandleStatus "n1"
    [ {| ID := 3%N; ComponentStatus := ComponentState_Working; CheckpointTs := 999 |} ]
    example_heap example_controller = (example_heap, example_controller, []).
Proof.
  pose (w := {| ID := 99%N; ComponentStatus := ComponentState_Working;
                CheckpointTs := 10 |}).
  pose (s := {| ID := 99%N; ComponentStatus := ComponentState_Stopped;
                CheckpointTs := 10 |}).
  destruct (HandleStatus_orphan_and_mismatch "n9" [w] s [] example_heap
              example_controller) as (Hrun & Horphan & _).
  destruct (Horphan eq_refl eq_refl) as [_ Hout].
  split.
  - fold w s. change [w; s] with ([w] ++ [s]). rewrite Hrun. simpl foldl.
    rewrite Hout. reflexivity.
  - reflexivity.
Defined.

(** * Further properties of the modelled code *)

(** ** The queries of the DB *)

Lemma range_values_empty {K} `{Countable K} {A} :
  range_values (∅ : gmap K A) = [].
Proof. unfold range_values. by rewrite map_to_list_empty. Qed.

Lemma length_range_values {K} `{Countable K} {A} (m : gmap K A) :
  length (range_values m) = size m.
Proof. unfold range_values. by rewrite length_fmap, length_map_to_list. Qed.

Lemma GetTasksBySchemaID_inner db sid :
  GetTasksBySchemaID db sid = range_values (inner (schemaTasks db) sid).
Proof.
  unfold GetTasksBySchemaID, inner. destruct (schemaTasks db !! sid); simpl; [done|].
  by rewrite range_values_empty.
Qed.

Lemma elem_of_GetTasksByTableIDs_acc db (tids : list Z) :
  ∀ acc p,
    p ∈ foldl (λ tasks tableID, tasks ++ range_values (inner (tableTasks db) tableID))
          acc tids ↔
    p ∈ acc ∨ ∃ t, t ∈ tids ∧ p ∈ range_values (inner (tableTasks db) t).
Proof.
  induction tids as [|t tids IH]; intros acc p; simpl.
  - split; [tauto|]. intros [?|(t & []%not_elem_of_nil & _)]. done.
  - rewrite IH, elem_of_app. setoid_rewrite elem_of_cons. naive_solver.
Qed.

Lemma elem_of_GetTasksByTableIDs h db tids p :
  db_inv h db →
  p ∈ GetTasksByTableIDs db tids ↔
  ∃ id, allTasks db !! id = Some p ∧ TableID (Span (deref h p)) ∈ tids.
Proof.
  intros Hinv. unfold GetTasksByTableIDs.
  rewrite elem_of_GetTasksByTableIDs_acc. split.
  - intros [[]%not_elem_of_nil|(t & Ht & (id & Hp & <-)%(elem_of_table_values _ _ _ _ Hinv))].
    eauto.
  - intros (id & Hp & Ht). right. eexists. split; [done|].
    apply (elem_of_table_values _ _ _ _ Hinv). eauto.
Qed.

Lemma IsTableExists_true h db t :
  db_inv h db →
  IsTableExists db t = true ↔
  ∃ id p, allTasks db !! id = Some p ∧ TableID (Span (deref h p)) = t.
Proof.
  intros Hinv. unfold IsTableExists.
  destruct (tableTasks db !! t) as [tm|] eqn:Htm.
  - rewrite bool_decide_eq_true. split.
    + intros _. destruct (no_empty_lookup _ _ _ (inv_table_ne _ _ Hinv) Htm)
        as (id & p & Hp).
      apply (inv_table _ _ Hinv) in Hp. eauto.
    + intros _. pose proof (inv_table_ne _ _ Hinv _ _ Htm) as Hne. simpl in Hne.
      apply map_size_non_empty_iff in Hne. lia.
  - split; [done|]. intros (id & p & Hp & Ht).
    assert (index_lookup (tableTasks db) t id = Some p) as Hl
      by (by apply (inv_table _ _ Hinv)).
    unfold index_lookup in Hl. by rewrite Htm in Hl.
Qed.

(** X1. The table index answers for [allTasks]: on a DB that satisfies its
    invariant, [IsTableExists t] holds exactly when some task has table id
    [t], and [GetTasksByTableIDs] returns exactly the tasks whose table id is
    one of the given ones, each once when no table id is given twice. *)
Theorem table_queries_agree (h : gmap ptr SpanReplication) (db : ReplicationDB) :
  db_wf h db →
  (∀ t, IsTableExists db t = true ↔
        ∃ id p, GetTaskByID db id = Some p ∧ TableID (Span (deref h p)) = t) ∧
  (∀ tids p, p ∈ GetTasksByTableIDs db tids ↔
        ∃ id, GetTaskByID db id = Some p ∧ TableID (Span (deref h p)) ∈ tids) ∧
  (∀ tids, NoDup tids → NoDup (GetTasksByTableIDs db tids)).
Proof.
  intros Hinv%db_wf_inv. unfold GetTaskByID. split_and!.
  - intros t. by apply IsTableExists_true.
  - intros tids p. by apply elem_of_GetTasksByTableIDs.
  - intros tids. unfold GetTasksByTableIDs.
    cut (∀ acc, NoDup acc → NoDup tids →
           (∀ p t, p ∈ acc → t ∈ tids →
              p ∉ range_values (inner (tableTasks db) t)) →
           NoDup (foldl (λ tasks tableID,
                           tasks ++ range_values (inner (tableTasks db) tableID))
                    acc tids)).
    { intros Hcut Hnd. apply Hcut; [apply NoDup_nil_2|done|].
      intros p t []%not_elem_of_nil. }
    induction tids as [|t tids IH]; intros acc Hacc Hnd Hdisj; simpl; [done|].
    apply NoDup_cons in Hnd as [Ht Hnd].
    apply IH; [|done|].
    + apply NoDup_app. split_and!; [done| |].
      * intros p Hp. apply (Hdisj p t Hp). by left.
      * eapply range_values_NoDup; [done|]. intros id p Hp.
        rewrite inner_lookup in Hp. by apply (inv_table _ _ Hinv) in Hp as [? _].
    + intros p t' [Hp|Hp]%elem_of_app Ht'.
      * apply (Hdisj p t' Hp). by right.
      * apply (elem_of_table_values _ _ _ _ Hinv) in Hp as (id & Hp & Htid).
        intros (id' & _ & Htid')%(elem_of_table_values _ _ _ _ Hinv).
        apply Ht. congruence.
Qed.

(** X2. The schema index answers for [allTasks]: on a DB that satisfies its
    invariant, [GetTasksBySchemaID sid] returns, once each, exactly the tasks
    whose schema id is [sid], [GetTaskSizeBySchemaID sid] is their number, and
    [GetAllTasks] returns every task once, [TaskSize] of them. *)
Theorem schema_queries_agree (h : gmap ptr SpanReplication) (db : ReplicationDB) :
  db_wf h db →
  (∀ sid p, p ∈ GetTasksBySchemaID db sid ↔
        ∃ id, GetTaskByID db id = Some p ∧ schemaID (deref h p) = sid) ∧
  (∀ sid, NoDup (GetTasksBySchemaID db sid) ∧
        GetTaskSizeBySchemaID db sid = Z.of_nat (length (GetTasksBySchemaID db sid))) ∧
  (∀ p, p ∈ GetAllTasks db ↔ ∃ id, GetTaskByID db id = Some p) ∧
  NoDup (GetAllTasks db) ∧
  TaskSize db = Z.of_nat (length (GetAllTasks db)).
Proof.
  intros Hinv%db_wf_inv. unfold GetTaskByID. split_and!.
  - intros sid p. rewrite GetTasksBySchemaID_inner.
    by apply elem_of_schema_values.
  - intros sid. split.
    + rewrite GetTasksBySchemaID_inner. eapply range_values_NoDup; [done|].
      intros id p Hp. rewrite inner_lookup in Hp.
      by apply (inv_schema _ _ Hinv) in Hp as [? _].
    + unfold GetTaskSizeBySchemaID, GetTasksBySchemaID.
      destruct (schemaTasks db !! sid); [|done]. by rewrite length_range_values.
  - intros p. apply elem_of_range_values.
  - eapply range_values_NoDup; [done|]. done.
  - unfold TaskSize, GetAllTasks. by rewrite length_range_values.
Qed.

(** ** Adding and removing single tasks *)

Lemma TaskSize_insert (db db' : ReplicationDB) id p :
  allTasks db' = <[id := p]> (allTasks db) → allTasks db !! id = None →
  TaskSize db' = TaskSize db + 1.
Proof.
  intros Hall Hid. unfold TaskSize.
  rewrite Hall, map_size_insert_None by done. lia.
Qed.

(** X3. [AddReplicatingSpan] of an allocated span whose id the DB does not
    know keeps the invariant, makes the span retrievable by id, by schema and
    by table, puts it in the replicating partition only, grows the DB by one
    and leaves every other id as it was; force-removing the id afterwards gives
    back the very same DB. *)
Theorem AddReplicatingSpan_adds (h : gmap ptr SpanReplication)
    (db : ReplicationDB) (p : ptr) (s : SpanReplication) :
  db_wf h db → h !! p = Some s → GetTaskByID db (span_ID s) = None →
  p ≠ ddlSpan db →
  let db' := AddReplicatingSpan h db p in
  db_wf h db' ∧
  GetTaskByID db' (span_ID s) = Some p ∧
  p ∈ GetTasksBySchemaID db' (schemaID s) ∧
  p ∈ GetTasksByTableIDs db' [TableID (Span s)] ∧
  IsTableExists db' (TableID (Span s)) = true ∧
  p ∈ GetReplicatingWithoutLock (tracker db') ∧
  (p ∉ GetAbsentWithoutLock (tracker db')) ∧
  (p ∉ GetSchedulingWithoutLock (tracker db')) ∧
  TaskSize db' = TaskSize db + 1 ∧
  (∀ id, id ≠ span_ID s → GetTaskByID db' id = GetTaskByID db id) ∧
  ForceRemove h db' (span_ID s) = db.
Proof.
  intros Hwf Hs Hfresh Hddl db'. unfold GetTaskByID in *.
  pose proof (AddReplicatingSpan_wf _ _ _ _ Hwf Hs Hfresh Hddl) as Hwf'.
  fold db' in Hwf'. pose proof Hwf' as Hinv'%db_wf_inv.
  pose proof Hwf as Hinv%db_wf_inv.
  assert (allTasks db' = <[span_ID s := p]> (allTasks db)) as Hall.
  { unfold db', AddReplicatingSpan. simpl. by rewrite (deref_Some _ _ _ Hs). }
  assert (allTasks db' !! span_ID s = Some p) as Hp
    by (by rewrite Hall, lookup_insert_eq).
  assert (∀ tr id q, tr (tracker db') !! id = Some q →
            tr = absent ∨ tr = scheduling → q = p → False) as Hpart.
  { intros tr id q Hq Htr ->.
    assert (tr (tracker db) !! id = Some p) as Hq'.
    { destruct Htr as [-> | ->]; exact Hq. }
    assert (allTasks db !! id = Some p) as Hdb.
    { destruct Htr as [-> | ->].
      - by destruct (inv_absent _ _ Hinv _ _ Hq').
      - by destruct (inv_scheduling _ _ Hinv _ _ Hq'). }
    destruct (inv_alloc _ _ Hinv _ _ Hdb) as (s' & Hs' & <-). congruence. }
  split_and!; try done.
  - rewrite GetTasksBySchemaID_inner.
    apply (elem_of_schema_values _ _ _ _ Hinv'). exists (span_ID s).
    by rewrite (deref_Some _ _ _ Hs).
  - apply (elem_of_GetTasksByTableIDs _ _ _ _ Hinv'). exists (span_ID s).
    rewrite (deref_Some _ _ _ Hs). split; [done|]. by left.
  - apply (IsTableExists_true _ _ _ Hinv'). exists (span_ID s), p.
    by rewrite (deref_Some _ _ _ Hs).
  - apply elem_of_range_values. exists (span_ID s).
    unfold db', AddReplicatingSpan. simpl.
    by rewrite (deref_Some _ _ _ Hs), lookup_insert_eq.
  - intros (id & Hq)%elem_of_range_values. eapply (Hpart absent); eauto.
  - intros (id & Hq)%elem_of_range_values. eapply (Hpart scheduling); eauto.
  - by apply (TaskSize_insert db db' (span_ID s) p).
  - intros id Hne. by rewrite Hall, lookup_insert_ne.
  - pose proof (inv_unknown _ _ _ Hinv Hfresh) as (_ & Hst & Htt & Hab & Hsc & Hre).
    destruct Hinv as [_ _ _ Hsn Htn _ _ _ _].
    unfold ForceRemove. rewrite Hp.
    unfold db', AddReplicatingSpan, removeSpanUnLock, addToSchemaAndTableMap,
      GetSchemaID, RemoveReplicaWithoutLock.
    rewrite (deref_Some _ _ _ Hs).
    destruct db as [cf all st tt [ab sc re ck] ddl]. simpl in *.
    rewrite !index_remove_put by done.
    rewrite !delete_insert_id by done.
    rewrite !delete_id by done. reflexivity.
Qed.

(** X4. Force-removing a known id keeps the invariant, leaves the id in none
    of the maps and partitions, shrinks the DB by one, leaves every other id
    as it was, and a second removal of the same id changes nothing. *)
Theorem ForceRemove_removes (h : gmap ptr SpanReplication) (db : ReplicationDB)
    (id : DispatcherID) (p : ptr) :
  db_wf h db → GetTaskByID db id = Some p →
  let db' := ForceRemove h db id in
  db_wf h db' ∧
  unknown_id db' id ∧
  (p ∉ GetAllTasks db') ∧
  TaskSize db' = TaskSize db - 1 ∧
  (∀ id', id' ≠ id → GetTaskByID db' id' = GetTaskByID db id') ∧
  ForceRemove h db' id = db'.
Proof.
  intros Hwf Hp db'. unfold GetTaskByID in *.
  pose proof (ForceRemove_wf _ _ id Hwf) as Hwf'. fold db' in Hwf'.
  pose proof Hwf as Hinv%db_wf_inv. pose proof Hwf' as Hinv'%db_wf_inv.
  assert (allTasks db' = delete id (allTasks db)) as Hall.
  { unfold db', ForceRemove. rewrite Hp, removeSpanUnLock_allTasks.
    by rewrite (inv_deref_ID _ _ _ _ Hinv Hp). }
  assert (allTasks db' !! id = None) as Hnone
    by (by rewrite Hall, lookup_delete_eq).
  split_and!; [done|by apply (inv_unknown h)|..].
  - intros (id' & Hq)%elem_of_range_values.
    rewrite Hall in Hq. apply lookup_delete_Some in Hq as [Hne Hq].
    apply Hne. symmetry. exact (inv_ptr_inj _ _ _ _ _ Hinv Hq Hp).
  - unfold TaskSize. rewrite Hall.
    rewrite map_size_delete_Some by done.
    assert (size (allTasks db) ≠ 0%nat); [|lia].
    apply map_size_non_empty_iff. intros E. by rewrite E in Hp.
  - intros id' Hne. by rewrite Hall, lookup_delete_ne.
  - unfold ForceRemove at 1. by rewrite Hnone.
Qed.

(** Instance of X1: table 42 exists, table 44 does not, and the tasks of
    tables 42 and 43 come out once each. *)
Lemma table_queries_agree_example :
  db_wf example_heap example_db ∧
  IsTableExists example_db 42 = true ∧
  2%positive ∈ GetTasksByTableIDs example_db [42; 43] ∧
  NoDup (GetTasksByTableIDs example_db [42; 43]).
Proof.
  split; [exact example_db_wf|].
  destruct (table_queries_agree example_heap example_db example_db_wf)
    as (Hex & Hin & Hnd).
  split_and!.
  - apply Hex. by exists 2%N, 2%positive.
  - apply Hin. exists 2%N. split; [reflexivity|]. by left.
  - apply Hnd. apply (bool_decide_unpack _). vm_compute. reflexivity.
Defined.

(** Instance of X2: schema 7 holds the spans of tables 42 and 43. *)
Lemma schema_queries_agree_example :
  db_wf example_heap example_db ∧
  3%positive ∈ GetTasksBySchemaID example_db 7 ∧
  GetTaskSizeBySchemaID example_db 7 =
    Z.of_nat (length (GetTasksBySchemaID example_db 7)) ∧
  TaskSize example_db = Z.of_nat (length (GetAllTasks example_db)).
Proof.
  split; [exact example_db_wf|].
  destruct (schema_queries_agree example_heap example_db example_db_wf)
    as (Hin & Hsz & _ & _ & Hall).
  split_and!.
  - apply Hin. by exists 3%N.
  - apply Hsz.
  - exact Hall.
Defined.

(** Instance of X3: the span of table 44 is added as replicating. *)
Lemma AddReplicatingSpan_adds_example :
  db_wf example_heap example_db ∧
  example_heap !! 4%positive = Some (example_span 4 8 44 100 "") ∧
  GetTaskByID example_db 4%N = None ∧
  4%positive ≠ ddlSpan example_db ∧
  GetTaskByID (AddReplicatingSpan example_heap example_db 4%positive) 4%N
    = Some 4%positive ∧
  ForceRemove example_heap (AddReplicatingSpan example_heap example_db 4%positive)
    4%N = example_db.
Proof.
  split; [exact example_db_wf|]. split; [reflexivity|]. split; [reflexivity|].
  split; [done|].
  destruct (AddReplicatingSpan_adds example_heap example_db 4%positive
              (example_span 4 8 44 100 "") example_db_wf)
    as (_ & Hget & _ & _ & _ & _ & _ & _ & _ & _ & Hback);
    [reflexivity|reflexivity|done|].
  split; [exact Hget|exact Hback].
Defined.

(** Instance of X4: the span of table 42 is force-removed. *)
Lemma ForceRemove_removes_example :
  db_wf example_heap example_db ∧
  GetTaskByID example_db 2%N = Some 2%positive ∧
  unknown_id (ForceRemove example_heap example_db 2%N) 2%N ∧
  TaskSize (ForceRemove example_heap example_db 2%N) = TaskSize example_db - 1.
Proof.
  split; [exact example_db_wf|]. split; [reflexivity|].
  destruct (ForceRemove_removes example_heap example_db 2%N 2%positive
              example_db_wf)
    as (_ & Hun & _ & Hsz & _); [reflexivity|].
  split; [exact Hun|exact Hsz].
Defined.

(** ** Adding a batch of absent spans *)

Lemma addAbsent_list h (ps : list ptr) :
  ∀ db,
    db_inv h db →
    NoDup ((λ p, span_ID (deref h p)) <$> ps) →
    (∀ p, p ∈ ps → is_Some (h !! p) ∧ p ≠ ddlSpan db ∧
                   allTasks db !! span_ID (deref h p) = None) →
    let db' := addAbsentReplicaSetUnLock h db ps in
    db_inv h db' ∧
    (∀ id q, allTasks db' !! id = Some q ↔
       allTasks db !! id = Some q ∨ (q ∈ ps ∧ id = span_ID (deref h q))) ∧
    (∀ id q, absent (tracker db') !! id = Some q ↔
       absent (tracker db) !! id = Some q ∨ (q ∈ ps ∧ id = span_ID (deref h q))) ∧
    size (allTasks db') = (size (allTasks db) + length ps)%nat.
Proof.
  induction ps as [|p ps IH]; intros db Hinv Hnd Hps; simpl.
  - split_and!; [done| | |lia]; intros id q; split; auto;
      by intros [?|[[]%not_elem_of_nil _]].
  - apply NoDup_cons in Hnd as [Hp Hnd].
    destruct (Hps p) as ([s Hs] & Hddl & Hfresh); [by left|].
    rewrite (deref_Some _ _ _ Hs) in Hfresh.
    pose proof (addAbsentOne_inv _ _ _ _ Hinv Hs Hfresh Hddl) as Hinv1.
    pose proof (inv_unknown _ _ _ Hinv Hfresh) as (_ & _ & _ & Hab & _ & _).
    assert (allTasks (addAbsentOne h db p) = <[span_ID s := p]> (allTasks db))
      as Hall by (simpl; by rewrite (deref_Some _ _ _ Hs)).
    assert (absent (tracker (addAbsentOne h db p))
            = <[span_ID s := p]> (absent (tracker db)))
      as Habs by (simpl; by rewrite (deref_Some _ _ _ Hs)).
    destruct (IH (addAbsentOne h db p) Hinv1 Hnd) as (Hinv' & Hl & Ha & Hsz).
    { intros q Hq. destruct (Hps q) as (Hq1 & Hq2 & Hq3); [by right|].
      split_and!; [done|done|]. rewrite Hall, lookup_insert_ne; [done|].
      intros E. apply Hp. apply list_elem_of_fmap. exists q.
      by rewrite (deref_Some _ _ _ Hs). }
    fold (addAbsentReplicaSetUnLock h (addAbsentOne h db p) ps).
    split_and!; [done| | |].
    + intros id q. rewrite Hl, Hall, lookup_insert_Some, elem_of_cons.
      pose proof (deref_Some _ _ _ Hs) as Hd.
      split; [naive_solver|].
      intros [Hq|[[->|Hq] ->]]; [|rewrite Hd; auto|auto].
      left. right. split; [|done]. intros <-. congruence.
    + intros id q. rewrite Ha, Habs, lookup_insert_Some, elem_of_cons.
      pose proof (deref_Some _ _ _ Hs) as Hd.
      split; [naive_solver|].
      intros [Hq|[[->|Hq] ->]]; [|rewrite Hd; auto|auto].
      left. right. split; [|done]. intros <-. congruence.
    + rewrite Hsz, Hall, map_size_insert_None by done. lia.
Qed.

(** X5. [AddAbsentReplicaSet] of allocated, non-DDL spans with pairwise
    distinct ids that the DB does not know keeps the invariant; every added
    span is then retrievable by id, by schema and by table and is absent; the
    tasks of the DB are the old ones and the added ones, [TaskSize] grows by
    the number of spans, and the scheduling and replicating partitions are
    untouched. *)
Theorem AddAbsentReplicaSet_adds (h : gmap ptr SpanReplication)
    (db : ReplicationDB) (spans : list ptr) :
  db_wf h db →
  NoDup ((λ p, span_ID (deref h p)) <$> spans) →
  (∀ p, p ∈ spans → is_Some (h !! p) ∧ p ≠ ddlSpan db ∧
                    GetTaskByID db (span_ID (deref h p)) = None) →
  let db' := AddAbsentReplicaSet h db spans in
  db_wf h db' ∧
  (∀ p, p ∈ spans →
     GetTaskByID db' (span_ID (deref h p)) = Some p ∧
     p ∈ GetAbsentWithoutLock (tracker db') ∧
     p ∈ GetTasksBySchemaID db' (schemaID (deref h p)) ∧
     p ∈ GetTasksByTableIDs db' [TableID (Span (deref h p))] ∧
     IsTableExists db' (TableID (Span (deref h p))) = true) ∧
  (∀ id q, GetTaskByID db' id = Some q ↔
     GetTaskByID db id = Some q ∨ (q ∈ spans ∧ id = span_ID (deref h q))) ∧
  TaskSize db' = TaskSize db + Z.of_nat (length spans) ∧
  GetSchedulingWithoutLock (tracker db') = GetSchedulingWithoutLock (tracker db) ∧
  GetReplicatingWithoutLock (tracker db') = GetReplicatingWithoutLock (tracker db).
Proof.
  intros Hinv%db_wf_inv Hnd Hps db'. unfold GetTaskByID in *.
  destruct (addAbsent_list h spans db Hinv Hnd Hps) as (Hinv' & Hl & Ha & Hsz).
  fold (AddAbsentReplicaSet h db spans) in Hinv', Hl, Ha, Hsz. fold db' in Hinv', Hl, Ha, Hsz.
  destruct (addAbsent_maps h spans db) as (_ & _ & Hsc & Hre & _).
  fold (AddAbsentReplicaSet h db spans) in Hsc, Hre. fold db' in Hsc, Hre.
  split_and!.
  - by apply db_wf_inv.
  - intros p Hp.
    assert (allTasks db' !! span_ID (deref h p) = Some p) as Hget
      by (apply Hl; auto).
    split_and!; [done|..].
    + apply elem_of_range_values. exists (span_ID (deref h p)). apply Ha. auto.
    + rewrite GetTasksBySchemaID_inner.
      apply (elem_of_schema_values _ _ _ _ Hinv'). eauto.
    + apply (elem_of_GetTasksByTableIDs _ _ _ _ Hinv'). eexists. split; [done|].
      by left.
    + apply (IsTableExists_true _ _ _ Hinv'). eauto.
  - done.
  - unfold TaskSize. rewrite Hsz. lia.
  - unfold GetSchedulingWithoutLock. by rewrite Hsc.
  - unfold GetReplicatingWithoutLock. by rewrite Hre.
Qed.

(** Instance of X5: the span of table 44 is added to the example DB. *)
Lemma AddAbsentReplicaSet_adds_example :
  db_wf example_heap example_db ∧
  4%positive ∈ GetAbsentWithoutLock
    (tracker (AddAbsentReplicaSet example_heap example_db [4%positive])) ∧
  TaskSize (AddAbsentReplicaSet example_heap example_db [4%positive]) =
    TaskSize example_db + 1.
Proof.
  split; [exact example_db_wf|].
  destruct (AddAbsentReplicaSet_adds example_heap example_db [4%positive]
              example_db_wf) as (_ & Hin & _ & Hsz & _).
  - apply (bool_decide_unpack _). vm_compute. reflexivity.
  - intros p ->%list_elem_of_singleton. split_and!; [by eexists|done|reflexivity].
  - split; [|exact Hsz]. apply (Hin 4%positive). by left.
Defined.

(** ** Removing by schema or by table, again *)

Lemma inner_ext (a b : gmap Z (gmap DispatcherID ptr)) k k' :
  (∀ id q, index_lookup a k id = Some q ↔ index_lookup b k' id = Some q) →
  inner a k = inner b k'.
Proof.
  intros Hab. apply map_eq. intros id. apply option_eq. intros q.
  rewrite !inner_lookup. apply Hab.
Qed.

Lemma inner_empty (a : gmap Z (gmap DispatcherID ptr)) k :
  (∀ id q, index_lookup a k id ≠ Some q) → inner a k = ∅.
Proof.
  intros Ha. apply map_empty. intros id. apply eq_None_not_Some.
  intros [q Hq]. rewrite inner_lookup in Hq. by apply (Ha id q).
Qed.

Lemma tryRemove_tables_nothing h db (tids : list Z) :
  (∀ t, t ∈ tids → inner (tableTasks db) t = ∅) →
  TryRemoveByTableIDs h db tids = ([], db) ∧ GetTasksByTableIDs db tids = [].
Proof.
  intros Hempty. unfold TryRemoveByTableIDs, GetTasksByTableIDs.
  induction tids as [|t tids IH]; simpl; [done|].
  rewrite (Hempty t) by (by left). rewrite range_values_empty. simpl.
  apply IH. intros t' Ht'. apply Hempty. by right.
Qed.

(** X6. After [TryRemoveBySchemaID sid] the schema holds no task: its queries
    answer empty and zero, a second call returns nothing and changes nothing.
    The DB has shrunk by exactly the number of tasks the schema had, and the
    queries of every other schema answer as before. *)
Theorem TryRemoveBySchemaID_idempotent (h : gmap ptr SpanReplication)
    (db : ReplicationDB) (sid : Z) :
  db_wf h db →
  let r := TryRemoveBySchemaID h db sid in
  GetTasksBySchemaID r.2 sid = [] ∧
  GetTaskSizeBySchemaID r.2 sid = 0 ∧
  TryRemoveBySchemaID h r.2 sid = ([], r.2) ∧
  TaskSize r.2 = TaskSize db - GetTaskSizeBySchemaID db sid ∧
  (∀ sid', sid' ≠ sid →
     GetTasksBySchemaID r.2 sid' = GetTasksBySchemaID db sid' ∧
     GetTaskSizeBySchemaID r.2 sid' = GetTaskSizeBySchemaID db sid').
Proof.
  intros Hinv%db_wf_inv r.
  destruct (tryRemove_schema_loop h db sid [] Hinv) as (Hinv' & Hl & _).
  fold (TryRemoveBySchemaID h db sid) in Hinv', Hl. fold r in Hinv', Hl.
  assert (inner (schemaTasks r.2) sid = ∅) as Hempty.
  { apply inner_empty. intros id q Hq.
    apply (inv_schema _ _ Hinv') in Hq as [Hq Hs]. apply Hl in Hq. tauto. }
  assert (∀ db0 k, GetTaskSizeBySchemaID db0 k
                   = Z.of_nat (size (inner (schemaTasks db0) k))) as Hsize.
  { intros db0 k. unfold GetTaskSizeBySchemaID, inner.
    by destruct (schemaTasks db0 !! k). }
  split_and!.
  - by rewrite GetTasksBySchemaID_inner, Hempty, range_values_empty.
  - by rewrite Hsize, Hempty.
  - unfold TryRemoveBySchemaID at 1. by rewrite Hempty, range_values_empty.
  - rewrite Hsize. unfold TaskSize.
    assert (allTasks db = allTasks r.2 ∪ inner (schemaTasks db) sid
            ∧ allTasks r.2 ##ₘ inner (schemaTasks db) sid) as [Hu Hd].
    { assert (allTasks r.2 ##ₘ inner (schemaTasks db) sid) as Hd.
      { apply map_disjoint_spec. intros id x y Hx Hy.
        rewrite inner_lookup in Hy. apply (inv_schema _ _ Hinv) in Hy as [Hy Hs].
        apply Hl in Hx as [Hx Hne]. congruence. }
      split; [|done]. apply map_eq. intros id. apply option_eq. intros q.
      rewrite lookup_union_Some by done.
      rewrite Hl, inner_lookup, (inv_schema _ _ Hinv).
      destruct (decide (schemaID (deref h q) = sid)); naive_solver. }
    rewrite Hu, map_size_disj_union by done. lia.
  - intros sid' Hne.
    assert (inner (schemaTasks r.2) sid' = inner (schemaTasks db) sid') as Hsame.
    { apply inner_ext. intros id q.
      rewrite (inv_schema _ _ Hinv'), (inv_schema _ _ Hinv), Hl. naive_solver. }
    by rewrite !GetTasksBySchemaID_inner, !Hsize, Hsame.
Qed.

(** Instance of X6: schema 7 of the example DB is dropped; only the DDL span
    is left. *)
Lemma TryRemoveBySchemaID_idempotent_example :
  db_wf example_heap example_db ∧
  TryRemoveBySchemaID example_heap
    (TryRemoveBySchemaID example_heap example_db 7).2 7
    = ([], (TryRemoveBySchemaID example_heap example_db 7).2) ∧
  TaskSize (TryRemoveBySchemaID example_heap example_db 7).2 = 1.
Proof.
  split; [exact example_db_wf|].
  destruct (TryRemoveBySchemaID_idempotent example_heap example_db 7 example_db_wf)
    as (_ & _ & Hagain & Hsz & _).
  split; [exact Hagain|]. rewrite Hsz. reflexivity.
Defined.

(** X7. After [TryRemoveByTableIDs tids] none of the tables exists: their
    queries answer empty, a second call returns nothing and changes nothing;
    a table that was not named is answered for as before. *)
Theorem TryRemoveByTableIDs_idempotent (h : gmap ptr SpanReplication)
    (db : ReplicationDB) (tids : list Z) :
  db_wf h db →
  let r := TryRemoveByTableIDs h db tids in
  (∀ t, t ∈ tids → IsTableExists r.2 t = false) ∧
  GetTasksByTableIDs r.2 tids = [] ∧
  TryRemoveByTableIDs h r.2 tids = ([], r.2) ∧
  (∀ t, t ∉ tids →
     IsTableExists r.2 t = IsTableExists db t ∧
     GetTasksByTableIDs r.2 [t] = GetTasksByTableIDs db [t]).
Proof.
  intros Hinv%db_wf_inv r.
  destruct (TryRemoveByTableIDs_loop h tids [] db Hinv) as (Hinv' & Hl & _).
  fold (TryRemoveByTableIDs h db tids) in Hinv', Hl. fold r in Hinv', Hl.
  assert (∀ t, t ∈ tids → inner (tableTasks r.2) t = ∅) as Hempty.
  { intros t Ht. apply inner_empty. intros id q Hq.
    apply (inv_table _ _ Hinv') in Hq as [Hq Hs]. apply Hl in Hq as [_ Hq].
    by rewrite Hs in Hq. }
  destruct (tryRemove_tables_nothing h r.2 tids Hempty) as [Hagain Hquery].
  split_and!; [|done|done|].
  - intros t Ht. apply not_true_is_false.
    intros (id & q & Hq & Hs)%(IsTableExists_true _ _ _ Hinv').
    apply Hl in Hq as [_ Hq]. by rewrite Hs in Hq.
  - intros t Ht. split.
    + apply eq_true_iff_eq.
      rewrite (IsTableExists_true _ _ _ Hinv'), (IsTableExists_true _ _ _ Hinv).
      setoid_rewrite Hl. naive_solver.
    + unfold GetTasksByTableIDs. simpl.
      rewrite (inner_ext (tableTasks r.2) (tableTasks db) t t); [done|].
      intros id q.
      rewrite (inv_table _ _ Hinv'), (inv_table _ _ Hinv), Hl. naive_solver.
Qed.

(** Instance of X7: tables 42 and 43 of the example DB are dropped. *)
Lemma TryRemoveByTableIDs_idempotent_example :
  db_wf example_heap example_db ∧
  IsTableExists (TryRemoveByTableIDs example_heap example_db [42; 43]).2 42 = false ∧
  TryRemoveByTableIDs example_heap
    (TryRemoveByTableIDs example_heap example_db [42; 43]).2 [42; 43]
    = ([], (TryRemoveByTableIDs example_heap example_db [42; 43]).2).
Proof.
  split; [exact example_db_wf|].
  destruct (TryRemoveByTableIDs_idempotent example_heap example_db [42; 43]
              example_db_wf) as (Hgone & _ & Hagain & _).
  split; [|exact Hagain]. apply Hgone. by left.
Defined.

(** ** Moving a table between schemas, repeatedly *)

Lemma SetSchemaID_twice s1 s2 x :
  SetSchemaID s2 (SetSchemaID s1 x) = SetSchemaID s2 x.
Proof. reflexivity. Qed.

Lemma SetSchemaID_same x : SetSchemaID (schemaID x) x = x.
Proof. by destruct x. Qed.

Lemma UpdateSchemaID_loop_heap s' (L : list ptr) :
  ∀ (h : gmap ptr SpanReplication) db,
    let r := foldl (updateSchemaIDStep s') (h, db) L in
    changefeedID r.2 = changefeedID db ∧
    ∀ q, r.1 !! q =
         if decide (q ∈ L) then Some (SetSchemaID s' (deref h q)) else h !! q.
Proof.
  induction L as [|p L IH]; intros h db; simpl.
  - done.
  - destruct (updateSchemaIDStep s' (h, db) p) as [h1 db1] eqn:E.
    assert (h1 = <[p := SetSchemaID s' (deref h p)]> h) as Hh1
      by (by injection E as <- _).
    assert (changefeedID db1 = changefeedID db) as Hc by (by injection E as _ <-).
    destruct (IH h1 db1) as [Hcf Hlook]. split; [congruence|].
    intros q. rewrite Hlook, Hh1, deref_insert.
    destruct (decide (q ∈ L)) as [HqL|HqL], (decide (p = q)) as [<-|Hne],
      (decide (_ ∈ _ :: _)) as [Hc'|Hc']; try done;
      try (rewrite elem_of_cons in Hc'; exfalso; naive_solver).
    + by rewrite lookup_insert_eq.
    + by rewrite lookup_insert_ne.
Qed.

Lemma db_inv_eq h db1 db2 :
  db_inv h db1 → db_inv h db2 →
  changefeedID db1 = changefeedID db2 → allTasks db1 = allTasks db2 →
  tableTasks db1 = tableTasks db2 → tracker db1 = tracker db2 →
  ddlSpan db1 = ddlSpan db2 → db1 = db2.
Proof.
  intros H1 H2 Hc Ha Ht Hr Hd.
  assert (schemaTasks db1 = schemaTasks db2) as Hs.
  { apply index_ext; [apply H1|apply H2|]. intros k id. apply option_eq.
    intros q. by rewrite (inv_schema _ _ H1), (inv_schema _ _ H2), Ha. }
  destruct db1, db2. simpl in *. congruence.
Qed.

Lemma UpdateSchemaID_spec h db t s' :
  db_inv h db →
  let r := UpdateSchemaID h db t s' in
  db_inv r.1 r.2 ∧
  changefeedID r.2 = changefeedID db ∧ allTasks r.2 = allTasks db ∧
  tableTasks r.2 = tableTasks db ∧ tracker r.2 = tracker db ∧
  ddlSpan r.2 = ddlSpan db ∧
  ∀ q, r.1 !! q =
       if decide (q ∈ range_values (inner (tableTasks db) t))
       then Some (SetSchemaID s' (deref h q)) else h !! q.
Proof.
  intros Hinv. unfold UpdateSchemaID.
  set (L := range_values (inner (tableTasks db) t)). simpl.
  assert (∀ p, p ∈ L → allTasks db !! span_ID (deref h p) = Some p) as HL.
  { intros p (id & Hp & _)%(elem_of_table_values _ _ _ _ Hinv).
    by rewrite (inv_deref_ID _ _ _ _ Hinv Hp). }
  destruct (UpdateSchemaID_loop s' L h db Hinv HL) as (Hi & Ha & Ht & Hr & Hd & _).
  destruct (UpdateSchemaID_loop_heap s' L h db) as [Hc Hlook].
  simpl in *. done.
Qed.

(** X8. Calls of [UpdateSchemaID] on one table compose: the last schema id
    wins, so moving a table to [s1] and then to [s2] gives the very same heap
    and DB as moving it to [s2] at once; moving a table whose spans all have
    schema id [s2] already to [s2] changes nothing; hence moving such a table
    away and back gives back the state one started from. *)
Theorem UpdateSchemaID_composes (h : gmap ptr SpanReplication)
    (db : ReplicationDB) (t s1 s2 : Z) :
  db_wf h db →
  let r1 := UpdateSchemaID h db t s1 in
  UpdateSchemaID r1.1 r1.2 t s2 = UpdateSchemaID h db t s2 ∧
  ((∀ p, p ∈ GetTasksByTableIDs db [t] → schemaID (deref h p) = s2) →
     UpdateSchemaID h db t s2 = (h, db) ∧
     UpdateSchemaID r1.1 r1.2 t s2 = (h, db)).
Proof.
  intros Hinv%db_wf_inv r1.
  destruct (UpdateSchemaID_spec h db t s1 Hinv)
    as (Hi1 & Hc1 & Ha1 & Ht1 & Hr1 & Hd1 & Hh1). fold r1 in Hi1, Hc1, Ha1, Ht1, Hr1, Hd1, Hh1.
  destruct (UpdateSchemaID_spec h db t s2 Hinv)
    as (Hi2 & Hc2 & Ha2 & Ht2 & Hr2 & Hd2 & Hh2).
  destruct (UpdateSchemaID_spec r1.1 r1.2 t s2 Hi1)
    as (Hi12 & Hc12 & Ha12 & Ht12 & Hr12 & Hd12 & Hh12).
  set (r2 := UpdateSchemaID h db t s2) in *.
  set (r12 := UpdateSchemaID r1.1 r1.2 t s2) in *.
  set (L := range_values (inner (tableTasks db) t)) in *.
  rewrite Ht1 in Hh12. fold L in Hh12.
  assert (r12 = r2) as Hlast.
  { assert (r12.1 = r2.1) as Hheap.
    { apply map_eq. intros q. rewrite Hh12, Hh2.
      destruct (decide (q ∈ L)) as [HqL|HqL].
      - f_equal. unfold deref at 1, lookup_total, map_lookup_total.
        rewrite Hh1, decide_True by done. reflexivity.
      - rewrite Hh1, decide_False by done. reflexivity. }
    destruct r12 as [h12 db12], r2 as [h2 db2]. simpl in *. subst h12.
    f_equal. apply (db_inv_eq h2); [done|done|congruence..]. }
  split; [done|]. intros Hall.
  assert (r2 = (h, db)) as Hnoop; [|split; congruence].
  assert (r2.1 = h) as Hheap.
  { apply map_eq. intros q. rewrite Hh2.
    destruct (decide (q ∈ L)) as [HqL|HqL]; [|done].
    assert (schemaID (deref h q) = s2) as Hq.
    { apply Hall. unfold GetTasksByTableIDs. simpl. exact HqL. }
    apply (elem_of_table_values _ _ _ _ Hinv) in HqL as (id & Hid & _).
    destruct (inv_alloc _ _ Hinv _ _ Hid) as (s & Hs & _).
    rewrite (deref_Some _ _ _ Hs) in *. rewrite Hs. f_equal.
    rewrite <- Hq. apply SetSchemaID_same. }
  destruct r2 as [h2 db2]. simpl in *. subst h2.
  f_equal. apply (db_inv_eq h); [done|done|congruence..].
Qed.

(** Instance of X8: table 42 goes from schema 7 to 9 and back. *)
Lemma UpdateSchemaID_composes_example :
  db_wf example_heap example_db ∧
  UpdateSchemaID (UpdateSchemaID example_heap example_db 42 9).1
    (UpdateSchemaID example_heap example_db 42 9).2 42 7
    = (example_heap, example_db).
Proof.
  split; [exact example_db_wf|].
  destruct (UpdateSchemaID_composes example_heap example_db 42 9 7 example_db_wf)
    as [_ Hback].
  apply Hback. intros p Hp.
  assert (GetTasksByTableIDs example_db [42] = [2%positive]) as E by reflexivity.
  rewrite E in Hp. apply list_elem_of_singleton in Hp. by subst p.
Defined.

(** ** A new DB *)

(** X9. A DB made by [NewReplicaSetDB] for an allocated DDL span satisfies
    the invariant and holds the DDL span and nothing else: it is the only
    task, found under its id, its schema id and its table id, in none of the
    partitions; [TryRemoveAll] on such a DB returns nothing and gives back the
    same DB. *)
Theorem NewReplicaSetDB_fresh (h : gmap ptr SpanReplication) (cf : ChangeFeedID)
    (ddl : ptr) :
  is_Some (h !! ddl) →
  let db := NewReplicaSetDB h cf ddl in
  db_wf h db ∧
  GetDDLDispatcher db = ddl ∧
  GetAllTasks db = [ddl] ∧
  TaskSize db = 1 ∧
  GetTaskByID db (span_ID (deref h ddl)) = Some ddl ∧
  (∀ id, id ≠ span_ID (deref h ddl) → GetTaskByID db id = None) ∧
  GetTasksBySchemaID db (schemaID (deref h ddl)) = [ddl] ∧
  GetTasksByTableIDs db [TableID (Span (deref h ddl))] = [ddl] ∧
  (∀ t, IsTableExists db t = bool_decide (t = TableID (Span (deref h ddl)))) ∧
  GetAbsentWithoutLock (tracker db) = [] ∧
  GetSchedulingWithoutLock (tracker db) = [] ∧
  GetReplicatingWithoutLock (tracker db) = [] ∧
  TryRemoveAll h db = ([], db).
Proof.
  intros Hddl db.
  assert (∀ (k : DispatcherID) (p : ptr),
            range_values (<[k := p]> (∅ : gmap DispatcherID ptr)) = [p]) as Hone.
  { intros k p. unfold range_values.
    change (<[k := p]> (∅ : gmap DispatcherID ptr)) with ({[k := p]} : gmap DispatcherID ptr).
    by rewrite map_to_list_singleton. }
  split_and!.
  - by apply NewReplicaSetDB_wf.
  - reflexivity.
  - apply Hone.
  - unfold TaskSize. simpl. by rewrite map_size_insert_None, map_size_empty.
  - unfold GetTaskByID. simpl. by rewrite lookup_insert_eq.
  - intros id Hne. unfold GetTaskByID. simpl. by rewrite lookup_insert_ne.
  - unfold GetTasksBySchemaID. simpl. rewrite lookup_insert_eq. apply Hone.
  - unfold GetTasksByTableIDs, inner. simpl. rewrite lookup_insert_eq. apply Hone.
  - intros t. unfold IsTableExists. simpl.
    destruct (decide (t = TableID (Span (deref h ddl)))) as [->|Hne].
    + rewrite lookup_insert_eq, map_size_singleton.
      by rewrite !bool_decide_eq_true_2 by (done || lia).
    + rewrite lookup_insert_ne, lookup_empty by done.
      by rewrite bool_decide_eq_false_2.
  - apply range_values_empty.
  - apply range_values_empty.
  - apply range_values_empty.
  - unfold TryRemoveAll, GetReplicatingWithoutLock, GetSchedulingWithoutLock.
    simpl. by rewrite !range_values_empty.
Qed.

(** Instance of X9: a DB made for the DDL span of the example heap. *)
Lemma NewReplicaSetDB_fresh_example :
  is_Some (example_heap !! 1%positive) ∧
  db_wf example_heap (NewReplicaSetDB example_heap "cf" 1%positive) ∧
  TryRemoveAll example_heap (NewReplicaSetDB example_heap "cf" 1%positive)
    = ([], NewReplicaSetDB example_heap "cf" 1%positive).
Proof.
  assert (is_Some (example_heap !! 1%positive)) as Hddl by (by eexists).
  split; [exact Hddl|].
  destruct (NewReplicaSetDB_fresh example_heap "cf" 1%positive Hddl)
    as (Hwf & _ & _ & _ & _ & _ & _ & _ & _ & _ & _ & _ & Hall).
  split; [exact Hwf|exact Hall].
Defined.

(** ** Whom the pass action is sent to *)

Lemma range_values_NoDup_key {A} (f : A → NodeID) (m : gmap NodeID A) :
  (∀ k v, m !! k = Some v → f v = k) → NoDup (f <$> range_values m).
Proof.
  intros Hf. unfold range_values. rewrite <- list_fmap_compose.
  rewrite (list_fmap_ext (f ∘ snd) fst (map_to_list m)).
  - apply NoDup_fst_map_to_list.
  - intros i [k v] Hi%list_elem_of_lookup_2%elem_of_map_to_list. simpl. eauto.
Qed.

Lemma passMessage_snoc be bd n ids id :
  passMessage be bd n (ids ++ [id]) = appendDispatcherID id (passMessage be bd n ids).
Proof. unfold passMessage. by rewrite foldl_snoc. Qed.

Lemma passMessage_fields be bd n ids :
  To (passMessage be bd n ids) = n ∧
  msg_dispatchers (passMessage be bd n ids) = ids ∧
  msg_excluded (passMessage be bd n ids) = [writerDispatcher be] ∧
  msg_actions (passMessage be bd n ids) = [Action_Pass] ∧
  ∃ ds, Message (passMessage be bd n ids) =
          [ {| ChangefeedID := cfID be; DispatcherStatuses := [ds] |} ].
Proof.
  induction ids as [|id ids IH] using rev_ind.
  - split_and!; try reflexivity. by eexists.
  - rewrite passMessage_snoc. destruct IH as (HTo & Hd & He & Ha & ds & Hm).
    unfold appendDispatcherID, msg_dispatchers, msg_excluded, msg_actions in *.
    rewrite Hm in *. simpl in *. rewrite !app_nil_r in *.
    split_and!; [done|by rewrite Hd|done|done|by eexists].
Qed.

Lemma sendPass_DB_loop h be bd (l : list ptr) :
  ∀ n m,
    foldl (λ (msgMap : gmap NodeID TargetMessage) stm,
             let nodeID := GetNodeID (deref h stm) in
             if decide (nodeID = "") then msgMap
             else match msgMap !! nodeID with
                  | Some _ => msgMap
                  | None => <[nodeID := newPassActionMessage be bd nodeID]> msgMap
                  end) ∅ l !! n = Some m ↔
    n ≠ "" ∧ (∃ p, p ∈ l ∧ GetNodeID (deref h p) = n) ∧
    m = newPassActionMessage be bd n.
Proof.
  induction l as [|p l IH] using rev_ind; intros n m.
  - simpl. rewrite lookup_empty. split; [done|].
    by intros (_ & (p & []%not_elem_of_nil & _) & _).
  - rewrite foldl_snoc. cbv zeta.
    set (M := foldl _ ∅ l) in *.
    setoid_rewrite elem_of_app. setoid_rewrite list_elem_of_singleton.
    destruct (decide (GetNodeID (deref h p) = "")) as [He|Hne].
    { rewrite IH. naive_solver. }
    destruct (M !! GetNodeID (deref h p)) as [m0|] eqn:Hm0.
    { rewrite IH. apply IH in Hm0. naive_solver. }
    destruct (decide (GetNodeID (deref h p) = n)) as [<-|Hn].
    + rewrite lookup_insert_eq. naive_solver.
    + rewrite lookup_insert_ne by done. rewrite IH. naive_solver.
Qed.

Lemma sendPass_All_loop be bd (l : list NodeID) :
  ∀ n m,
    foldl (λ (msgMap : gmap NodeID TargetMessage) n,
             <[n := newPassActionMessage be bd n]> msgMap) ∅ l !! n = Some m ↔
    n ∈ l ∧ m = newPassActionMessage be bd n.
Proof.
  induction l as [|k l IH] using rev_ind; intros n m.
  - simpl. rewrite lookup_empty. split; [done|]. by intros [[]%not_elem_of_nil _].
  - rewrite foldl_snoc, elem_of_app, list_elem_of_singleton.
    destruct (decide (k = n)) as [<-|Hn].
    + rewrite lookup_insert_eq. naive_solver.
    + rewrite lookup_insert_ne by done. rewrite IH. naive_solver.
Qed.

Lemma sendPass_Normal_loop h be bd (l : list ptr) :
  ∀ n m,
    foldl (λ (msgMap : gmap NodeID TargetMessage) stm,
             let nodeID := GetNodeID (deref h stm) in
             let dispatcherID := span_ID (deref h stm) in
             if decide (dispatcherID = writerDispatcher be) then msgMap
             else
               let msg := match msgMap !! nodeID with
                          | Some msg => msg
                          | None => newPassActionMessage be bd nodeID
                          end in
               <[nodeID := appendDispatcherID dispatcherID msg]> msgMap) ∅ l
      !! n = Some m ↔
    passed_on h be n l ≠ [] ∧ m = passMessage be bd n (passed_on h be n l).
Proof.
  induction l as [|p l IH] using rev_ind; intros n m.
  - simpl. rewrite lookup_empty. split; [done|]. by intros [? _].
  - rewrite foldl_snoc. cbv zeta.
    set (M := foldl _ ∅ l) in *.
    unfold passed_on in *. rewrite filter_app, fmap_app.
    rewrite filter_cons, filter_nil.
    destruct (decide (span_ID (deref h p) = writerDispatcher be)) as [Hw|Hw].
    { rewrite decide_False by tauto. simpl. rewrite app_nil_r. apply IH. }
    destruct (decide (GetNodeID (deref h p) = n)) as [<-|Hn].
    + rewrite decide_True by done. simpl. rewrite lookup_insert_eq.
      set (ids := (λ p, span_ID (deref h p)) <$> filter _ l) in *.
      assert (match M !! GetNodeID (deref h p) with
              | Some msg => msg
              | None => newPassActionMessage be bd (GetNodeID (deref h p))
              end = passMessage be bd (GetNodeID (deref h p)) ids) as ->.
      { destruct (M !! GetNodeID (deref h p)) as [m0|] eqn:Hm0.
        - by apply IH in Hm0 as [_ ->].
        - destruct ids as [|i ids'] eqn:Hids; [done|].
          exfalso. pose proof (IH (GetNodeID (deref h p))
                                 (passMessage be bd (GetNodeID (deref h p)) ids)) as [_ HI].
          rewrite Hm0 in HI. fold ids in HI. rewrite Hids in HI.
          by discriminate HI. }
      rewrite <- passMessage_snoc.
      split; [intros [= <-]; split; [|done]|by intros [_ ->]].
      by destruct ids.
    + rewrite decide_False by tauto. simpl. rewrite app_nil_r.
      rewrite lookup_insert_ne by done. apply IH.
Qed.

Lemma sendPassAction_elem h c be bd :
  blockedDispatchers be = Some bd →
  let db := replicationDB c in
  let msgs := sendPassAction h c be in
  (InfluenceType_of bd = InfluenceType_DB →
     ∀ m, m ∈ msgs ↔
       ∃ p, p ∈ GetTasksBySchemaID db (SchemaID bd) ∧
            GetNodeID (deref h p) ≠ "" ∧
            m = newPassActionMessage be bd (GetNodeID (deref h p))) ∧
  (InfluenceType_of bd = InfluenceType_All →
     ∀ m, m ∈ msgs ↔ ∃ n, n ∈ GetAllNodes c ∧ m = newPassActionMessage be bd n) ∧
  (InfluenceType_of bd = InfluenceType_Normal →
     ∀ m, m ∈ msgs ↔
       ∃ n, passed_on h be n (GetTasksByTableIDs db (TableIDs bd)) ≠ [] ∧
            m = passMessage be bd n
                  (passed_on h be n (GetTasksByTableIDs db (TableIDs bd)))) ∧
  NoDup (To <$> msgs).
Proof.
  intros Hbd db msgs. unfold msgs, sendPassAction. rewrite Hbd. fold db.
  split_and!.
  - intros Hty m. rewrite Hty, elem_of_range_values.
    setoid_rewrite sendPass_DB_loop. naive_solver.
  - intros Hty m. rewrite Hty, elem_of_range_values.
    setoid_rewrite sendPass_All_loop. naive_solver.
  - intros Hty m. rewrite Hty, elem_of_range_values.
    setoid_rewrite sendPass_Normal_loop. naive_solver.
  - apply range_values_NoDup_key. intros n m.
    destruct (InfluenceType_of bd).
    + rewrite sendPass_Normal_loop. intros [_ ->]. apply passMessage_fields.
    + rewrite sendPass_DB_loop. by intros (_ & _ & ->).
    + rewrite sendPass_All_loop. by intros (_ & ->).
Qed.

(** X10. Whom [sendPassAction] writes to.  At most one message goes to a
    node.  For a block of a whole schema the messages are the empty pass
    messages for the nodes of the scheduled tasks of that schema: a task
    without a node gets none.  For a block of everything they are the empty
    pass messages for the alive nodes.  For a block of given tables there is
    one message per node that runs a non-writer dispatcher of these tables,
    and it lists these dispatchers in the order of [GetTasksByTableIDs]. *)
Theorem sendPassAction_targets (h : gmap ptr SpanReplication) (c : Controller)
    (be : BarrierEvent) (bd : InfluencedTables) :
  blockedDispatchers be = Some bd →
  let db := replicationDB c in
  let msgs := sendPassAction h c be in
  NoDup (To <$> msgs) ∧
  (InfluenceType_of bd = InfluenceType_DB →
     ∀ m, m ∈ msgs ↔
       ∃ p, p ∈ GetTasksBySchemaID db (SchemaID bd) ∧
            GetNodeID (deref h p) ≠ "" ∧
            m = newPassActionMessage be bd (GetNodeID (deref h p))) ∧
  (InfluenceType_of bd = InfluenceType_All →
     ∀ m, m ∈ msgs ↔ ∃ n, n ∈ GetAllNodes c ∧ m = newPassActionMessage be bd n) ∧
  (InfluenceType_of bd = InfluenceType_Normal →
     ∀ m, m ∈ msgs ↔
       ∃ n, passed_on h be n (GetTasksByTableIDs db (TableIDs bd)) ≠ [] ∧
            m = passMessage be bd n
                  (passed_on h be n (GetTasksByTableIDs db (TableIDs bd)))).
Proof.
  intros Hbd db msgs.
  destruct (sendPassAction_elem h c be bd Hbd) as (HDB & HAll & HNormal & Hnd).
  split_and!; done.
Qed.

(** X11. What the pass messages say.  Without blocked dispatchers nothing is
    sent.  Every message excludes the writer and never lists it.  For a block
    of given tables, every non-writer dispatcher of these tables is listed in
    the message to the node it runs on, be that node the empty one, and a
    message lists only such dispatchers of its own node. *)
Theorem sendPassAction_lists (h : gmap ptr SpanReplication) (c : Controller)
    (be : BarrierEvent) :
  let msgs := sendPassAction h c be in
  let db := replicationDB c in
  (blockedDispatchers be = None → msgs = []) ∧
  (∀ m, m ∈ msgs →
     msg_excluded m = [writerDispatcher be] ∧
     writerDispatcher be ∉ msg_dispatchers m) ∧
  (∀ bd, blockedDispatchers be = Some bd →
     InfluenceType_of bd = InfluenceType_Normal →
     (∀ p, p ∈ GetTasksByTableIDs db (TableIDs bd) →
        span_ID (deref h p) ≠ writerDispatcher be →
        ∃ m, m ∈ msgs ∧ To m = GetNodeID (deref h p) ∧
             span_ID (deref h p) ∈ msg_dispatchers m) ∧
     (∀ m d, m ∈ msgs → d ∈ msg_dispatchers m →
        ∃ p, p ∈ GetTasksByTableIDs db (TableIDs bd) ∧
             span_ID (deref h p) = d ∧ GetNodeID (deref h p) = To m)) ∧
  (∀ bd, blockedDispatchers be = Some bd →
     InfluenceType_of bd ≠ InfluenceType_Normal →
     ∀ m, m ∈ msgs → msg_dispatchers m = []).
Proof.
  intros msgs db.
  assert (∀ n l d, d ∈ passed_on h be n l ↔
            ∃ p, p ∈ l ∧ span_ID (deref h p) = d ∧
                 d ≠ writerDispatcher be ∧ GetNodeID (deref h p) = n) as Hpassed.
  { intros n l d. unfold passed_on. rewrite list_elem_of_fmap.
    setoid_rewrite list_elem_of_filter. naive_solver. }
  split_and!.
  - intros Hbd. unfold msgs, sendPassAction. by rewrite Hbd.
  - intros m Hm. destruct (blockedDispatchers be) as [bd|] eqn:Hbd.
    + destruct (sendPassAction_elem h c be bd Hbd) as (HDB & HAll & HNormal & _).
      fold msgs in HDB, HAll, HNormal.
      destruct (InfluenceType_of bd) eqn:Hty.
      * destruct (proj1 (HNormal eq_refl m) Hm) as (n & _ & Hmeq). subst m.
        destruct (passMessage_fields be bd n
                    (passed_on h be n (GetTasksByTableIDs (replicationDB c)
                                         (TableIDs bd)))) as (_ & -> & -> & _).
        split; [done|]. intros Hw%Hpassed. naive_solver.
      * destruct (proj1 (HDB eq_refl m) Hm) as (p & _ & _ & Hmeq). subst m.
        split; [done|]. apply not_elem_of_nil.
      * destruct (proj1 (HAll eq_refl m) Hm) as (n & _ & Hmeq). subst m.
        split; [done|]. apply not_elem_of_nil.
    + unfold msgs, sendPassAction in Hm. rewrite Hbd in Hm.
      by apply not_elem_of_nil in Hm.
  - intros bd Hbd Hty.
    destruct (sendPassAction_elem h c be bd Hbd) as (_ & _ & HNormal & _).
    fold msgs in HNormal. specialize (HNormal Hty). fold db in HNormal.
    split.
    + intros p Hp Hw.
      set (n := GetNodeID (deref h p)).
      set (ids := passed_on h be n (GetTasksByTableIDs db (TableIDs bd))).
      assert (span_ID (deref h p) ∈ ids) as Hin by (apply Hpassed; eauto).
      exists (passMessage be bd n ids).
      destruct (passMessage_fields be bd n ids) as (-> & -> & _).
      split_and!; [|done|done].
      apply HNormal. exists n. split; [|done]. intros E. fold ids in E.
      rewrite E in Hin. by apply not_elem_of_nil in Hin.
    + intros m d Hm. destruct (proj1 (HNormal m) Hm) as (n & _ & Hmeq). subst m.
      destruct (passMessage_fields be bd n
                  (passed_on h be n (GetTasksByTableIDs db (TableIDs bd))))
        as (-> & -> & _).
      intros Hd%Hpassed. naive_solver.
  - intros bd Hbd Hty m Hm.
    destruct (sendPassAction_elem h c be bd Hbd) as (HDB & HAll & _ & _).
    fold msgs in HDB, HAll.
    destruct (InfluenceType_of bd) eqn:Hty'; [done|..].
    + by destruct (proj1 (HDB eq_refl m) Hm) as (p & _ & _ & ->).
    + by destruct (proj1 (HAll eq_refl m) Hm) as (n & _ & ->).
Qed.

(** Instance of X10: after the writer (dispatcher 3) has advanced, the only
    other dispatcher of tables 42 and 43 is dispatcher 2, which has no node:
    the one pass message goes to the empty node and lists it. *)
Lemma sendPassAction_targets_example :
  blockedDispatchers example_advanced =
    Some {| InfluenceType_of := InfluenceType_Normal; TableIDs := [42; 43];
            SchemaID := 7 |} ∧
  passMessage example_advanced
    {| InfluenceType_of := InfluenceType_Normal; TableIDs := [42; 43];
       SchemaID := 7 |} "" [2%N]
    ∈ sendPassAction example_heap example_controller example_advanced ∧
  NoDup (To <$> sendPassAction example_heap example_controller example_advanced).
Proof.
  split; [reflexivity|].
  destruct (sendPassAction_targets example_heap example_controller
              example_advanced
              {| InfluenceType_of := InfluenceType_Normal; TableIDs := [42; 43];
                 SchemaID := 7 |} eq_refl) as (Hnd & _ & _ & HNormal).
  split; [|exact Hnd].
  apply (HNormal eq_refl). exists "". split; [|reflexivity].
  vm_compute. discriminate.
Defined.

(** ** One tick of [resend] *)

Lemma set_times_eta be :
  set_lastWarningLogTime (lastWarningLogTime be)
    (set_lastResendTime (lastResendTime be) be) = be.
Proof. by destruct be. Qed.

(** X12. What a tick of [resend] changes.  Of the event only the two time
    stamps can change.  A rate-limited tick changes nothing and reads the
    clock once.  [lastResendTime] is kept while the event is not selected and
    is set to the second clock reading of any other tick that is not
    rate-limited, also when nothing could be sent.  [lastWarningLogTime]
    changes only when more than ten seconds have passed since, and then to a
    later clock reading.  A tick reads the clock between one and four
    times.  A tick panics exactly when it is not rate-limited, its warning is
    due and the event has no range checker; [lastWarningLogTime] is then left
    as it was. *)
Theorem resend_frame (clk : nat → Time) (h : gmap ptr SpanReplication)
    (c : Controller) (be : BarrierEvent) (n : nat) :
  let r := resend clk h c (be, n) in
  r.2.1 = set_lastWarningLogTime (lastWarningLogTime r.2.1)
            (set_lastResendTime (lastResendTime r.2.1) be) ∧
  (n < r.2.2 ≤ n + 4)%nat ∧
  (time_Sub (clk n) (lastResendTime be) < Second → r = (Ok [], (be, S n))) ∧
  (selected be = false → lastResendTime r.2.1 = lastResendTime be) ∧
  (selected be = true → ¬ time_Sub (clk n) (lastResendTime be) < Second →
     lastResendTime r.2.1 = clk (S n)) ∧
  (lastWarningLogTime r.2.1 ≠ lastWarningLogTime be →
     ∃ k, (n < k ∧ S k < r.2.2)%nat ∧
          lastWarningLogTime r.2.1 = clk (S k) ∧
          time_Sub (clk k) (lastWarningLogTime be) > Second * 10) ∧
  ((∃ msg, r.1 = Panic msg) ↔
     ¬ time_Sub (clk n) (lastResendTime be) < Second ∧
     warning_panics clk be (if selected be then S (S n) else S n)) ∧
  ((∃ msg, r.1 = Panic msg) →
     lastWarningLogTime r.2.1 = lastWarningLogTime be).
Proof.
  intros r. unfold r, resend, deferred, resendWarning, warning_panics.
  destruct (decide (time_Sub (clk n) (lastResendTime be) < Second)) as [Hlim|Hlim].
  { cbn [fst snd]. split_and!; try done; try lia;
      try (by rewrite set_times_eta); try (by intros [? ?]).
    split; [by intros [? ?]|]. by intros [? _]. }
  destruct (selected be) eqn:Hsel; cbn [negb fst snd].
  - cbn [lastWarningLogTime rangeChecker set_lastResendTime].
    destruct (decide (time_Sub (clk (S (S n))) (lastWarningLogTime be)
                      > Second * 10)) as [Hw|Hw];
      [destruct (rangeChecker be) as [rc|] eqn:Hrc|]; cbn [fst snd];
      (split_and!; try done; try lia; try (by destruct be);
       try (by intros [? ?]);
       try (split; [by intros [? ?]|intros (_ & ? & ?); done]);
       try (split; [intros _; by split_and!|intros _; by eexists]);
       try (intros _; exists (S (S n)); split_and!; [lia|lia|done|done])).
  - destruct (decide (time_Sub (clk (S n)) (lastWarningLogTime be)
                      > Second * 10)) as [Hw|Hw];
      [destruct (rangeChecker be) as [rc|] eqn:Hrc|]; cbn [fst snd];
      (split_and!; try done; try lia; try (by destruct be);
       try (by rewrite set_times_eta);
       try (by intros [? ?]);
       try (split; [by intros [? ?]|intros (_ & ? & ?); done]);
       try (split; [intros _; by split_and!|intros _; by eexists]);
       try (intros _; exists (S n); split_and!; [lia|lia|done|done])).
Qed.

(** X13. What a tick of [resend] does when the event is selected and a
    second has passed.  It prepares the pass messages of [sendPassAction] once
    the writer has advanced; before that it prepares one write message, to
    the node of the writer's task, listing the writer alone and excluding
    nobody, or nothing when the writer has no task or its task has no node: it
    never writes to the empty node.  The prepared messages are what it
    returns, unless its warning is due on an event without a range checker:
    then it panics and returns nothing. *)
Theorem resend_messages (clk : nat → Time) (h : gmap ptr SpanReplication)
    (c : Controller) (be : BarrierEvent) (n : nat) :
  Second ≤ time_Sub (clk n) (lastResendTime be) →
  selected be = true →
  let r := resend clk h c (be, n) in
  ∃ msgs,
    (warning_panics clk be (S (S n)) → r.1 = Panic "nil pointer dereference") ∧
    (¬ warning_panics clk be (S (S n)) → r.1 = Ok msgs) ∧
    (writerDispatcherAdvanced be = true → msgs = sendPassAction h c be) ∧
    (writerDispatcherAdvanced be = false →
       (∀ p, GetTask c (writerDispatcher be) = Some p →
             GetNodeID (deref h p) ≠ "" →
             msgs = [newWriterActionMessage be (GetNodeID (deref h p))]) ∧
       (GetTask c (writerDispatcher be) = None → msgs = []) ∧
       (∀ p, GetTask c (writerDispatcher be) = Some p →
             GetNodeID (deref h p) = "" → msgs = []) ∧
       (∀ m, m ∈ msgs →
          To m ≠ "" ∧ msg_dispatchers m = [writerDispatcher be] ∧
          msg_excluded m = [] ∧ msg_actions m = [Action_Write])).
Proof.
  intros Hlim Hsel r. unfold r, resend.
  rewrite decide_False by lia. rewrite Hsel. cbn [negb].
  match goal with
  | |- context [deferred ?msgs ?w] => exists msgs
  end.
  split_and!.
  - intros [Hdue Hnone]. unfold deferred, resendWarning.
    cbn [lastWarningLogTime rangeChecker set_lastResendTime].
    rewrite decide_True by done. by rewrite Hnone.
  - intros Hno. unfold deferred, resendWarning, warning_panics in *.
    cbn [lastWarningLogTime rangeChecker set_lastResendTime].
    destruct (decide _) as [Hdue|]; [|done].
    destruct (rangeChecker be); [done|]. by destruct Hno.
  - cbn [writerDispatcherAdvanced writerDispatcher set_lastResendTime].
    intros ->. reflexivity.
  - cbn [writerDispatcherAdvanced writerDispatcher set_lastResendTime].
    intros ->. cbn [negb].
    destruct (GetTask c (writerDispatcher be)) as [p|] eqn:Hp.
    + destruct (decide (GetNodeID (deref h p) = "")) as [He|Hne].
      * split_and!; try done.
        -- by intros ? [= <-] ?.
        -- by intros m []%not_elem_of_nil.
      * split_and!; try done.
        -- by intros ? [= <-] ?.
        -- by intros ? [= <-] ?.
        -- by intros m ->%list_elem_of_singleton.
    + split_and!; try done. by intros m []%not_elem_of_nil.
Qed.

(** Instance of X13: the elected writer of the example is dispatcher 3 on
    node n2; the event has a range checker, so the first tick after a second
    returns the write action for it. *)
Lemma resend_messages_example :
  Second ≤ time_Sub (example_clock 1) (lastResendTime example_selected) ∧
  selected example_selected = true ∧
  (resend example_clock example_heap example_controller (example_selected, 1%nat)).1
    = Ok [newWriterActionMessage example_selected "n2"].
Proof.
  assert (Second ≤ time_Sub (example_clock 1) (lastResendTime example_selected))
    as Hlim by (vm_compute; discriminate).
  split; [exact Hlim|]. split; [reflexivity|].
  destruct (resend_messages example_clock example_heap example_controller
              example_selected 1 Hlim eq_refl) as (msgs & _ & Hok & _ & Hwrite).
  destruct (Hwrite eq_refl) as (Hsend & _).
  rewrite Hok.
  - f_equal. apply (Hsend 3%positive); [reflexivity|done].
  - intros [_ Hnone]. discriminate Hnone.
Defined.

(** ** A new block event *)

(** X14. A new block event is not selected and its writer has not advanced,
    so a tick of [resend] returns no message and leaves [lastResendTime] at
    the zero time.  It has a range checker exactly when the status names
    blocked tables.  Without blocked tables asking whether all dispatchers
    reported, electing the writer, and marking a known dispatcher as done all
    dereference the nil checker and panic, and so does a tick of [resend]
    that is not rate-limited once its warning is due; marking an unknown
    dispatcher is a no-op, and no pass action is sent.  With blocked tables
    the question is answered and no tick panics. *)
Theorem NewBlockEvent_initial (h : gmap ptr SpanReplication) (cf : ChangeFeedID)
    (c : Controller) (st : State) (dyn : bool) (now : Time) :
  let be := NewBlockEvent h cf c st dyn now in
  selected be = false ∧ writerDispatcherAdvanced be = false ∧
  lastResendTime be = zeroTime ∧ lastWarningLogTime be = now ∧
  blockedDispatchers be = BlockTables st ∧
  (∀ clk h' c' n,
     sent (resend clk h' c' (be, n)).1 = [] ∧
     lastResendTime (resend clk h' c' (be, n)).2.1 = zeroTime ∧
     ((∃ msg, (resend clk h' c' (be, n)).1 = Panic msg) ↔
        BlockTables st = None ∧
        ¬ time_Sub (clk n) zeroTime < Second ∧
        time_Sub (clk (S n)) now > Second * 10) ∧
     ((resend clk h' c' (be, n)).1 = Ok [] ∨
      ∃ msg, (resend clk h' c' (be, n)).1 = Panic msg)) ∧
  (is_Some (rangeChecker be) ↔ is_Some (BlockTables st)) ∧
  (BlockTables st = None →
     (∀ tableRange, ∃ msg, allDispatcherReported tableRange be = Panic msg) ∧
     (∀ ds, ∃ msg, onAllDispatcherReportedBlockEvent c be ds = Panic msg) ∧
     (∀ id p, GetTask c id = Some p →
        ∃ msg, markDispatcherEventDone h c be id = Panic msg) ∧
     (∀ id, GetTask c id = None → markDispatcherEventDone h c be id = Ok be) ∧
     sendPassAction h c be = []) ∧
  (is_Some (BlockTables st) →
     (∀ tableRange, ∃ b, allDispatcherReported tableRange be = Ok b) ∧
     (∀ id, ∃ be', markDispatcherEventDone h c be id = Ok be' ∧
                   set_rangeChecker (rangeChecker be) be' = be) ∧
     (∀ clk h' c' n, (resend clk h' c' (be, n)).1 = Ok [])).
Proof.
  intros be.
  assert (is_Some (rangeChecker be) ↔ is_Some (BlockTables st)) as Hchk.
  { unfold be, NewBlockEvent. cbn [rangeChecker].
    destruct (BlockTables st); split; intros [? ?]; done. }
  assert (∀ clk h' c' n,
     lastResendTime (resend clk h' c' (be, n)).2.1 = zeroTime ∧
     ((∃ msg, (resend clk h' c' (be, n)).1 = Panic msg) ↔
        BlockTables st = None ∧
        ¬ time_Sub (clk n) zeroTime < Second ∧
        time_Sub (clk (S n)) now > Second * 10) ∧
     ((resend clk h' c' (be, n)).1 = Ok [] ∨
      ∃ msg, (resend clk h' c' (be, n)).1 = Panic msg)) as Hresend.
  { intros clk h' c' n. unfold resend, deferred, resendWarning.
    change (selected be) with false. change (lastResendTime be) with zeroTime.
    change (lastWarningLogTime be) with now.
    destruct (decide (time_Sub (clk n) zeroTime < Second)) as [Hlim|Hlim].
    { cbn [fst snd]. split_and!; [done| |by left].
      split; [by intros [? ?]|]. by intros (_ & ? & _). }
    cbn [negb].
    destruct (decide (time_Sub (clk (S n)) now > Second * 10)) as [Hw|Hw].
    - assert (rangeChecker be = None ↔ BlockTables st = None) as Hnil.
      { unfold be, NewBlockEvent. cbn [rangeChecker].
        by destruct (BlockTables st). }
      destruct (rangeChecker be) as [rc|]; cbn [fst snd].
      + split_and!; [done| |by left].
        split; [by intros [? ?]|]. intros (Hnone & _).
        by apply Hnil in Hnone.
      + split_and!; [done| |right; by eexists].
        split; [|intros _; by eexists]. intros _.
        split_and!; [by apply Hnil|done|done].
    - cbn [fst snd]. split_and!; [done| |by left].
      split; [by intros [? ?]|]. by intros (_ & _ & ?). }
  split_and!; try reflexivity.
  - intros clk h' c' n. destruct (Hresend clk h' c' n) as (Hl & Hp & Hor).
    split_and!; try done.
    destruct Hor as [-> | [msg ->]]; done.
  - done.
  - intros Hnone. unfold allDispatcherReported, onAllDispatcherReportedBlockEvent,
      markDispatcherEventDone, sendPassAction.
    unfold be, NewBlockEvent. cbn [rangeChecker blockedDispatchers].
    rewrite Hnone. split_and!; try done.
    + intros _. by eexists.
    + intros _. by eexists.
    + intros id p ->. by eexists.
    + by intros id ->.
  - intros [bt Hbt]. split_and!.
    + intros tableRange. unfold allDispatcherReported, be, NewBlockEvent.
      cbn [rangeChecker]. rewrite Hbt. by eexists.
    + intros id. unfold markDispatcherEventDone, be, NewBlockEvent.
      cbn [rangeChecker]. rewrite Hbt.
      destruct (GetTask c id); eexists; split; reflexivity.
    + intros clk h' c' n. destruct (Hresend clk h' c' n) as (_ & Hp & [Hok|Hpanic]);
        [done|].
      apply Hp in Hpanic as [Hnone _]. congruence.
Qed.

(** ** All of a heartbeat *)



(** ** Adding a table *)

Lemma addNewSpans_loop a cf sid ts (ids : nat → DispatcherID)
    (spans : list TableSpan) :
  ∀ h db n,
    db_inv h db →
    (∀ i, (i < length spans)%nat → allTasks db !! ids (n + i)%nat = None) →
    (∀ i j, (i < length spans)%nat → (j < length spans)%nat →
       ids (n + i)%nat = ids (n + j)%nat → i = j) →
    let r := foldl (addNewSpansStep a cf sid ts ids) (h, db, n) spans in
    db_inv r.1.1 r.1.2 ∧ h ⊆ r.1.1 ∧ r.2 = (n + length spans)%nat ∧
    (∀ id q, allTasks db !! id = Some q → allTasks r.1.2 !! id = Some q) ∧
    (∀ id q, absent (tracker db) !! id = Some q →
       absent (tracker r.1.2) !! id = Some q) ∧
    (∀ i span, spans !! i = Some span →
       ∃ q, h !! q = None ∧
            allTasks r.1.2 !! ids (n + i)%nat = Some q ∧
            absent (tracker r.1.2) !! ids (n + i)%nat = Some q ∧
            r.1.1 !! q = Some (NewReplicaSet cf (ids (n + i)%nat)
                                 (adder_tsoClient a) sid span ts)) ∧
    size (allTasks r.1.2) = (size (allTasks db) + length spans)%nat.
Proof.
  induction spans as [|span rest IH]; intros h db n Hinv Hfresh Hinj.
  - simpl. split_and!; try done; try lia.
  - cbv zeta.
    set (new := NewReplicaSet cf (ids n) (adder_tsoClient a) sid span ts).
    set (p := fresh (dom h)).
    set (h1 := <[p := new]> h).
    assert (h !! p = None) as Hp by (apply not_elem_of_dom, is_fresh).
    assert (h ⊆ h1) as Hsub by (by apply insert_subseteq).
    assert (h1 !! p = Some new) as Hnew by (apply lookup_insert_eq).
    assert (allTasks db !! ids n = None) as Hn.
    { specialize (Hfresh 0%nat). rewrite Nat.add_0_r in Hfresh.
      apply Hfresh. simpl. lia. }
    assert (p ≠ ddlSpan db) as Hddl.
    { intros ->. destruct (inv_ddl _ _ Hinv) as [s Hs]. congruence. }
    pose proof (db_inv_weaken _ _ _ Hinv Hsub) as Hinv1.
    pose proof (addAbsentOne_inv h1 db p new Hinv1 Hnew Hn Hddl) as Hinv2.
    pose proof (inv_unknown _ _ _ Hinv Hn) as (_ & _ & _ & Hab & _ & _).
    set (db1 := AddAbsentReplicaSet h1 db [p]) in *.
    change (addAbsentOne h1 db p) with db1 in Hinv2.
    assert (allTasks db1 = <[ids n := p]> (allTasks db)) as Hall.
    { unfold db1. simpl. by rewrite (deref_Some _ _ _ Hnew). }
    assert (absent (tracker db1) = <[ids n := p]> (absent (tracker db))) as Habs.
    { unfold db1. simpl. by rewrite (deref_Some _ _ _ Hnew). }
    destruct (IH h1 db1 (S n) Hinv2) as (Hi & Hs & Hc & HA & HA' & HB & Hsz).
    { intros i Hi. rewrite Hall, lookup_insert_ne.
      - replace (S n + i)%nat with (n + S i)%nat by lia. apply Hfresh. simpl. lia.
      - intros E. replace (ids n) with (ids (n + 0)%nat) in E by (f_equal; lia).
        replace (S n + i)%nat with (n + S i)%nat in E by lia.
        apply Hinj in E; simpl; lia. }
    { intros i j Hi Hj E.
      replace (S n + i)%nat with (n + S i)%nat in E by lia.
      replace (S n + j)%nat with (n + S j)%nat in E by lia.
      apply Hinj in E; simpl; lia. }
    change (foldl (addNewSpansStep a cf sid ts ids) (h, db, n) (span :: rest))
      with (foldl (addNewSpansStep a cf sid ts ids) (h1, db1, S n) rest).
    set (r := foldl _ (h1, db1, S n) rest) in *.
    clearbody r.
    split_and!; [done|by etrans|rewrite Hc; simpl; lia| | | |].
    + intros id q Hq. apply HA. rewrite Hall, lookup_insert_ne; [done|].
      intros <-. congruence.
    + intros id q Hq. apply HA'. rewrite Habs, lookup_insert_ne; [done|].
      intros <-. congruence.
    + intros [|i] span' Hspan; simpl in Hspan.
      * injection Hspan as <-. exists p. rewrite Nat.add_0_r.
        split_and!; [done| | |].
        -- apply HA. by rewrite Hall, lookup_insert_eq.
        -- apply HA'. by rewrite Habs, lookup_insert_eq.
        -- by eapply lookup_weaken.
      * destruct (HB i span' Hspan) as (q & Hq1 & Hq2 & Hq3 & Hq4).
        exists q. replace (n + S i)%nat with (S n + i)%nat by lia.
        split_and!; try done.
        apply eq_None_not_Some. intros [s Hs'].
        by rewrite (lookup_weaken _ _ _ _ Hs' Hsub) in Hq1.
    + rewrite Hsz, Hall, map_size_insert_None by done. simpl. lia.
Qed.

(** X16. [AddNewTable] on a table the DB knows changes nothing and draws no
    dispatcher id.  On an unknown table, with fresh and distinct dispatcher
    ids, it keeps the invariant and every old task, and adds one absent span
    per table span, made by [NewReplicaSet] from the changefeed id, the drawn
    id, the schema id of the table, the table span and the start ts: the
    whole table when splitting is off, the spans of the splitter otherwise.
    The DB grows by their number.  When one of the spans carries the table id,
    as the whole-table span does, the table exists afterwards and adding it
    again changes nothing. *)
Theorem AddNewTable_adds (a : TableAdder) (ids : nat → DispatcherID)
    (h : gmap ptr SpanReplication) (c : Controller) (n : nat) (table : Table)
    (startTs : Z) :
  let tid := Table_TableID table in
  let tableSpan := {| TableID := tid;
                      StartKey := (TableIDToComparableSpan a tid).1;
                      EndKey := (TableIDToComparableSpan a tid).2 |} in
  let spans := if enableTableAcrossNodes a
               then SplitSpans a tableSpan (length (aliveNodes c))
               else [tableSpan] in
  let r := AddNewTable a ids (h, c, n) table startTs in
  db_wf h (replicationDB c) →
  (∀ i, (i < length spans)%nat → GetTask c (ids (n + i)%nat) = None) →
  (∀ i j, (i < length spans)%nat → (j < length spans)%nat →
     ids (n + i)%nat = ids (n + j)%nat → i = j) →
  (IsTableExists (replicationDB c) tid = true → r = (h, c, n)) ∧
  (IsTableExists (replicationDB c) tid = false →
     db_wf r.1.1 (replicationDB r.1.2) ∧ h ⊆ r.1.1 ∧
     r.2 = (n + length spans)%nat ∧
     (∀ id q, GetTask c id = Some q → GetTask r.1.2 id = Some q) ∧
     (∀ i span, spans !! i = Some span →
        ∃ q, h !! q = None ∧
             GetTask r.1.2 (ids (n + i)%nat) = Some q ∧
             q ∈ GetAbsentWithoutLock (tracker (replicationDB r.1.2)) ∧
             r.1.1 !! q = Some (NewReplicaSet (controller_changefeedID c)
                                  (ids (n + i)%nat) (adder_tsoClient a)
                                  (Table_SchemaID table) span startTs)) ∧
     TaskSize (replicationDB r.1.2) =
       TaskSize (replicationDB c) + Z.of_nat (length spans) ∧
     ((∃ span, span ∈ spans ∧ TableID span = tid) →
        IsTableExists (replicationDB r.1.2) tid = true ∧
        AddNewTable a ids r table startTs = r)).
Proof.
  intros tid tableSpan spans r Hinv%db_wf_inv Hfresh Hinj.
  unfold r, AddNewTable. fold tid. split.
  - by intros ->.
  - intros Hex. rewrite Hex. cbv zeta. fold tableSpan. fold spans.
    unfold addNewSpans.
    destruct (addNewSpans_loop a (controller_changefeedID c)
                (Table_SchemaID table) startTs ids spans h (replicationDB c) n
                Hinv Hfresh Hinj) as (Hi & Hsub & Hn & HA & _ & HB & Hsz).
    set (r' := foldl _ (h, replicationDB c, n) spans) in *. clearbody r'.
    cbn [fst snd replicationDB with_replicationDB]. unfold GetTask, GetTaskByID.
    cbn [replicationDB].
    assert ((∃ span, span ∈ spans ∧ TableID span = tid) →
            IsTableExists r'.1.2 tid = true) as Hthen.
    { intros (span & (i & Hspan)%list_elem_of_lookup_1 & Htid).
      destruct (HB i span Hspan) as (q & _ & Hq & _ & Hhq).
      apply (IsTableExists_true _ _ _ Hi). exists (ids (n + i)%nat), q.
      split; [done|]. by rewrite (deref_Some _ _ _ Hhq). }
    split_and!; [by apply db_wf_inv|done|done|done| | |].
    + intros i span Hspan.
      destruct (HB i span Hspan) as (q & Hq1 & Hq2 & Hq3 & Hq4).
      exists q. split_and!; try done.
      apply elem_of_range_values. eauto.
    + unfold TaskSize. rewrite Hsz. lia.
    + intros Hspan. split; [by apply Hthen|].
      destruct r' as [[h' db'] n']. cbn [fst snd] in *.
      unfold with_replicationDB. cbn [replicationDB].
      by rewrite (Hthen Hspan).
Qed.

(** Instance of X16: table 50 of schema 9 is added unsplit to the example
    changefeed and gets dispatcher id 10. *)
Lemma AddNewTable_adds_example :
  db_wf example_heap (replicationDB example_controller) ∧
  IsTableExists (replicationDB example_controller) 50 = false ∧
  ∃ q,
    GetTask (AddNewTable
               {| adder_tsoClient := 1%N; enableTableAcrossNodes := false;
                  SplitSpans := λ span _, [span];
                  TableIDToComparableSpan := example_tableRange |}
               example_ids (example_heap, example_controller, 0%nat)
               {| Table_SchemaID := 9; Table_TableID := 50 |} 150).1.2 10%N
      = Some q ∧
    example_heap !! q = None.
Proof.
  split; [exact example_db_wf|]. split; [reflexivity|].
  destruct (AddNewTable_adds
              {| adder_tsoClient := 1%N; enableTableAcrossNodes := false;
                 SplitSpans := λ span _, [span];
                 TableIDToComparableSpan := example_tableRange |}
              example_ids example_heap example_controller 0%nat
              {| Table_SchemaID := 9; Table_TableID := 50 |} 150)
    as [_ Hadd].
  - exact example_db_wf.
  - intros i Hi. apply example_ids_fresh. simpl in Hi. lia.
  - intros i j _ _. apply example_ids_inj.
  - destruct (Hadd eq_refl) as (_ & _ & _ & _ & Hnew & _).
    destruct (Hnew 0%nat _ eq_refl) as (q & Hq1 & Hq2 & _).
    exists q. split; [exact Hq2|exact Hq1].
Defined.

(** ** The prewrite matcher *)

Lemma unmatched_delete k (m : matcher) mc mr mt :
  unmatched {| unmatchedValue := delete k <$> unmatchedValue m;
               cachedCommit := mc; cachedRollback := mr; lastPrewriteTime := mt |}
  = delete k (unmatched m).
Proof.
  unfold unmatched. simpl. destruct (unmatchedValue m); simpl; [done|].
  by rewrite delete_empty.
Qed.

Lemma newMatchKey_insert (rows : gmap ptr Event_Row) row r p :
  Row_StartTs r = Row_StartTs (rows !!! row) → Row_Key r = Row_Key (rows !!! row) →
  newMatchKey (<[row := r]> rows) p = newMatchKey rows p.
Proof.
  intros Hs Hk. unfold newMatchKey. destruct (decide (row = p)) as [<-|Hne].
  - rewrite lookup_total_insert_eq. by rewrite Hs, Hk.
  - by rewrite lookup_total_insert_ne.
Qed.

(** What a successful [matchRow] does. *)
Lemma matchRow_Some rows g m row initialized value :
  unmatched m !! newMatchKey rows row = Some value →
  (initialized = true ∨ (0 < String.length (Row_Value (rows !!! value)))%nat) →
  let r := rows !!! row in
  let rows' :=
    <[row := {| Row_StartTs := Row_StartTs r; Row_Key := Row_Key r;
                Row_Value := Row_Value (rows !!! value);
                Row_OldValue := Row_OldValue (rows !!! value) |}]> rows in
  ∃ m', matchRow rows (g, m) row initialized =
          (true, rows',
           ({| prewriteCacheRowNum := prewriteCacheRowNum g - 1;
               matcherCount := matcherCount g |}, m')) ∧
        unmatched m' = delete (newMatchKey rows row) (unmatched m) ∧
        cachedCommit m' = cachedCommit m ∧ cachedRollback m' = cachedRollback m ∧
        lastPrewriteTime m' = lastPrewriteTime m ∧
        (∀ p, newMatchKey rows' p = newMatchKey rows p).
Proof.
  intros Hv Hok r rows'.
  assert (∀ p, newMatchKey rows' p = newMatchKey rows p) as Hkey.
  { intros p. by apply newMatchKey_insert. }
  unfold matchRow. rewrite Hv.
  assert (negb initialized &&
          bool_decide (String.length (Row_Value (rows !!! value)) = 0%nat) = false)
    as ->.
  { destruct Hok as [->|Hlen]; [done|].
    rewrite bool_decide_eq_false_2 by lia. by destruct initialized. }
  eexists. split; [reflexivity|]. fold r. fold rows'.
  rewrite unmatched_delete, Hkey. done.
Qed.

Lemma matchRow_None rows s row initialized :
  unmatched s.2 !! newMatchKey rows row = None →
  matchRow rows s row initialized = (false, rows, s).
Proof. destruct s as [g m]. unfold matchRow. simpl. by intros ->. Qed.

(** X17. Prewrite, then commit.  After [putPrewriteRow] of a row with a
    non-empty value, [matchRow] of a commit row with the same start ts and key
    succeeds, whether or not the region is initialized: the commit row gets
    the value and the old value of the prewrite row and keeps its key, no
    other row changes, the key is no longer cached, every other cached key is
    as before the prewrite, and the gauge is back at its value. *)
Theorem putPrewriteRow_matchRow (now : Time) (rows : gmap ptr Event_Row)
    (g : Gauges) (m : matcher) (pre com : ptr) (initialized : bool) :
  newMatchKey rows com = newMatchKey rows pre →
  (0 < String.length (Row_Value (rows !!! pre)))%nat →
  let s1 := putPrewriteRow now rows (g, m) pre in
  let r := matchRow rows s1 com initialized in
  r.1.1 = true ∧
  Row_Value (r.1.2 !!! com) = Row_Value (rows !!! pre) ∧
  Row_OldValue (r.1.2 !!! com) = Row_OldValue (rows !!! pre) ∧
  newMatchKey r.1.2 com = newMatchKey rows com ∧
  (∀ p, p ≠ com → r.1.2 !!! p = rows !!! p) ∧
  unmatched r.2.2 !! newMatchKey rows pre = None ∧
  (∀ k, k ≠ newMatchKey rows pre → unmatched r.2.2 !! k = unmatched m !! k) ∧
  prewriteCacheRowNum r.2.1 = prewriteCacheRowNum g ∧
  lastPrewriteTime r.2.2 = now.
Proof.
  intros Hkey Hlen s1 r.
  assert (s1 = ({| prewriteCacheRowNum := prewriteCacheRowNum g + 1;
                   matcherCount := matcherCount g |},
                {| unmatchedValue := Some (<[newMatchKey rows pre := pre]> (unmatched m));
                   cachedCommit := cachedCommit m;
                   cachedRollback := cachedRollback m;
                   lastPrewriteTime := now |})) as Hs1.
  { unfold s1, putPrewriteRow. rewrite decide_False; [done|]. intros [_ ?]. lia. }
  destruct (matchRow_Some rows s1.1 s1.2 com initialized pre)
    as (m' & Hr & Hun & _ & _ & Ht & Hk).
  { rewrite Hs1, Hkey. unfold unmatched. simpl. apply lookup_insert_eq. }
  { by right. }
  assert (r = matchRow rows (s1.1, s1.2) com initialized) as Hr'
    by (unfold r; by destruct s1).
  rewrite Hr in Hr'. rewrite Hr'. cbn [fst snd].
  rewrite Hun, Hkey. rewrite Hs1. unfold unmatched at 1 2. cbn [fst snd unmatchedValue default].
  split_and!; try done.
  - by rewrite lookup_total_insert_eq.
  - by rewrite lookup_total_insert_eq.
  - rewrite Hk. done.
  - intros p Hp. by rewrite lookup_total_insert_ne.
  - by rewrite lookup_delete_eq.
  - intros k Hne. rewrite lookup_delete_ne by done. unfold unmatched at 1.
    simpl. by rewrite lookup_insert_ne.
  - simpl. lia.
  - by rewrite Ht, Hs1.
Qed.

(** Instance of X17: the prewrite of key k is matched by its commit row. *)
Lemma putPrewriteRow_matchRow_example :
  newMatchKey example_rows 2%positive = newMatchKey example_rows 1%positive ∧
  (0 < String.length (Row_Value (example_rows !!! 1%positive)))%nat ∧
  (matchRow example_rows
     (putPrewriteRow 100 example_rows example_matcher 1%positive)
     2%positive false).1.1 = true ∧
  Row_Value ((matchRow example_rows
                (putPrewriteRow 100 example_rows example_matcher 1%positive)
                2%positive false).1.2 !!! 2%positive) = "v".
Proof.
  split; [reflexivity|]. split; [vm_compute; lia|].
  destruct (putPrewriteRow_matchRow 100 example_rows example_matcher.1
              example_matcher.2 1%positive 2%positive false)
    as (Hok & Hval & _); [reflexivity|vm_compute; lia|].
  split; [exact Hok|exact Hval].
Defined.

(** X18. A fake prewrite, one with an empty value.  It never replaces a
    cached row: when its key is cached, [putPrewriteRow] changes nothing at
    all.  When its key is not cached it is cached itself; a commit row of the
    same key is then refused and nothing changes while the region is not
    initialized, and matched, with the empty value and the old value of the
    fake row, once the region is initialized. *)
Theorem putPrewriteRow_fake (now : Time) (rows : gmap ptr Event_Row)
    (g : Gauges) (m : matcher) (pre : ptr) :
  String.length (Row_Value (rows !!! pre)) = 0%nat →
  let key := newMatchKey rows pre in
  let s1 := putPrewriteRow now rows (g, m) pre in
  (is_Some (unmatched m !! key) → s1 = (g, m)) ∧
  (unmatched m !! key = None →
     unmatched s1.2 !! key = Some pre ∧
     (∀ k, k ≠ key → unmatched s1.2 !! k = unmatched m !! k) ∧
     prewriteCacheRowNum s1.1 = prewriteCacheRowNum g + 1 ∧
     (∀ com, newMatchKey rows com = key →
        matchRow rows s1 com false = (false, rows, s1) ∧
        (matchRow rows s1 com true).1.1 = true ∧
        Row_Value ((matchRow rows s1 com true).1.2 !!! com) = Row_Value (rows !!! pre) ∧
        Row_OldValue ((matchRow rows s1 com true).1.2 !!! com)
          = Row_OldValue (rows !!! pre))).
Proof.
  intros Hlen key s1. split.
  - intros Hsome. unfold s1, putPrewriteRow. fold key. by rewrite decide_True.
  - intros Hnone.
    assert (s1 = ({| prewriteCacheRowNum := prewriteCacheRowNum g + 1;
                     matcherCount := matcherCount g |},
                  {| unmatchedValue := Some (<[key := pre]> (unmatched m));
                     cachedCommit := cachedCommit m;
                     cachedRollback := cachedRollback m;
                     lastPrewriteTime := now |})) as Hs1.
    { unfold s1, putPrewriteRow. fold key. rewrite decide_False; [done|].
      intros [[? Hs] _]. congruence. }
    assert (unmatched s1.2 !! key = Some pre) as Hpre.
    { rewrite Hs1. unfold unmatched. simpl. apply lookup_insert_eq. }
    split_and!; [done| |by rewrite Hs1|].
    + intros k Hne. rewrite Hs1. unfold unmatched at 1. simpl.
      by rewrite lookup_insert_ne.
    + intros com Hcom. split.
      * destruct s1 as [g1 m1]. unfold matchRow. rewrite Hcom. simpl in Hpre.
        rewrite Hpre. rewrite bool_decide_eq_true_2 by done. done.
      * destruct (matchRow_Some rows s1.1 s1.2 com true pre)
          as (m' & Hr & _); [by rewrite Hcom|by left|].
        assert (matchRow rows s1 com true = matchRow rows (s1.1, s1.2) com true)
          as -> by (by destruct s1).
        rewrite Hr. cbn [fst snd]. by rewrite lookup_total_insert_eq.
Qed.

(** Instance of X18: after the real prewrite of key k, the fake one changes
    nothing. *)
Lemma putPrewriteRow_fake_example :
  String.length (Row_Value (example_rows !!! 3%positive)) = 0%nat ∧
  putPrewriteRow 200 example_rows
    (putPrewriteRow 100 example_rows example_matcher 1%positive) 3%positive
  = putPrewriteRow 100 example_rows example_matcher 1%positive.
Proof.
  split; [reflexivity|].
  destruct (putPrewriteRow_fake 200 example_rows
              (putPrewriteRow 100 example_rows example_matcher 1%positive).1
              (putPrewriteRow 100 example_rows example_matcher 1%positive).2
              3%positive eq_refl) as [Hkeep _].
  apply Hkeep. by eexists.
Defined.

Lemma matchCached_loop (K : ptr → matchKey) (l : list ptr) :
  ∀ kept0 rows0 g0 m0,
    (∀ p, newMatchKey rows0 p = K p) →
    let r := foldl matchCachedStep (kept0, rows0, (g0, m0)) l in
    (∀ p, newMatchKey r.1.2 p = K p) ∧
    (∀ k, unmatched r.2.2 !! k =
          if decide (k ∈ K <$> l) then None else unmatched m0 !! k) ∧
    matcherCount r.2.1 = matcherCount g0 ∧
    cachedCommit r.2.2 = cachedCommit m0 ∧
    cachedRollback r.2.2 = cachedRollback m0 ∧
    lastPrewriteTime r.2.2 = lastPrewriteTime m0 ∧
    ∃ kept,
      r.1.1 = kept0 ++ kept ∧ sublist kept l ∧ NoDup (K <$> kept) ∧
      (∀ e, e ∈ kept → is_Some (unmatched m0 !! K e)) ∧
      (∀ e, e ∈ l → is_Some (unmatched m0 !! K e) → K e ∈ K <$> kept) ∧
      prewriteCacheRowNum r.2.1 = prewriteCacheRowNum g0 - Z.of_nat (length kept) ∧
      (∀ p, p ∉ kept → r.1.2 !!! p = rows0 !!! p) ∧
      (∀ e p, e ∈ kept → unmatched m0 !! K e = Some p → p ∉ l →
         Row_Value (r.1.2 !!! e) = Row_Value (rows0 !!! p) ∧
         Row_OldValue (r.1.2 !!! e) = Row_OldValue (rows0 !!! p)).
Proof.
  induction l as [|e l IH]; intros kept0 rows0 g0 m0 HK.
  - simpl. split_and!; try done. exists []. rewrite app_nil_r. simpl.
    split_and!; try done; try lia; try apply NoDup_nil_2;
      try (by intros ? []%not_elem_of_nil);
      try (by intros ? ? []%not_elem_of_nil).
  - cbv zeta. cbn [foldl].
    destruct (unmatched m0 !! K e) as [v|] eqn:Hv.
    + destruct (matchRow_Some rows0 g0 m0 e true v)
        as (m1 & Hr & Hun & Hcc & Hcr & Ht & Hk1);
        [by rewrite HK|by left|].
      set (rows1 := <[e := _]> rows0) in *.
      set (g1 := {| prewriteCacheRowNum := prewriteCacheRowNum g0 - 1;
                    matcherCount := matcherCount g0 |}) in *.
      assert (matchCachedStep (kept0, rows0, (g0, m0)) e
              = (kept0 ++ [e], rows1, (g1, m1))) as ->
        by (unfold matchCachedStep; by rewrite Hr).
      clear Hr.
      rewrite HK in Hun.
      destruct (IH (kept0 ++ [e]) rows1 g1 m1) as
        (Hkey & Hmap & Hmc & Hc1 & Hc2 & Hc3 & kept & Hkept & Hsub & Hnd & Hin
         & Hall & Hg & Hrows & Hvals).
      { intros p. by rewrite Hk1. }
      set (r := foldl matchCachedStep (kept0 ++ [e], rows1, (g1, m1)) l) in *.
      clearbody r.
      assert (K e ∉ K <$> kept) as Hfresh.
      { intros (e' & He' & Hin')%list_elem_of_fmap.
        destruct (Hin e' Hin') as [q Hq]. rewrite Hun, <- He' in Hq.
        by rewrite lookup_delete_eq in Hq. }
      split_and!; [done| |done|congruence..|].
      * intros k. rewrite Hmap, Hun, fmap_cons.
        destruct (decide (k = K e)) as [->|Hne].
        -- rewrite lookup_delete_eq. rewrite (decide_True (P := K e ∈ K e :: _))
             by (by left). by destruct (decide _).
        -- rewrite lookup_delete_ne by done.
           destruct (decide (k ∈ K <$> l)) as [Hl|Hl].
           ++ rewrite decide_True; [done|]. by right.
           ++ rewrite decide_False; [done|]. intros [?|?]%elem_of_cons; done.
      * exists (e :: kept). split_and!.
        -- by rewrite Hkept, <- app_assoc.
        -- by apply sublist_skip.
        -- rewrite fmap_cons. by apply NoDup_cons.
        -- intros e' [->|He']%elem_of_cons; [by rewrite Hv|].
           destruct (Hin e' He') as [q Hq]. rewrite Hun in Hq.
           apply lookup_delete_Some in Hq as [_ Hq]. by eexists.
        -- intros e' He' Hsome. rewrite fmap_cons.
           destruct (decide (K e' = K e)) as [->|Hne]; [by left|].
           right. apply elem_of_cons in He' as [->|He']; [done|].
           apply Hall; [done|]. by rewrite Hun, lookup_delete_ne.
        -- rewrite Hg. simpl. lia.
        -- intros p Hp. rewrite Hrows.
           ++ unfold rows1. rewrite lookup_total_insert_ne; [done|].
              intros <-. apply Hp. by left.
           ++ intros ?. apply Hp. by right.
        -- intros e' p He' Hp Hnotin.
           assert (p ≠ e) as Hpe by (intros ->; apply Hnotin; by left).
           assert (p ∉ l) as Hpl by (intros ?; apply Hnotin; by right).
           apply elem_of_cons in He' as [->|He'].
           ++ assert (e ∉ kept) as Hek.
              { intros ?. apply Hfresh. apply list_elem_of_fmap. eauto. }
              rewrite (Hrows e Hek). unfold rows1.
              rewrite lookup_total_insert_eq. simpl.
              rewrite Hv in Hp. by injection Hp as ->.
           ++ assert (K e' ≠ K e) as Hne.
              { intros E. apply Hfresh. rewrite <- E.
                apply list_elem_of_fmap. eauto. }
              destruct (Hvals e' p He') as [-> ->]; [|done|].
              ** by rewrite Hun, lookup_delete_ne.
              ** unfold rows1. by rewrite lookup_total_insert_ne.
    + assert (matchCachedStep (kept0, rows0, (g0, m0)) e
              = (kept0, rows0, (g0, m0))) as ->.
      { unfold matchCachedStep.
        by rewrite (matchRow_None rows0 (g0, m0) e true) by (by rewrite HK). }
      destruct (IH kept0 rows0 g0 m0 HK) as
        (Hkey & Hmap & Hmc & Hc1 & Hc2 & Hc3 & kept & Hkept & Hsub & Hnd & Hin
         & Hall & Hg & Hrows & Hvals).
      set (r := foldl matchCachedStep (kept0, rows0, (g0, m0)) l) in *.
      clearbody r.
      split_and!; [done| |done..|].
      * intros k. rewrite Hmap, fmap_cons.
        destruct (decide (k ∈ K <$> l)) as [Hl|Hl].
        -- rewrite decide_True; [done|]. by right.
        -- destruct (decide (k ∈ K e :: (K <$> l))) as [[->|?]%elem_of_cons|?];
             done.
      * exists kept. split_and!; try done.
        -- by apply sublist_cons.
        -- intros e' [->|He']%elem_of_cons Hsome.
           ++ rewrite Hv in Hsome. by destruct Hsome.
           ++ by apply Hall.
        -- intros e' p He' Hp Hnotin. apply Hvals; [done|done|].
           intros ?. apply Hnotin. by right.
Qed.

(** X19. [matchCachedRow] panics when the region is not initialized.
    Otherwise it empties the commit cache and returns, in their order, the
    cached commit rows that found a prewrite: a row is returned only if its
    key was cached, no two returned rows have the same key, and every cached
    key that some commit row asks for is matched by a returned row.  The keys
    asked for are gone from the prewrite cache and no other key is touched;
    the gauge goes down by the number of rows returned.  Rows that are not
    returned are not written, no row changes its key, and a returned row has
    the value and the old value of its prewrite row (when that row is not
    itself one of the cached commit rows). *)
Theorem matchCachedRow_matches (rows : gmap ptr Event_Row) (g : Gauges)
    (m : matcher) :
  let K := newMatchKey rows in
  (∃ msg, matchCachedRow rows (g, m) false = Panic msg) ∧
  ∃ kept rows' g' m',
    matchCachedRow rows (g, m) true = Ok (kept, rows', (g', m')) ∧
    cachedCommit m' = [] ∧
    cachedRollback m' = cachedRollback m ∧
    lastPrewriteTime m' = lastPrewriteTime m ∧
    sublist kept (cachedCommit m) ∧
    NoDup (K <$> kept) ∧
    (∀ e, e ∈ kept → is_Some (unmatched m !! K e)) ∧
    (∀ e, e ∈ cachedCommit m → is_Some (unmatched m !! K e) → K e ∈ K <$> kept) ∧
    (∀ k, unmatched m' !! k =
          if decide (k ∈ K <$> cachedCommit m) then None else unmatched m !! k) ∧
    prewriteCacheRowNum g' = prewriteCacheRowNum g - Z.of_nat (length kept) ∧
    matcherCount g' = matcherCount g ∧
    (∀ p, newMatchKey rows' p = K p) ∧
    (∀ p, p ∉ kept → rows' !!! p = rows !!! p) ∧
    (∀ e p, e ∈ kept → unmatched m !! K e = Some p → p ∉ cachedCommit m →
       Row_Value (rows' !!! e) = Row_Value (rows !!! p) ∧
       Row_OldValue (rows' !!! e) = Row_OldValue (rows !!! p)).
Proof.
  intros K. split; [by eexists|].
  unfold matchCachedRow. cbn [negb].
  set (m0 := {| unmatchedValue := unmatchedValue m; cachedCommit := [];
                cachedRollback := cachedRollback m;
                lastPrewriteTime := lastPrewriteTime m |}).
  destruct (matchCached_loop K (cachedCommit m) [] rows g m0)
    as (Hkey & Hmap & Hmc & Hc1 & Hc2 & Hc3 & kept & Hkept & Hsub & Hnd & Hin
        & Hall & Hg & Hrows & Hvals); [done|].
  destruct (foldl matchCachedStep ([], rows, (g, m0)) (cachedCommit m))
    as [[kept' rows'] [g' m']].
  cbn [fst snd] in *. subst kept'.
  exists kept, rows', g', m'. split_and!; done.
Qed.

(** X20. Rolling back and cleaning.  After [rollbackRow] the key of the row
    is not cached, every other key is as before, and a commit row of that key
    is refused with nothing changed; the gauge goes down by one whether or not
    the key was cached, and when it was not, the prewrite cache is unchanged.
    [tryCleanUnmatchedValue] never drops a cached row: the prewrite cache
    holds the same rows afterwards, the cached commit and rollback rows are
    kept, and [matchRow] answers as it would have. *)
Theorem rollbackRow_tryClean (rows : gmap ptr Event_Row) (g : Gauges)
    (m : matcher) (row : ptr) (now : Time) :
  let s1 := rollbackRow rows (g, m) row in
  let key := newMatchKey rows row in
  unmatched s1.2 !! key = None ∧
  (∀ k, k ≠ key → unmatched s1.2 !! k = unmatched m !! k) ∧
  (∀ com initialized, newMatchKey rows com = key →
     matchRow rows s1 com initialized = (false, rows, s1)) ∧
  prewriteCacheRowNum s1.1 = prewriteCacheRowNum g - 1 ∧
  (unmatched m !! key = None → unmatched s1.2 = unmatched m) ∧
  unmatched (tryCleanUnmatchedValue now m) = unmatched m ∧
  cachedCommit (tryCleanUnmatchedValue now m) = cachedCommit m ∧
  cachedRollback (tryCleanUnmatchedValue now m) = cachedRollback m ∧
  (∀ com initialized,
     (matchRow rows (g, tryCleanUnmatchedValue now m) com initialized).1
     = (matchRow rows (g, m) com initialized).1).
Proof.
  intros s1 key.
  assert (unmatched s1.2 = delete key (unmatched m)) as Hun
    by apply unmatched_delete.
  assert (unmatched (tryCleanUnmatchedValue now m) = unmatched m) as Hclean.
  { unfold tryCleanUnmatchedValue, unmatched.
    destruct (unmatchedValue m) as [mp|] eqn:Hmp; [|by rewrite Hmp].
    destruct (decide _) as [[_ Hsz]|_]; [|by rewrite Hmp].
    simpl. symmetry. by apply map_size_empty_iff. }
  split_and!.
  - by rewrite Hun, lookup_delete_eq.
  - intros k Hne. by rewrite Hun, lookup_delete_ne.
  - intros com initialized Hcom. apply matchRow_None.
    by rewrite Hcom, Hun, lookup_delete_eq.
  - reflexivity.
  - intros Hnone. by rewrite Hun, delete_id.
  - done.
  - unfold tryCleanUnmatchedValue. destruct (unmatchedValue m); [|done].
    by destruct (decide _).
  - unfold tryCleanUnmatchedValue. destruct (unmatchedValue m); [|done].
    by destruct (decide _).
  - intros com initialized. unfold matchRow. rewrite Hclean.
    destruct (unmatched m !! newMatchKey rows com); [|done].
    by destruct (negb initialized && _).
Qed.

Lemma unmatched_Some mp mc mr mt :
  unmatched {| unmatchedValue := Some mp; cachedCommit := mc;
               cachedRollback := mr; lastPrewriteTime := mt |} = mp.
Proof. reflexivity. Qed.

Lemma size_delete_present {K} `{Countable K} {A} (mp : gmap K A) k :
  is_Some (mp !! k) → Z.of_nat (size (delete k mp)) = Z.of_nat (size mp) - 1.
Proof.
  intros [x Hx]. rewrite map_size_delete_Some by done.
  assert (size mp ≠ 0%nat); [|lia].
  apply map_size_non_empty_iff. intros E. by rewrite E in Hx.
Qed.

Lemma matchRow_drift rows s row initialized :
  gauge_drift (matchRow rows s row initialized).2 = gauge_drift s.
Proof.
  destruct s as [g m].
  destruct (unmatched m !! newMatchKey rows row) as [v|] eqn:Hv.
  - destruct (decide (initialized = true ∨
                      (0 < String.length (Row_Value (rows !!! v)))%nat)) as [Hok|Hno].
    + destruct (matchRow_Some rows g m row initialized v Hv Hok)
        as (m' & -> & Hun & _).
      unfold gauge_drift. cbn [fst snd]. rewrite Hun.
      rewrite size_delete_present by done. simpl. lia.
    + unfold matchRow. rewrite Hv.
      assert (negb initialized &&
              bool_decide (String.length (Row_Value (rows !!! v)) = 0%nat) = true)
        as ->; [|done].
      destruct initialized; [tauto|]. simpl. apply bool_decide_eq_true_2. lia.
  - by rewrite (matchRow_None rows (g, m) row initialized Hv).
Qed.

Lemma matchCached_drift (l : list ptr) :
  ∀ acc, gauge_drift (foldl matchCachedStep acc l).2 = gauge_drift acc.2.
Proof.
  induction l as [|e l IH]; intros acc; [done|].
  cbn [foldl]. rewrite IH. destruct acc as [[kept rows] s].
  unfold matchCachedStep.
  pose proof (matchRow_drift rows s e true) as Hd.
  destruct (matchRow rows s e true) as [[ok rows'] s']. cbn [fst snd] in *.
  by destruct ok.
Qed.

(** X21. What the gauge of cached prewrite rows counts.  [matchRow],
    [matchCachedRow] and [clear] keep the gauge as far from the number of
    cached rows as it was, and a new matcher holds none.  [putPrewriteRow]
    moves the gauge one above the number of rows when a prewrite with a value
    replaces a cached row, and [rollbackRow] moves it one below when the key
    is not cached: only without such calls does the gauge stay equal to the
    number of cached rows. *)
Theorem gauge_accounting (rows : gmap ptr Event_Row) (g : Gauges) (m : matcher)
    (row : ptr) (now : Time) (initialized : bool) :
  let key := newMatchKey rows row in
  gauge_drift (matchRow rows (g, m) row initialized).2 = gauge_drift (g, m) ∧
  (∀ r, matchCachedRow rows (g, m) initialized = Ok r →
        gauge_drift r.2 = gauge_drift (g, m)) ∧
  gauge_drift (matcher_clear (g, m)) = gauge_drift (g, m) ∧
  unmatched (matcher_clear (g, m)).2 = ∅ ∧
  gauge_drift (newMatcher g) = prewriteCacheRowNum g ∧
  gauge_drift (putPrewriteRow now rows (g, m) row) =
    gauge_drift (g, m) +
    (if decide (is_Some (unmatched m !! key) ∧
                (0 < String.length (Row_Value (rows !!! row)))%nat)
     then 1 else 0) ∧
  gauge_drift (rollbackRow rows (g, m) row) =
    gauge_drift (g, m) - (if decide (unmatched m !! key = None) then 1 else 0).
Proof.
  intros key. split_and!.
  - apply matchRow_drift.
  - intros r. unfold matchCachedRow. destruct initialized; [|done].
    cbn [negb]. intros [= <-]. by rewrite matchCached_drift.
  - unfold gauge_drift, matcher_clear, unmatched. simpl.
    rewrite map_size_empty. lia.
  - reflexivity.
  - unfold gauge_drift, unmatched. simpl. rewrite map_size_empty. lia.
  - unfold putPrewriteRow. fold key.
    destruct (decide (is_Some (unmatched m !! key) ∧
                      String.length (Row_Value (rows !!! row)) = 0%nat))
      as [[Hs Hl]|Hno].
    + rewrite decide_False by lia. lia.
    + unfold gauge_drift. cbn [fst snd]. rewrite unmatched_Some.
      destruct (unmatched m !! key) as [p|] eqn:Hp.
      * rewrite decide_True.
        -- rewrite map_size_insert_Some by done. simpl. lia.
        -- split; [done|]. destruct (String.length _) eqn:E; [|lia].
           exfalso. apply Hno. split; [done|done].
      * rewrite decide_False by (intros [[? ?] _]; done).
        rewrite map_size_insert_None by done. simpl. lia.
  - unfold gauge_drift, rollbackRow. cbn [fst snd].
    rewrite unmatched_delete. fold key.
    destruct (unmatched m !! key) as [p|] eqn:Hp.
    + rewrite decide_False by done. rewrite size_delete_present by done.
      simpl. lia.
    + rewrite decide_True by done. rewrite delete_id by done. simpl. lia.
Qed.

(** ** Validating a codec configuration *)

Lemma if_Some_None {A} (b : bool) (e : A) (X : option A) :
  (if b then Some e else X) = None ↔ b = false ∧ X = None.
Proof. destruct b; naive_solver. Qed.

Lemma Validate_None {L G E : Type}
    (AdjustAndValidate : L → Protocol → bool → option E * L) (c : Config L G) :
  (Validate AdjustAndValidate c).1 = None ↔
     (Protocol_of c = ProtocolAvro →
        (AvroConfluentSchemaRegistry c = "" ↔ is_Some (AvroGlueSchemaRegistry c)) ∧
        (AvroDecimalHandlingMode c = DecimalHandlingModePrecise ∨
         AvroDecimalHandlingMode c = DecimalHandlingModeString) ∧
        (AvroBigintUnsignedHandlingMode c = BigintUnsignedHandlingModeLong ∨
         AvroBigintUnsignedHandlingMode c = BigintUnsignedHandlingModeString) ∧
        (EnableRowChecksum c = true →
           EnableTiDBExtension c = true ∧
           AvroDecimalHandlingMode c = DecimalHandlingModeString ∧
           AvroBigintUnsignedHandlingMode c = BigintUnsignedHandlingModeString)) ∧
     0 < MaxMessageBytes c ∧ 0 < MaxBatchSize c ∧
     (∀ l, LargeMessageHandle c = Some l →
        (AdjustAndValidate l (Protocol_of c) (EnableTiDBExtension c)).1 = None).
Proof.
  unfold Validate.
  set (avro := if decide (Protocol_of c = ProtocolAvro) then _ else None).
  assert ((avro = None ↔
           (Protocol_of c = ProtocolAvro →
        (AvroConfluentSchemaRegistry c = "" ↔ is_Some (AvroGlueSchemaRegistry c)) ∧
        (AvroDecimalHandlingMode c = DecimalHandlingModePrecise ∨
         AvroDecimalHandlingMode c = DecimalHandlingModeString) ∧
        (AvroBigintUnsignedHandlingMode c = BigintUnsignedHandlingModeLong ∨
         AvroBigintUnsignedHandlingMode c = BigintUnsignedHandlingModeString) ∧
        (EnableRowChecksum c = true →
           EnableTiDBExtension c = true ∧
           AvroDecimalHandlingMode c = DecimalHandlingModeString ∧
           AvroBigintUnsignedHandlingMode c = BigintUnsignedHandlingModeString)))) as Havro.
  { unfold avro. clear avro.
    destruct (decide (Protocol_of c = ProtocolAvro)) as [Hp|Hp]; [|by split].
    rewrite !if_Some_None.
    assert (bool_decide (AvroConfluentSchemaRegistry c ≠ "") &&
              bool_decide (is_Some (AvroGlueSchemaRegistry c)) = false ∧
            bool_decide (AvroConfluentSchemaRegistry c = "") &&
              negb (bool_decide (is_Some (AvroGlueSchemaRegistry c))) = false ↔
            (AvroConfluentSchemaRegistry c = "" ↔ is_Some (AvroGlueSchemaRegistry c)))
      as H1.
    { rewrite !andb_false_iff, negb_false_iff, !bool_decide_eq_false,
        bool_decide_eq_true.
      destruct (decide (AvroConfluentSchemaRegistry c = "")),
        (decide (is_Some (AvroGlueSchemaRegistry c))); tauto. }
    assert (bool_decide (AvroDecimalHandlingMode c ≠ DecimalHandlingModePrecise) &&
              bool_decide (AvroDecimalHandlingMode c ≠ DecimalHandlingModeString)
              = false ↔
            AvroDecimalHandlingMode c = DecimalHandlingModePrecise ∨
            AvroDecimalHandlingMode c = DecimalHandlingModeString)
      as H2.
    { rewrite andb_false_iff, !bool_decide_eq_false. split.
      - intros [H|H]; apply dec_stable in H; auto.
      - intros [H|H]; [left|right]; intros Hn; by apply Hn. }
    assert (bool_decide (AvroBigintUnsignedHandlingMode c ≠ BigintUnsignedHandlingModeLong) &&
              bool_decide (AvroBigintUnsignedHandlingMode c ≠ BigintUnsignedHandlingModeString)
              = false ↔
            AvroBigintUnsignedHandlingMode c = BigintUnsignedHandlingModeLong ∨
            AvroBigintUnsignedHandlingMode c = BigintUnsignedHandlingModeString)
      as H3.
    { rewrite andb_false_iff, !bool_decide_eq_false. split.
      - intros [H|H]; apply dec_stable in H; auto.
      - intros [H|H]; [left|right]; intros Hn; by apply Hn. }
    assert (EnableRowChecksum c &&
              negb (EnableTiDBExtension c &&
                    bool_decide (AvroDecimalHandlingMode c = DecimalHandlingModeString) &&
                    bool_decide (AvroBigintUnsignedHandlingMode c
                                 = BigintUnsignedHandlingModeString)) = false ↔
            (EnableRowChecksum c = true →
               EnableTiDBExtension c = true ∧
               AvroDecimalHandlingMode c = DecimalHandlingModeString ∧
               AvroBigintUnsignedHandlingMode c = BigintUnsignedHandlingModeString))
      as H4.
    { destruct (EnableRowChecksum c); [|by split]. cbn [andb].
      rewrite negb_false_iff, !andb_true_iff, !bool_decide_eq_true. split.
      - intros [[? ?] ?] _. by split_and!.
      - intros H. destruct (H eq_refl) as (? & ? & ?). by split_and!. }
    rewrite <- H1, <- H2, <- H3, <- H4. clear H1 H2 H3 H4. tauto. }
  rewrite <- Havro. clear Havro.
  destruct avro as [err|]; cbn [fst].
  { split; [done|]. by intros [? _]. }
  assert (∀ (r : option E), ErrLargeMessageHandle <$> r = None ↔ r = None) as Hfm
    by (intros [?|]; done).
  destruct (decide (MaxMessageBytes c ≤ 0)); cbn [fst];
    [split; [done|intros (_ & ? & _); lia]|].
  destruct (decide (MaxBatchSize c ≤ 0)); cbn [fst];
    [split; [done|intros (_ & _ & ? & _); lia]|].
  destruct (LargeMessageHandle c) as [l|]; cbn [fst].
  - rewrite Hfm. split.
    + intros H. split_and!; [done|lia|lia|]. by intros ? [= <-].
    + intros (_ & _ & _ & H). by apply H.
  - split; [|done]. intros _. split_and!; [done|lia|lia|done].
Qed.

(** X22. [Validate] raises no error exactly when the sizes are positive, the
    large-message configuration, if any, is accepted, and, for the Avro
    protocol, exactly one of the two schema registries is given, the decimal
    mode is precise or string, the unsigned-bigint mode is long or string, and
    row checksums come with the TiDB extension and both modes set to string.
    A validated Avro configuration therefore has a known schema registry type,
    confluent or glue.  A configuration fresh from [NewConfig] for Avro is
    refused for want of a schema registry, and a size that is not positive,
    set by [WithMaxMessageBytes], is refused for every other protocol.  An
    error that [Validate] raises itself leaves the large-message
    configuration as it was. *)
Theorem Validate_accepts {L G E : Type}
    (AdjustAndValidate : L → Protocol → bool → option E * L) (c : Config L G) :
  ((Validate AdjustAndValidate c).1 = None ↔
     (Protocol_of c = ProtocolAvro →
        (AvroConfluentSchemaRegistry c = "" ↔ is_Some (AvroGlueSchemaRegistry c)) ∧
        (AvroDecimalHandlingMode c = DecimalHandlingModePrecise ∨
         AvroDecimalHandlingMode c = DecimalHandlingModeString) ∧
        (AvroBigintUnsignedHandlingMode c = BigintUnsignedHandlingModeLong ∨
         AvroBigintUnsignedHandlingMode c = BigintUnsignedHandlingModeString) ∧
        (EnableRowChecksum c = true →
           EnableTiDBExtension c = true ∧
           AvroDecimalHandlingMode c = DecimalHandlingModeString ∧
           AvroBigintUnsignedHandlingMode c = BigintUnsignedHandlingModeString)) ∧
     0 < MaxMessageBytes c ∧ 0 < MaxBatchSize c ∧
     (∀ l, LargeMessageHandle c = Some l →
        (AdjustAndValidate l (Protocol_of c) (EnableTiDBExtension c)).1 = None)) ∧
  ((Validate AdjustAndValidate c).1 = None → Protocol_of c = ProtocolAvro →
     SchemaRegistryType c =
       (if decide (AvroConfluentSchemaRegistry c = "")
        then SchemaRegistryTypeGlue else SchemaRegistryTypeConfluent)) ∧
  (∀ d l, (Validate (G := G) AdjustAndValidate (NewConfig d l ProtocolAvro)).1
          = Some ErrNoSchemaRegistry) ∧
  (∀ bytes, bytes ≤ 0 → Protocol_of c ≠ ProtocolAvro →
     (Validate AdjustAndValidate (WithMaxMessageBytes bytes c)).1
       = Some (ErrMaxMessageBytes bytes)) ∧
  (∀ e, (Validate AdjustAndValidate c).1 = Some e →
        (∀ e', e ≠ ErrLargeMessageHandle e') →
        (Validate AdjustAndValidate c).2 = LargeMessageHandle c).
Proof.
  split_and!.
  - apply Validate_None.
  - intros Hok Hp. apply Validate_None in Hok as (Havro & _).
    destruct (Havro Hp) as (Hreg & _). unfold SchemaRegistryType.
    destruct (decide (AvroConfluentSchemaRegistry c = "")) as [He|Hne].
    + rewrite decide_False by (intros ?; done).
      by rewrite bool_decide_eq_true_2 by (by apply Hreg).
    + by rewrite decide_True.
  - intros d l. reflexivity.
  - intros bytes Hb Hp. unfold Validate. cbn [Protocol_of WithMaxMessageBytes].
    rewrite decide_False by done. cbn [MaxMessageBytes].
    by rewrite decide_True.
  - intros e. unfold Validate.
    set (avro := if decide (Protocol_of c = ProtocolAvro) then _ else None).
    destruct avro as [err|]; [done|].
    destruct (decide (MaxMessageBytes c ≤ 0)); [done|].
    destruct (decide (MaxBatchSize c ≤ 0)); [done|].
    destruct (LargeMessageHandle c) as [l|]; [|done].
    cbn [fst snd]. destruct (AdjustAndValidate l _ _).1 as [e0|]; [|done].
    intros [= <-] Hne. by destruct (Hne e0).
Qed.
